(** * Tetroidz: the falling-block engine of [useGameLogic]

    A shallow embedding of the game hook (board, collision test, merge,
    line clearing, 7-bag piece supply, SRS rotation, hold, ghost projection,
    hard drop) together with the properties stated about it.

    Conventions of the embedding.
    - JavaScript numbers that the engine only uses as small integers
      (coordinates, rotation index, score) are [Z].  The one product of
      fractional numbers, in the shuffle, is a product of doubles and is
      rounded as such.
    - Arrays are lists; an index read is stdpp's lookup [!!].  Reading past
      the end of a JavaScript array gives [undefined]; reading a property of
      [undefined] raises a [TypeError].  Both are written out: cells carry an
      explicit "undefined" constructor and computations that may raise live
      in the [res] monad.
    - React state is one record [State]; a handler reads the snapshot [s] it
      closed over at render time and accumulates its [setX] calls in a second
      record, exactly as batching does.  The [useRef] cells (piece bag) are
      updated in place and threaded through.
    - [Math.random] is an oracle [random : nat -> Q]; the state counts the
      calls made so far.
    - [setTimeout] callbacks queued by [clearLines] are kept in the state
      and run by [fireTimeout].
    - The fall timer and the one-second clock are not part of the state:
      their callbacks are events that may run in any state, which covers
      every schedule React's effects can produce. *)

From Stdlib Require Import ZArith QArith Qround Qpower Sorted Lia Lqa.
From stdpp Require Import base option list strings pretty gmap.

Local Open Scope Z_scope.

(** ** Outcomes: a value, a raised [TypeError], or an exhausted loop budget *)

Inductive res (A : Type) : Type :=
  | Ret (a : A)
  | TypeError
  | OutOfFuel.
Arguments Ret {A} a.
Arguments TypeError {A}.
Arguments OutOfFuel {A}.

Definition res_bind {A B} (m : res A) (k : A -> res B) : res B :=
  match m with
  | Ret a => k a
  | TypeError => TypeError
  | OutOfFuel => OutOfFuel
  end.

#[global] Instance res_mbind : MBind res := fun A B k m => res_bind m k.
#[global] Instance res_mret : MRet res := fun A a => Ret a.

(** ** Constants and piece tables *)

Definition BOARD_WIDTH : Z := 10.
Definition BOARD_HEIGHT : Z := 20.

(** [keyof typeof PIECES], in the key order of the object literal. *)
Inductive PieceName : Type := PI | PO | PT | PL | PJ | PS | PZ.

#[global] Instance PieceName_eq_dec : EqDecision PieceName.
Proof. solve_decision. Defined.

(** A shape cell is a [number]; [NUndef] is what an out-of-range read of a
    row produces. *)
Inductive num : Type :=
  | Num (n : Z)
  | NUndef.
Coercion Num : Z >-> num.

(** JavaScript truthiness of a shape cell ([if (cell)], [!cell]). *)
Definition truthy (c : num) : bool :=
  match c with
  | Num n => negb (n =? 0)
  | NUndef => false
  end.

Abbreviation Shape := (list (list num)).

(** A matrix literal of numbers. *)
Definition cells (m : list (list Z)) : Shape :=
  (fun row : list Z => Num <$> row) <$> m.

Definition PIECES (name : PieceName) : Shape :=
  match name with
  | PI => cells [[1; 1; 1; 1]]
  | PO => cells [[1; 1]; [1; 1]]
  | PT => cells [[1; 1; 1]; [0; 1; 0]]
  | PL => cells [[1; 1; 1]; [1; 0; 0]]
  | PJ => cells [[1; 1; 1]; [0; 0; 1]]
  | PS => cells [[0; 1; 1]; [1; 1; 0]]
  | PZ => cells [[1; 1; 0]; [0; 1; 1]]
  end.

Definition COLORS (name : PieceName) : string :=
  match name with
  | PI => "#00FFFF"
  | PO => "#FFFF00"
  | PT => "#AA00FF"
  | PL => "#FF8C00"
  | PJ => "#0000FF"
  | PS => "#00FF00"
  | PZ => "#FF0000"
  end.

(** [Object.keys(PIECES)] *)
Definition PIECE_KEYS : list PieceName := [PI; PO; PT; PL; PJ; PS; PZ].

Record Piece : Type := mkPiece {
  shape : Shape;
  color : string;
  name : PieceName
}.

Record Position : Type := mkPosition {
  x : Z;
  y : Z;
  rotation : Z
}.

(** ** SRS wall-kick data *)

Definition commonKicks : list (Z * Z) :=
  [(0, 0); (-1, 0); (-1, 1); (0, -2); (-1, -2)].

Definition commonKicksAnti : list (Z * Z) :=
  [(0, 0); (1, 0); (1, 1); (0, -2); (1, -2)].

Definition kicksI : gmap string (list (Z * Z)) :=
  list_to_map [
    ("0>1", [(0,0); (-2,0); (1,0); (-2,-1); (1,2)]);
    ("1>0", [(0,0); (2,0); (-1,0); (2,1); (-1,-2)]);
    ("1>2", [(0,0); (-1,0); (2,0); (-1,2); (2,-1)]);
    ("2>1", [(0,0); (1,0); (-2,0); (1,-2); (-2,1)]);
    ("2>3", [(0,0); (2,0); (-1,0); (2,1); (-1,-2)]);
    ("3>2", [(0,0); (-2,0); (1,0); (-2,-1); (1,2)]);
    ("3>0", [(0,0); (1,0); (-2,0); (1,-2); (-2,1)]);
    ("0>3", [(0,0); (-1,0); (2,0); (-1,2); (2,-1)])
  ]%string.

Definition kicksCommon : gmap string (list (Z * Z)) :=
  list_to_map [
    ("0>1", commonKicks); ("1>2", commonKicks);
    ("2>3", commonKicks); ("3>0", commonKicks);
    ("1>0", commonKicksAnti); ("2>1", commonKicksAnti);
    ("3>2", commonKicksAnti); ("0>3", commonKicksAnti)
  ]%string.

Definition WALL_KICKS (name : PieceName) : gmap string (list (Z * Z)) :=
  match name with
  | PI => kicksI
  | PJ | PL | PS | PT | PZ => kicksCommon
  | PO => ∅
  end.

(** ** rotateMatrix *)

(** The parameter type [1 | -1]. *)
Inductive Dir : Type := Cw | Ccw.

Definition dirZ (d : Dir) : Z :=
  match d with
  | Cw => 1
  | Ccw => -1
  end.

(** [row[i]] on a row of numbers. *)
Definition rowGet (row : list num) (i : nat) : num :=
  default NUndef (row !! i).

(** [matrix[0].length] raises when the matrix has no row. *)
Definition rotateMatrix (matrix : Shape) (dir : Dir) : res Shape :=
  match matrix with
  | [] => TypeError
  | row0 :: _ =>
      let numCols := length row0 in
      match dir with
      | Cw =>
          Ret (imap (fun i _ => reverse ((fun row => rowGet row i) <$> matrix))
                 row0)
      | Ccw =>
          Ret (reverse
                 (imap (fun i _ =>
                          (fun row => rowGet row (numCols - 1 - i)%nat)
                            <$> matrix)
                       row0))
      end
  end.


(** ** Array helpers

    [Array.prototype.some] and [forEach] with the [(element, index)]
    callback; [some] stops at the first [true], and an exception raised by
    the callback propagates. *)

Fixpoint array_some {A} (f : A -> nat -> res bool) (l : list A) (i : nat)
  : res bool :=
  match l with
  | [] => Ret false
  | a :: l' =>
      match f a i with
      | Ret true => Ret true
      | Ret false => array_some f l' (S i)
      | TypeError => TypeError
      | OutOfFuel => OutOfFuel
      end
  end.

Fixpoint array_forEach {A St} (f : A -> nat -> St -> res St) (l : list A)
  (i : nat) (st : St) : res St :=
  match l with
  | [] => Ret st
  | a :: l' =>
      match f a i st with
      | Ret st' => array_forEach f l' (S i) st'
      | TypeError => TypeError
      | OutOfFuel => OutOfFuel
      end
  end.

(** [a[i] = v]: an assignment past the end extends the array, the skipped
    slots reading as [undefined]. *)
Definition array_store {A} (undef : A) (l : list A) (i : nat) (v : A)
  : list A :=
  if decide (i < length l)%nat then <[i := v]> l
  else l ++ replicate (i - length l) undef ++ [v].

(** ** Board *)

(** A board cell is [string | null]; [CUndef] is an out-of-range read. *)
Inductive cell : Type :=
  | Null
  | Color (c : string)
  | CUndef.

#[global] Instance cell_eq_dec : EqDecision cell.
Proof. solve_decision. Defined.

(** [cell !== null] *)
Definition notNull (c : cell) : bool :=
  match c with
  | Null => false
  | _ => true
  end.

Abbreviation Board := (list (list cell)).

Definition emptyRow : list cell := replicate (Z.to_nat BOARD_WIDTH) Null.

Definition createEmptyBoard : Board :=
  replicate (Z.to_nat BOARD_HEIGHT) emptyRow.

(** [board[ny][nx] !== null] *)
Definition boardNotNull (board : Board) (ny nx : Z) : res bool :=
  match board !! Z.to_nat ny with
  | None => TypeError
  | Some row => Ret (notNull (default CUndef (row !! Z.to_nat nx)))
  end.

Definition collision (board : Board) (shape : Shape) (px py : Z) : res bool :=
  array_some (fun row dy =>
    array_some (fun c dx =>
      if negb (truthy c) then Ret false
      else
        let nx := px + Z.of_nat dx in
        let ny := py + Z.of_nat dy in
        if (nx <? 0) || (nx >=? BOARD_WIDTH) || (ny >=? BOARD_HEIGHT)
        then Ret true
        else if ny >=? 0 then boardNotNull board ny nx
        else Ret false) row 0%nat) shape 0%nat.

(** [newBoard[ny][nx] = color] *)
Definition boardStore (b : Board) (ny nx : Z) (v : cell) : res Board :=
  match b !! Z.to_nat ny with
  | None => TypeError
  | Some row =>
      Ret (<[Z.to_nat ny := array_store CUndef row (Z.to_nat nx) v]> b)
  end.

(** [mergePiece(shape, px, py, color, baseBoard?)]; [board] is the state the
    callback closed over.  The row copies of [.map((row) => [...row])] are
    values here; the store of rows and their sharing is modelled separately
    below ([Rows.mergePiece]). *)
Definition mergePiece (board : Board) (shape : Shape) (px py : Z)
  (color : string) (baseBoard : option Board) : res Board :=
  let newBoard := default board baseBoard in
  array_forEach (fun row dy nb =>
    array_forEach (fun c dx nb =>
      if truthy c then
        let ny := py + Z.of_nat dy in
        let nx := px + Z.of_nat dx in
        if (ny >=? 0) && (ny <? BOARD_HEIGHT) && (nx >=? 0) && (nx <? BOARD_WIDTH)
        then boardStore nb ny nx (Color color)
        else Ret nb
      else Ret nb) row 0%nat nb) shape 0%nat newBoard.

(** ** Engine state *)

Record State : Type := mkState {
  board : Board;
  currentPiece : Piece;
  pos : Position;
  nextPiece : Piece;
  holdPiece : option Piece;
  holdUsed : bool;
  gameOver : bool;
  score : Z;
  linesCleared : Z;
  timeElapsed : Z;
  dropSpeed : Z;
  flashLines : list nat;
  (** [pieceBag.current] *)
  pieceBag : list PieceName;
  (** number of [Math.random()] calls made so far *)
  randomCalls : nat;
  (** pending [setTimeout] callbacks of [clearLines], oldest first: the
      captured [clearedRows.length] and [newBoard] *)
  timeouts : list (nat * Board)
}.

Definition setBoard (v : Board) (s : State) : State :=
  mkState v (currentPiece s) (pos s) (nextPiece s) (holdPiece s) (holdUsed s)
    (gameOver s) (score s) (linesCleared s) (timeElapsed s) (dropSpeed s)
    (flashLines s) (pieceBag s) (randomCalls s) (timeouts s).

Definition setCurrentPiece (v : Piece) (s : State) : State :=
  mkState (board s) v (pos s) (nextPiece s) (holdPiece s) (holdUsed s)
    (gameOver s) (score s) (linesCleared s) (timeElapsed s) (dropSpeed s)
    (flashLines s) (pieceBag s) (randomCalls s) (timeouts s).

Definition setPos (v : Position) (s : State) : State :=
  mkState (board s) (currentPiece s) v (nextPiece s) (holdPiece s) (holdUsed s)
    (gameOver s) (score s) (linesCleared s) (timeElapsed s) (dropSpeed s)
    (flashLines s) (pieceBag s) (randomCalls s) (timeouts s).

Definition setNextPiece (v : Piece) (s : State) : State :=
  mkState (board s) (currentPiece s) (pos s) v (holdPiece s) (holdUsed s)
    (gameOver s) (score s) (linesCleared s) (timeElapsed s) (dropSpeed s)
    (flashLines s) (pieceBag s) (randomCalls s) (timeouts s).

Definition setHoldPiece (v : option Piece) (s : State) : State :=
  mkState (board s) (currentPiece s) (pos s) (nextPiece s) v (holdUsed s)
    (gameOver s) (score s) (linesCleared s) (timeElapsed s) (dropSpeed s)
    (flashLines s) (pieceBag s) (randomCalls s) (timeouts s).

Definition setHoldUsed (v : bool) (s : State) : State :=
  mkState (board s) (currentPiece s) (pos s) (nextPiece s) (holdPiece s) v
    (gameOver s) (score s) (linesCleared s) (timeElapsed s) (dropSpeed s)
    (flashLines s) (pieceBag s) (randomCalls s) (timeouts s).

Definition setGameOver (v : bool) (s : State) : State :=
  mkState (board s) (currentPiece s) (pos s) (nextPiece s) (holdPiece s)
    (holdUsed s) v (score s) (linesCleared s) (timeElapsed s) (dropSpeed s)
    (flashLines s) (pieceBag s) (randomCalls s) (timeouts s).

Definition setScore (v : Z) (s : State) : State :=
  mkState (board s) (currentPiece s) (pos s) (nextPiece s) (holdPiece s)
    (holdUsed s) (gameOver s) v (linesCleared s) (timeElapsed s) (dropSpeed s)
    (flashLines s) (pieceBag s) (randomCalls s) (timeouts s).

Definition setLinesCleared (v : Z) (s : State) : State :=
  mkState (board s) (currentPiece s) (pos s) (nextPiece s) (holdPiece s)
    (holdUsed s) (gameOver s) (score s) v (timeElapsed s) (dropSpeed s)
    (flashLines s) (pieceBag s) (randomCalls s) (timeouts s).

Definition setTimeElapsed (v : Z) (s : State) : State :=
  mkState (board s) (currentPiece s) (pos s) (nextPiece s) (holdPiece s)
    (holdUsed s) (gameOver s) (score s) (linesCleared s) v (dropSpeed s)
    (flashLines s) (pieceBag s) (randomCalls s) (timeouts s).

Definition setDropSpeed (v : Z) (s : State) : State :=
  mkState (board s) (currentPiece s) (pos s) (nextPiece s) (holdPiece s)
    (holdUsed s) (gameOver s) (score s) (linesCleared s) (timeElapsed s) v
    (flashLines s) (pieceBag s) (randomCalls s) (timeouts s).

Definition setFlashLines (v : list nat) (s : State) : State :=
  mkState (board s) (currentPiece s) (pos s) (nextPiece s) (holdPiece s)
    (holdUsed s) (gameOver s) (score s) (linesCleared s) (timeElapsed s)
    (dropSpeed s) v (pieceBag s) (randomCalls s) (timeouts s).

Definition setPieceBag (v : list PieceName) (s : State) : State :=
  mkState (board s) (currentPiece s) (pos s) (nextPiece s) (holdPiece s)
    (holdUsed s) (gameOver s) (score s) (linesCleared s) (timeElapsed s)
    (dropSpeed s) (flashLines s) v (randomCalls s) (timeouts s).

Definition setRandomCalls (v : nat) (s : State) : State :=
  mkState (board s) (currentPiece s) (pos s) (nextPiece s) (holdPiece s)
    (holdUsed s) (gameOver s) (score s) (linesCleared s) (timeElapsed s)
    (dropSpeed s) (flashLines s) (pieceBag s) v (timeouts s).

Definition setTimeouts (v : list (nat * Board)) (s : State) : State :=
  mkState (board s) (currentPiece s) (pos s) (nextPiece s) (holdPiece s)
    (holdUsed s) (gameOver s) (score s) (linesCleared s) (timeElapsed s)
    (dropSpeed s) (flashLines s) (pieceBag s) (randomCalls s) v.

(** ** clearLines *)

(** [row.every((cell) => cell !== null)] *)
Definition rowFull (row : list cell) : bool := forallb notNull row.

(** The [b.forEach] of [clearLines], pushing onto [newBoard] and
    [clearedRows]. *)
Fixpoint scanRows (b : Board) (idx : nat) (newBoard : Board)
  (clearedRows : list nat) : Board * list nat :=
  match b with
  | [] => (newBoard, clearedRows)
  | row :: rest =>
      if rowFull row then scanRows rest (S idx) newBoard (clearedRows ++ [idx])
      else scanRows rest (S idx) (newBoard ++ [row]) clearedRows
  end.

(** The board the delayed callback of [clearLines] installs. *)
Definition compacted (n : nat) (newBoard : Board) : Board :=
  replicate n emptyRow ++ newBoard.

(** [clearLines(b)], applied to the updates [acc] batched so far. *)
Definition clearLines (b : Board) (acc : State) : State :=
  let '(newBoard, clearedRows) := scanRows b 0 [] [] in
  if (0 <? length clearedRows)%nat then
    let n := Z.of_nat (length clearedRows) in
    let acc := setFlashLines clearedRows acc in
    let acc := setScore (score acc + n * 100) acc in
    let prev := linesCleared acc in
    let newLinesCleared := prev + n in
    let acc :=
      if newLinesCleared / 10 >? prev / 10
      then setDropSpeed (Z.max 100 (dropSpeed acc - 100)) acc
      else acc in
    let acc := setLinesCleared newLinesCleared acc in
    setTimeouts (timeouts acc ++ [(length clearedRows, newBoard)]) acc
  else setBoard b acc.

(** The callback queued by [clearLines] runs (150 ms later). *)
Definition fireTimeout (s : State) : State :=
  match timeouts s with
  | [] => s
  | (n, newBoard) :: rest =>
      setFlashLines [] (setBoard (compacted n newBoard) (setTimeouts rest s))
  end.

(** ** Numbers

    [Math.random() * (i + 1)] multiplies two doubles: the exact product is
    rounded to the nearest double, ties to even.  Doubles are rationals
    here; only non-negative values below the overflow threshold occur. *)

(** The binary exponent of a positive rational: [2^e <= q < 2^(e+1)]. *)
Definition ilog2 (q : Q) : Z :=
  if Qle_bool 1 q then Z.log2 (Qfloor q) else - Z.log2_up (Qceiling (/ q)).

(** The spacing of the doubles around [q]: 53 significant bits, and
    [2^-1074] below the smallest normal number [2^-1022]. *)
Definition ulp (q : Q) : Q := (2 ^ (Z.max (ilog2 q) (-1022) - 52))%Q.

(** The nearest integer, ties to even. *)
Definition roundHalfEven (x : Q) : Z :=
  let f := Qfloor x in
  match (x - inject_Z f ?= 1 # 2)%Q with
  | Lt => f
  | Gt => f + 1
  | Eq => if Z.even f then f else f + 1
  end.

(** The double nearest to [q], the result of a Number operation whose
    exact result is [q]. *)
Definition nearestDouble (q : Q) : Q :=
  if Qle_bool q 0 then 0%Q
  else (inject_Z (roundHalfEven (q / ulp q)) * ulp q)%Q.

(** The largest double that is not above [q]. *)
Definition doubleBelow (q : Q) : Q :=
  if Qle_bool q 0 then 0%Q
  else (inject_Z (Qfloor (q / ulp q)) * ulp q)%Q.

(** ** The hook's operations *)

Definition spawnPos : Position := mkPosition 3 0 0.

Section Engine.

(** The source of randomness: the [k]-th call of [Math.random()] returns
    the double at or just below [random k] (so [random k] itself when it is
    a double). *)
Variable random : nat -> Q.

Definition Math_random (k : nat) : Q := doubleBelow (random k).

(** [[pieces[i], pieces[j]] = [pieces[j], pieces[i]]].  Both indices are
    inside the array, since the index drawn is at most [i]; for any other
    index the list is left as it is. *)
Definition swap (i j : nat) (pieces : list PieceName) : list PieceName :=
  match pieces !! j, pieces !! i with
  | Some pj, Some pi => <[j := pi]> (<[i := pj]> pieces)
  | _, _ => pieces
  end.

(** [Math.floor(Math.random() * (i + 1))] for the [k]-th call. *)
Definition randomIndex (k i : nat) : nat :=
  Z.to_nat
    (Qfloor (nearestDouble (Math_random k * inject_Z (Z.of_nat i + 1)))).

(** [for (let i = ...; i > 0; i--)], entered with loop variable [i] after
    [k] calls of [Math.random()]. *)
Fixpoint shuffle (i : nat) (pieces : list PieceName) (k : nat)
  : list PieceName * nat :=
  match i with
  | O => (pieces, k)
  | S i' => shuffle i' (swap i (randomIndex k i) pieces) (S k)
  end.

(** [pieceBag.current.pop()!] with the [PIECES[name]], [COLORS[name]]
    lookups.  The bag is refilled before the pop when it is empty, so the
    pop finds an element. *)
Definition getNextPiece (s : State) : Piece * State :=
  let s :=
    match pieceBag s with
    | [] =>
        let '(pieces, k) :=
          shuffle (length PIECE_KEYS - 1) PIECE_KEYS (randomCalls s) in
        setRandomCalls k (setPieceBag pieces s)
    | _ => s
    end in
  match reverse (pieceBag s) with
  | [] => (mkPiece (PIECES PI) (COLORS PI) PI, s)
  | name :: rest =>
      (mkPiece (PIECES name) (COLORS name) name,
       setPieceBag (reverse rest) s)
  end.

Definition tick (s : State) : res State :=
  c ← collision (board s) (shape (currentPiece s)) (x (pos s)) (y (pos s) + 1);
  if c : bool then
    newBoard ← mergePiece (board s) (shape (currentPiece s)) (x (pos s))
                 (y (pos s)) (color (currentPiece s)) None;
    let acc := clearLines newBoard s in
    let acc := setHoldUsed false acc in
    g ← collision (board s) (shape (nextPiece s)) 3 0;
    if g : bool then Ret (setGameOver true acc)
    else
      let acc := setCurrentPiece (nextPiece s) acc in
      let acc := setPos spawnPos acc in
      let '(p, acc) := getNextPiece acc in
      Ret (setNextPiece p acc)
  else
    Ret (setPos (mkPosition (x (pos s)) (y (pos s) + 1) (rotation (pos s))) s).

Definition move (dx : Z) (s : State) : res State :=
  if gameOver s then Ret s
  else
    c ← collision (board s) (shape (currentPiece s)) (x (pos s) + dx) (y (pos s));
    if c : bool then Ret s
    else Ret (setPos (mkPosition (x (pos s) + dx) (y (pos s)) (rotation (pos s))) s).

(** The [for (const [kx, ky] of kicks)] loop of [rotate]. *)
Fixpoint tryKicks (kicks : list (Z * Z)) (rotatedShape : Shape) (to : Z)
  (s : State) : res State :=
  match kicks with
  | [] => Ret s
  | (kx, ky) :: rest =>
      let nx := x (pos s) + kx in
      let ny := y (pos s) - ky in
      c ← collision (board s) rotatedShape nx ny;
      if c : bool then tryKicks rest rotatedShape to s
      else
        Ret (setPos (mkPosition nx ny to)
               (setCurrentPiece
                  (mkPiece rotatedShape (color (currentPiece s))
                     (name (currentPiece s))) s))
  end.

(** The template literal [`${from}>${to}`]. *)
Definition kickKey (from to : Z) : string :=
  (pretty from +:+ ">" +:+ pretty to)%string.

Definition rotate (dir : Dir) (s : State) : res State :=
  if gameOver s then Ret s
  else if decide (name (currentPiece s) = PO) then Ret s
  else
    rotatedShape ← rotateMatrix (shape (currentPiece s)) dir;
    let from := rotation (pos s) in
    let to := Z.rem (from + dirZ dir + 4) 4 in
    let key := kickKey from to in
    let kicks := default [(0, 0)] (WALL_KICKS (name (currentPiece s)) !! key) in
    tryKicks kicks rotatedShape to s.

Definition hold (s : State) : State :=
  if gameOver s || holdUsed s then s
  else
    let canonical :=
      mkPiece (PIECES (name (currentPiece s))) (color (currentPiece s))
        (name (currentPiece s)) in
    let acc :=
      match holdPiece s with
      | None =>
          let acc := setHoldPiece (Some canonical) s in
          let acc := setCurrentPiece (nextPiece s) acc in
          let '(p, acc) := getNextPiece acc in
          setNextPiece p acc
      | Some held =>
          let acc := setCurrentPiece held s in
          setHoldPiece (Some canonical) acc
      end in
    setHoldUsed true (setPos spawnPos acc).

Definition restart (s : State) : State :=
  let acc := setPieceBag [] s in
  let acc := setBoard createEmptyBoard acc in
  let '(p, acc) := getNextPiece acc in
  let acc := setCurrentPiece p acc in
  let '(p, acc) := getNextPiece acc in
  let acc := setNextPiece p acc in
  let acc := setHoldPiece None acc in
  let acc := setPos spawnPos acc in
  let acc := setScore 0 acc in
  let acc := setLinesCleared 0 acc in
  let acc := setTimeElapsed 0 acc in
  let acc := setDropSpeed 1000 acc in
  let acc := setGameOver false acc in
  let acc := setHoldUsed false acc in
  setFlashLines [] acc.

(** [while (!collision(shape, x, y + 1)) y++], with a budget of
    iterations; [OutOfFuel] when the budget does not suffice. *)
Fixpoint descend (fuel : nat) (board : Board) (shape : Shape) (px y : Z)
  : res Z :=
  match fuel with
  | O => OutOfFuel
  | S fuel' =>
      c ← collision board shape px (y + 1);
      if c : bool then Ret y else descend fuel' board shape px (y + 1)
  end.

Definition ghostY (fuel : nat) (s : State) : res Z :=
  descend fuel (board s) (shape (currentPiece s)) (x (pos s)) (y (pos s)).

Definition hardDrop (fuel : nat) (s : State) : res State :=
  if gameOver s then Ret s
  else
    dropY ← ghostY fuel s;
    newBoard ← mergePiece (board s) (shape (currentPiece s)) (x (pos s))
                 dropY (color (currentPiece s)) None;
    let acc := clearLines newBoard s in
    let acc := setHoldUsed false acc in
    g ← collision (board s) (shape (nextPiece s)) 3 0;
    if g : bool then Ret (setGameOver true acc)
    else
      let acc := setCurrentPiece (nextPiece s) acc in
      let '(p, acc) := getNextPiece acc in
      let acc := setNextPiece p acc in
      Ret (setPos spawnPos acc).

(** [gameLoop], the callback of the fall timer: [tick()], after which the
    timer is armed again with [intervalDuration].  Neither [gameLoop] nor
    [tick] looks at [gameOver]; only the effect that arms the timer does. *)
Definition gameLoop (s : State) : res State := tick s.

(** The state of the first render: an empty board and two draws. *)
Definition initialState : State :=
  let s0 :=
    mkState createEmptyBoard (mkPiece [] "" PI) spawnPos (mkPiece [] "" PI)
      None false false 0 0 0 1000 [] [] 0 [] in
  let '(p, s1) := getNextPiece s0 in
  let s1 := setCurrentPiece p s1 in
  let '(p, s2) := getNextPiece s1 in
  setNextPiece p s2.

End Engine.

(** ** The rows of a board as shared arrays

    A JavaScript board is an array of references to row arrays, and
    [newBoard[ny][nx] = color] updates a row in place.  This module keeps
    the rows in a heap, so that the copy made by [.map((row) => [...row])]
    and the absence of writes to the caller's rows are statements about the
    heap. *)
Module Rows.

(** The heap of row arrays, by address. *)
Abbreviation heap := (gmap nat (list cell)).

(** [refs] denotes board [b] in heap [h]. *)
Definition derefs (h : heap) (refs : list nat) (b : Board) : Prop :=
  Forall2 (fun l row => h !! l = Some row) refs b.

(** [[...row]]: a new array with the elements of [row]. *)
Definition spread (h : heap) (row : list cell) : nat * heap :=
  let l := fresh (dom h) in (l, <[l := row]> h).

(** [base.map((row) => [...row])] *)
Fixpoint copyRows (h : heap) (refs : list nat) : res (list nat * heap) :=
  match refs with
  | [] => Ret ([], h)
  | l :: rest =>
      match h !! l with
      | None => TypeError
      | Some row =>
          let '(l', h1) := spread h row in
          '(ls, h2) ← copyRows h1 rest;
          Ret (l' :: ls, h2)
      end
  end.

(** [newBoard[ny][nx] = v] *)
Definition boardStore (h : heap) (newBoard : list nat) (ny nx : Z) (v : cell)
  : res heap :=
  match newBoard !! Z.to_nat ny with
  | None => TypeError
  | Some l =>
      match h !! l with
      | None => TypeError
      | Some row => Ret (<[l := array_store CUndef row (Z.to_nat nx) v]> h)
      end
  end.

Definition mergePiece (h : heap) (board : list nat) (shape : Shape)
  (px py : Z) (color : string) (baseBoard : option (list nat))
  : res (list nat * heap) :=
  '(newBoard, h) ← copyRows h (default board baseBoard);
  h ← array_forEach (fun row dy h =>
         array_forEach (fun c dx h =>
           if truthy c then
             let ny := py + Z.of_nat dy in
             let nx := px + Z.of_nat dx in
             if (ny >=? 0) && (ny <? BOARD_HEIGHT) && (nx >=? 0)
                && (nx <? BOARD_WIDTH)
             then boardStore h newBoard ny nx (Color color)
             else Ret h
           else Ret h) row 0%nat h) shape 0%nat h;
  Ret (newBoard, h).

End Rows.

(** * Vocabulary of the statements *)

(** A board as the data model has it: 20 rows of 10 cells. *)
Definition wfBoard (b : Board) : Prop :=
  length b = Z.to_nat BOARD_HEIGHT /\
  Forall (fun row => length row = Z.to_nat BOARD_WIDTH) b.

(** The shape has a set (truthy) cell at local offset [(dx, dy)]. *)
Definition setCell (sh : Shape) (dy dx : nat) : Prop :=
  exists row c, sh !! dy = Some row /\ row !! dx = Some c /\ truthy c = true.

(** Board cell [(ny, nx)] exists and is not [null]. *)
Definition occupied (b : Board) (ny nx : Z) : Prop :=
  exists row c,
    b !! Z.to_nat ny = Some row /\ row !! Z.to_nat nx = Some c /\ c <> Null.

(** The verdict of the callback of [collision] on one cell of the shape, on
    a board whose rows all exist. *)
Definition cellHits (b : Board) (px py : Z) (dy dx : nat) (c : num) : bool :=
  truthy c &&
  let nx := px + Z.of_nat dx in
  let ny := py + Z.of_nat dy in
  ((nx <? 0) || (nx >=? BOARD_WIDTH) || (ny >=? BOARD_HEIGHT)
   || ((ny >=? 0) &&
       match b !! Z.to_nat ny with
       | Some row => notNull (default CUndef (row !! Z.to_nat nx))
       | None => false
       end)).

(** [board[ny][nx]] as a lookup. *)
Definition cellAt (b : Board) (ny nx : nat) : option cell :=
  row ← b !! ny; row !! nx.

(** Some set cell of the shape, anchored at [(px, py)], lands on board cell
    [(ny, nx)]. *)
Definition covers (sh : Shape) (px py : Z) (ny nx : nat) : Prop :=
  exists dy dx, setCell sh dy dx /\
    py + Z.of_nat dy = Z.of_nat ny /\ px + Z.of_nat dx = Z.of_nat nx.

(** What [mergePiece] promises about its result [b'] for base board [b]. *)
Definition mergeInv (b : Board) (color : string) (P : nat -> nat -> Prop)
  (b' : Board) : Prop :=
  wfBoard b' /\
  (forall ny nx, (ny < 20)%nat -> (nx < 10)%nat -> P ny nx ->
     cellAt b' ny nx = Some (Color color)) /\
  (forall ny nx, ~ P ny nx -> cellAt b' ny nx = cellAt b ny nx).

(** Set cells visited by the two nested [forEach] loops before reaching
    row [k], column [j]. *)
Definition visited (sh : Shape) (px py : Z) (k j : nat) (ny nx : nat) : Prop :=
  exists dy dx, setCell sh dy dx /\
    ((dy < k)%nat \/ (dy = k /\ (dx < j)%nat)) /\
    py + Z.of_nat dy = Z.of_nat ny /\ px + Z.of_nat dx = Z.of_nat nx.

(** Indices of the full rows of [b], top to bottom, counting from [idx]. *)
Fixpoint fullFrom (b : Board) (idx : nat) : list nat :=
  match b with
  | [] => []
  | row :: rest =>
      if rowFull row then idx :: fullFrom rest (S idx)
      else fullFrom rest (S idx)
  end.

(** The rows that are not full, in board order. *)
Definition survivors (b : Board) : Board :=
  filter (fun row => rowFull row = false) b.

(** A proper [rows] x [cols] matrix. *)
Definition rect (rows cols : nat) (m : Shape) : Prop :=
  length m = rows /\ Forall (fun row => length row = cols) m.

(** [m[i][j]] as a lookup. *)
Definition numAt (m : Shape) (i j : nat) : option num :=
  row ← m !! i; row !! j.

(** [n] consecutive calls of [getNextPiece], with the names drawn. *)
Fixpoint drawN (random : nat -> Q) (n : nat) (s : State)
  : list PieceName * State :=
  match n with
  | O => ([], s)
  | S n' =>
      let '(p, s1) := getNextPiece random s in
      let '(ps, s2) := drawN random n' s1 in
      (name p :: ps, s2)
  end.

(** The state right after the refill performed by a draw on an empty bag. *)
Definition refilled (random : nat -> Q) (s : State) : State :=
  setRandomCalls (randomCalls s + 6)
    (setPieceBag (shuffle random 6 PIECE_KEYS (randomCalls s)).1 s).

(** The state [rotate] commits for kick [(kx, ky)]. *)
Definition rotatedTo (rotatedShape : Shape) (kx ky to : Z) (s : State) : State :=
  setPos (mkPosition (x (pos s) + kx) (y (pos s) - ky) to)
    (setCurrentPiece
       (mkPiece rotatedShape (color (currentPiece s)) (name (currentPiece s)))
       s).

(** [n] consecutive runs of [tick]. *)
Fixpoint ticks (random : nat -> Q) (n : nat) (s : State) : res State :=
  match n with
  | O => Ret s
  | S n' => s' ← tick random s; ticks random n' s'
  end.

(** [n] consecutive calls of [hardDrop], each with loop budget [fuel]. *)
Fixpoint hardDrops (random : nat -> Q) (fuel n : nat) (s : State) : res State :=
  match n with
  | O => Ret s
  | S n' => s' ← hardDrop random fuel s; hardDrops random fuel n' s'
  end.

(** The state with the live piece moved to row [y']. *)
Definition droppedTo (y' : Z) (s : State) : State :=
  setPos (mkPosition (x (pos s)) y' (rotation (pos s))) s.

(** The state [s] agrees with [s'] on everything but the position. *)
Definition sameButPos (s s' : State) : Prop := setPos (pos s') s = s'.

(** ** Concrete scenarios *)

(** A sample run of [Math.random()]: the doubles [(9 m + 1) / 64], one in
    each seventh [[m/7, (m+1)/7)] of the range. *)
Definition sampleRandom (k : nat) : Q :=
  Z.of_nat (9 * ((k * 5 + 3) mod 7) + 1) # 64.

Definition pieceOf (nm : PieceName) : Piece :=
  mkPiece (PIECES nm) (COLORS nm) nm.

(** A stack of O pieces under the spawn columns, reaching row 2. *)
Definition towerRow : list cell :=
  [Null; Null; Null; Color "#FFFF00"; Color "#FFFF00";
   Null; Null; Null; Null; Null].

Definition towerBoard : Board :=
  replicate 2 emptyRow ++ replicate 18 towerRow.

(** An O piece has just spawned on top of the tower; a T piece is next. *)
Definition lockAtTop : State :=
  mkState towerBoard (pieceOf PO) spawnPos (pieceOf PT) None false false
    0 0 0 1000 [] [PI; PS] 0 [].

(** The board after that O piece has locked where it spawned. *)
Definition lockedTop : Board :=
  replicate 2 towerRow ++ replicate 18 towerRow.

(** A board whose bottom row is full. *)
Definition fullBottom : Board :=
  replicate 19 emptyRow ++ [replicate 10 (Color "#FF0000")].

(** An L piece at the spawn anchor on top of the tower: rotating it
    clockwise in place, or one column to the left, runs into the tower. *)
Definition kickScene : State := setCurrentPiece (pieceOf PL) lockAtTop.

(** The game after ten hard drops from the first render, each piece dropped
    where it spawned ([sampleRandom] as the random source). *)
Definition stacked : State :=
  Eval vm_compute in
    match hardDrops sampleRandom 40 10 (initialState sampleRandom) with
    | Ret s => s
    | _ => initialState sampleRandom
    end.

(** A finished game. *)
Definition finished : State :=
  mkState lockedTop (pieceOf PO) spawnPos (pieceOf PT) None false true
    0 0 0 1000 [] [PI; PS] 0 [].

(** * The rest of the hook, its timers and its caller *)

(** ** Timers *)

(** One firing of the one-second interval:
    [setTimeElapsed((prev) => prev + 1)]. *)
Definition secondTimer (s : State) : State :=
  setTimeElapsed (timeElapsed s + 1) s.

(** [softDropRef.current ? 50 : dropSpeed], the delay [gameLoop] re-arms
    itself with. *)
Definition intervalDuration (softDrop : bool) (s : State) : Z :=
  if softDrop then 50 else dropSpeed s.

(** ** Lifetime statistics *)

Record LifetimeStats : Type := mkStats {
  highScore : Z;
  totalLinesCleared : Z;
  totalGamesPlayed : Z;
  totalTime : Z
}.

(** [handleGameOver]: [loaded] is what [loadLifetimeStats()] resolved to
    ([None] for [null]); the result is what is handed to
    [saveLifetimeStats], if anything. *)
Definition handleGameOver (loaded : option LifetimeStats) (s : State)
  : option LifetimeStats :=
  if gameOver s then
    let currentStats := default (mkStats 0 0 0 0) loaded in
    Some (mkStats (Z.max (highScore currentStats) (score s))
            (totalLinesCleared currentStats + linesCleared s)
            (totalGamesPlayed currentStats + 1)
            (totalTime currentStats + timeElapsed s))
  else None.

(** The storage cell across a series of finished games, each save being
    what the next load returns. *)
Fixpoint recordGames (stored : option LifetimeStats) (games : list State)
  : option LifetimeStats :=
  match games with
  | [] => stored
  | s :: rest =>
      match handleGameOver stored s with
      | Some newStats => recordGames (Some newStats) rest
      | None => recordGames stored rest
      end
  end.

(** ** The board cells drawn by [GameScreen] *)

(** [!color] for a [string | null] value. *)
Definition falsy (c : cell) : bool :=
  match c with
  | Color str => bool_decide (str = ""%string)
  | _ => true
  end.

(** The callback of [row.map((cell, x) => ...)] inside
    [board.map((row, y) => ...)]: the background colour and the border
    colour of board cell [(cy, cx)], [color] starting as the cell [c]. *)
Definition cellView (fuel : nat) (s : State) (cy cx : nat) (c : cell)
  : res (cell * string) :=
  ghostDropY ← ghostY fuel s;
  bg ← array_forEach (fun r dy bg =>
    array_forEach (fun v dx bg =>
      if truthy v
         && (Z.of_nat cx =? x (pos s) + Z.of_nat dx)
         && (Z.of_nat cy =? ghostDropY + Z.of_nat dy)
      then
        if falsy bg
        then Ret (Color (color (currentPiece s) +:+ "55"))
        else Ret bg
      else Ret bg) r 0%nat bg) (shape (currentPiece s)) 0%nat c;
  '(bg, borderColor) ← array_forEach (fun r dy st =>
    array_forEach (fun v dx st =>
      if truthy v
         && (Z.of_nat cx =? x (pos s) + Z.of_nat dx)
         && (Z.of_nat cy =? y (pos s) + Z.of_nat dy)
      then Ret (Color (color (currentPiece s)), "#fff"%string)
      else Ret st) r 0%nat st) (shape (currentPiece s)) 0%nat
    (bg, "#333"%string);
  if bool_decide (cy ∈ flashLines s)
  then Ret (Color "#fff", "#fff"%string)
  else Ret (bg, borderColor).

(** ** Runs of the engine *)

(** One event: a call made by the screen, a timer firing or the delayed
    callback of [clearLines].  No order is imposed on the events, so a run
    covers every interleaving of the player and the timers. *)
Inductive step (random : nat -> Q) : State -> State -> Prop :=
  | step_move dx s s' : move dx s = Ret s' -> step random s s'
  | step_rotate dir s s' : rotate dir s = Ret s' -> step random s s'
  | step_hold s : step random s (hold random s)
  | step_hardDrop fuel s s' :
      hardDrop random fuel s = Ret s' -> step random s s'
  | step_gameLoop s s' : gameLoop random s = Ret s' -> step random s s'
  | step_timeout s : step random s (fireTimeout s)
  | step_second s : step random s (secondTimer s)
  | step_restart s : step random s (restart random s).

(** The states a game can be in: the first render followed by events. *)
Inductive reachable (random : nat -> Q) : State -> Prop :=
  | reach_init : reachable random (initialState random)
  | reach_step s s' :
      reachable random s -> step random s s' -> reachable random s'.

(** The live piece does not collide where it is. *)
Definition legal (s : State) : Prop :=
  collision (board s) (shape (currentPiece s)) (x (pos s)) (y (pos s))
    = Ret false.

(** A piece as [getNextPiece] builds it. *)
Definition canonical (p : Piece) : Prop :=
  shape p = PIECES (name p) /\ color p = COLORS (name p).

(** A proper non-empty matrix with a set cell. *)
Definition wfShape (sh : Shape) : Prop :=
  exists rows cols, (0 < rows)%nat /\ (0 < cols)%nat /\ rect rows cols sh /\
    exists dy dx, setCell sh dy dx.

(** No row of the board is full. *)
Definition noFullRow (b : Board) : Prop :=
  forall row, row ∈ b -> rowFull row = false.

(** What every state of a game satisfies. *)
Record Inv (s : State) : Prop := mkInv {
  inv_board : wfBoard (board s) /\ noFullRow (board s);
  inv_timeouts :
    Forall (fun t : nat * Board =>
              wfBoard (compacted t.1 t.2) /\ noFullRow (compacted t.1 t.2))
      (timeouts s);
  inv_current :
    wfShape (shape (currentPiece s)) /\
    color (currentPiece s) = COLORS (name (currentPiece s));
  inv_next : canonical (nextPiece s);
  inv_hold : forall p, holdPiece s = Some p -> canonical p;
  inv_rotation : 0 <= rotation (pos s) <= 3;
  inv_speed : 100 <= dropSpeed s <= 1000;
  inv_score : score s = 100 * linesCleared s /\ 0 <= linesCleared s;
  inv_time : 0 <= timeElapsed s;
  inv_bag : NoDup (pieceBag s)
}.

(** [Math.random()] keeps to its range [0, 1). *)
Definition validRandom (random : nat -> Q) : Prop :=
  forall k, (0 <= random k < 1)%Q.

(** The L piece of [kickScene] moved into free space, right of the tower. *)
Definition openScene : State := setPos (mkPosition 6 5 0) kickScene.

(** [kickScene] after a hold and a hard drop of the piece that came in. *)
Definition heldThenDropped : State :=
  Eval vm_compute in
    match hardDrop sampleRandom 40 (hold sampleRandom kickScene) with
    | Ret t => t
    | _ => kickScene
    end.

(** ** Scripted games *)

Inductive event : Type :=
  | EMove (dx : Z)
  | ERotate (dir : Dir)
  | EHold
  | EHardDrop (fuel : nat)
  | EFall
  | ECallback
  | ESecond
  | ERestart.

(** The event [e] happens in state [s]. *)
Definition fire (random : nat -> Q) (e : event) (s : State) : res State :=
  match e with
  | EMove dx => move dx s
  | ERotate dir => rotate dir s
  | EHold => Ret (hold random s)
  | EHardDrop fuel => hardDrop random fuel s
  | EFall => gameLoop random s
  | ECallback => Ret (fireTimeout s)
  | ESecond => Ret (secondTimer s)
  | ERestart => Ret (restart random s)
  end.

Fixpoint play (random : nat -> Q) (script : list event) (s : State)
  : res State :=
  match script with
  | [] => Ret s
  | e :: rest => s' ← fire random e s; play random rest s'
  end.

(** The first three pieces laid flat on the floor: L and J turned upside
    down against the two walls, I between them. *)
Definition fillBottomRow : list event :=
  [ERotate Cw; ERotate Cw; EMove (-1); EMove (-1); EMove (-1); EHardDrop 40;
   EHardDrop 40;
   ERotate Cw; ERotate Cw; EMove 1; EMove 1; EMove 1; EMove 1; EHardDrop 40].

(** The game right after [fillBottomRow]: the bottom row has just been
    completed, it is flashing, and the callback that will remove it is
    pending. *)
Definition rowCleared : State :=
  Eval vm_compute in
    match play sampleRandom fillBottomRow (initialState sampleRandom) with
    | Ret t => t
    | _ => initialState sampleRandom
    end.

(** From [stacked]: the L piece is locked at the top, two columns to the
    right of the spawn columns; the O piece that follows is moved two
    columns to the left, above an empty shaft, and hard-dropped. *)
Definition dropBesideStack : list event :=
  [EMove 1; EMove 1; EHardDrop 40; EMove (-1); EMove (-1); EHardDrop 40].

(** The game over that [dropBesideStack] ends in. *)
Definition overAfterDrop : State :=
  Eval vm_compute in
    match play sampleRandom dropBesideStack stacked with
    | Ret t => t
    | _ => stacked
    end.

(** A proper matrix of at most 4 rows and 4 columns. *)
Definition smallShape (sh : Shape) : Prop :=
  exists rows cols, rect rows cols sh /\ (rows <= 4)%nat /\ (cols <= 4)%nat.

(** * Properties *)

(** ** Well-formed boards and shapes *)

Lemma wfBoard_length b : wfBoard b -> length b = 20%nat.
Proof. intros [H _]. exact H. Qed.

Lemma wfBoard_row b i row :
  wfBoard b -> b !! i = Some row -> length row = 10%nat.
Proof.
  intros [_ H] Hi. rewrite Forall_lookup in H. exact (H i row Hi).
Qed.

Lemma wfBoard_lookup b ny :
  wfBoard b -> 0 <= ny < BOARD_HEIGHT -> exists row, b !! Z.to_nat ny = Some row.
Proof.
  intros Hwf Hny. apply lookup_lt_is_Some_2.
  rewrite (wfBoard_length b Hwf). unfold BOARD_HEIGHT in Hny. lia.
Qed.

Lemma wfBoard_empty : wfBoard createEmptyBoard.
Proof.
  split; [reflexivity|].
  unfold createEmptyBoard. apply Forall_replicate. reflexivity.
Qed.

(** ** [Array.prototype.some] over a callback that does not raise *)

Lemma array_some_ret {A} (f : A -> nat -> res bool) (P : A -> nat -> Prop)
  (l : list A) (i0 : nat) :
  (forall k a, l !! k = Some a ->
     exists r, f a (i0 + k)%nat = Ret r /\ (r = true <-> P a (i0 + k)%nat)) ->
  exists r, array_some f l i0 = Ret r /\
    (r = true <-> exists k a, l !! k = Some a /\ P a (i0 + k)%nat).
Proof.
  revert i0. induction l as [|a l IH]; intros i0 Hf.
  - exists false. split; [reflexivity|]. split; [discriminate|].
    intros (k & a & Hk & _). rewrite lookup_nil in Hk. discriminate.
  - simpl. destruct (Hf 0%nat a eq_refl) as (r0 & H0 & HP0).
    rewrite Nat.add_0_r in H0, HP0. rewrite H0.
    destruct r0.
    + exists true. split; [reflexivity|]. split; [|reflexivity].
      intros _. exists 0%nat, a. rewrite Nat.add_0_r. split; [reflexivity|].
      apply HP0. reflexivity.
    + destruct (IH (S i0)) as (r & Hr & Hiff).
      { intros k b Hk. specialize (Hf (S k) b Hk).
        replace (S i0 + k)%nat with (i0 + S k)%nat by lia. exact Hf. }
      exists r. split; [exact Hr|]. rewrite Hiff. split.
      * intros (k & b & Hk & Hgk). exists (S k), b. split; [exact Hk|].
        replace (i0 + S k)%nat with (S i0 + k)%nat by lia. exact Hgk.
      * intros (k & b & Hk & Hgk). destruct k as [|k].
        -- simpl in Hk. injection Hk as <-. rewrite Nat.add_0_r in Hgk.
           apply HP0 in Hgk. discriminate.
        -- exists k, b. split; [exact Hk|].
           replace (S i0 + k)%nat with (i0 + S k)%nat by lia. exact Hgk.
Qed.

(** ** Collision test *)

Lemma collision_cell_ret b px py dy dx c :
  wfBoard b ->
  (if negb (truthy c) then Ret false
   else
     let nx := px + Z.of_nat dx in
     let ny := py + Z.of_nat dy in
     if (nx <? 0) || (nx >=? BOARD_WIDTH) || (ny >=? BOARD_HEIGHT)
     then Ret true
     else if ny >=? 0 then boardNotNull b ny nx
     else Ret false) = Ret (cellHits b px py dy dx c).
Proof.
  intros Hwf. unfold cellHits. destruct (truthy c); simpl; [|reflexivity].
  destruct ((px + Z.of_nat dx <? 0) || (px + Z.of_nat dx >=? BOARD_WIDTH)
            || (py + Z.of_nat dy >=? BOARD_HEIGHT)) eqn:Hb; simpl; [reflexivity|].
  destruct (py + Z.of_nat dy >=? 0) eqn:Hy; simpl; [|reflexivity].
  destruct (wfBoard_lookup b (py + Z.of_nat dy) Hwf) as [row Hrow].
  { apply orb_false_elim in Hb as [_ Hb]. lia. }
  unfold boardNotNull. rewrite Hrow. reflexivity.
Qed.

Lemma cellHits_true b px py dy dx c :
  wfBoard b ->
  cellHits b px py dy dx c = true <->
  truthy c = true /\
  (px + Z.of_nat dx < 0 \/ px + Z.of_nat dx >= BOARD_WIDTH \/
   py + Z.of_nat dy >= BOARD_HEIGHT \/
   (0 <= py + Z.of_nat dy /\ occupied b (py + Z.of_nat dy) (px + Z.of_nat dx))).
Proof.
  intros Hwf. unfold cellHits.
  set (nx := px + Z.of_nat dx). set (ny := py + Z.of_nat dy). cbv zeta.
  rewrite andb_true_iff. apply and_iff_compat_l.
  rewrite !orb_true_iff, andb_true_iff, Z.ltb_lt, !Z.geb_le.
  split.
  - intros [[[H|H]|H]|[Hy0 H]]; [lia|lia|lia|].
    destruct (decide (nx < 0 \/ nx >= BOARD_WIDTH \/ ny >= BOARD_HEIGHT))
      as [Hout|Hin]; [tauto|].
    right; right; right. split; [lia|].
    destruct (wfBoard_lookup b ny Hwf) as [row Hrow]; [lia|].
    rewrite Hrow in H.
    assert (exists c', row !! Z.to_nat nx = Some c') as [c' Hc'].
    { apply lookup_lt_is_Some_2. rewrite (wfBoard_row b _ row Hwf Hrow).
      unfold BOARD_WIDTH in Hin. lia. }
    rewrite Hc' in H. simpl in H.
    exists row, c'. repeat split; auto. intros ->. discriminate.
  - intros [H|[H|[H|[Hy0 (row & c' & Hrow & Hc' & Hne)]]]]; [lia|lia|lia|].
    right. split; [lia|]. rewrite Hrow, Hc'. simpl.
    destruct c'; auto; congruence.
Qed.

(** On a well-formed board the collision test returns (it does not raise)
    and its verdict is [true] exactly when some set cell of the shape is
    outside the side walls, below the floor, or on an occupied cell of a
    visible row. *)
Lemma collision_ret b sh px py :
  wfBoard b ->
  exists r, collision b sh px py = Ret r /\
    (r = true <->
     exists dy dx, setCell sh dy dx /\
       (px + Z.of_nat dx < 0 \/ px + Z.of_nat dx >= BOARD_WIDTH \/
        py + Z.of_nat dy >= BOARD_HEIGHT \/
        (0 <= py + Z.of_nat dy /\
         occupied b (py + Z.of_nat dy) (px + Z.of_nat dx)))).
Proof.
  intros Hwf. unfold collision.
  match goal with
  | |- exists r, array_some ?f sh 0%nat = Ret r /\ _ =>
      destruct (array_some_ret f
        (fun row dy => exists dx c,
           row !! dx = Some c /\ cellHits b px py dy dx c = true) sh 0%nat)
        as (r & Hr & Hiff)
  end.
  - intros k row Hk. simpl.
    match goal with
    | |- exists r, array_some ?f row 0%nat = Ret r /\ _ =>
        destruct (array_some_ret f
          (fun c dx => cellHits b px py k dx c = true) row 0%nat)
          as (r & Hr & Hiff)
    end.
    + intros dx c _. simpl. exists (cellHits b px py k dx c). split.
      * apply collision_cell_ret. exact Hwf.
      * reflexivity.
    + exists r. split; [exact Hr|]. exact Hiff.
  - exists r. split; [exact Hr|]. rewrite Hiff. simpl. split.
    + intros (dy & row & Hrow & dx & c & Hc & Hhit).
      apply cellHits_true in Hhit as [Ht Hwhere]; [|exact Hwf].
      exists dy, dx. split; [|exact Hwhere]. exists row, c. auto.
    + intros (dy & dx & (row & c & Hrow & Hc & Ht) & Hwhere).
      exists dy, row. split; [exact Hrow|]. exists dx, c. split; [exact Hc|].
      apply cellHits_true; auto.
Qed.

Lemma array_some_false {A} (f : A -> nat -> res bool) (l : list A) (i0 : nat) :
  (forall k a, l !! k = Some a -> f a (i0 + k)%nat = Ret false) ->
  array_some f l i0 = Ret false.
Proof.
  revert i0. induction l as [|a l IH]; intros i0 Hf; [reflexivity|].
  simpl. pose proof (Hf 0%nat a eq_refl) as H0.
  rewrite Nat.add_0_r in H0. rewrite H0. apply IH.
  intros k b Hk. specialize (Hf (S k) b Hk).
  replace (S i0 + k)%nat with (i0 + S k)%nat by lia. exact Hf.
Qed.

(** A shape without any set cell collides nowhere, whatever the board. *)
Lemma collision_no_setCell (b : Board) sh px py :
  (forall dy dx, ~ setCell sh dy dx) -> collision b sh px py = Ret false.
Proof.
  intros Hnone. unfold collision. apply array_some_false.
  intros dy row Hrow. apply array_some_false.
  intros dx c Hc. simpl.
  destruct (truthy c) eqn:Ht; [|reflexivity].
  exfalso. apply (Hnone dy dx). exists row, c. auto.
Qed.

(** C5. For every (20 x 10) board, shape and anchor, the collision test
    returns [true] if and only if some set cell of the shape, at local
    offset [(dx, dy)], has [nx = px + dx] outside [0, 10) or
    [ny = py + dy >= 20], or has [ny >= 0] and [board[ny][nx]] occupied.
    Consequently, when every set cell lies above the board ([ny < 0]) within
    the side walls the test is [false] whatever the board holds, and it is
    [false] for an all-empty shape at any position. *)
Theorem collision_spec (b : Board) (sh : Shape) (px py : Z) :
  wfBoard b ->
  exists r, collision b sh px py = Ret r /\
    (r = true <->
     exists dy dx, setCell sh dy dx /\
       (px + Z.of_nat dx < 0 \/ px + Z.of_nat dx >= BOARD_WIDTH \/
        py + Z.of_nat dy >= BOARD_HEIGHT \/
        (0 <= py + Z.of_nat dy /\
         occupied b (py + Z.of_nat dy) (px + Z.of_nat dx)))) /\
    ((forall dy dx, setCell sh dy dx ->
        py + Z.of_nat dy < 0 /\ 0 <= px + Z.of_nat dx < BOARD_WIDTH) ->
     r = false) /\
    ((forall dy dx, ~ setCell sh dy dx) -> r = false).
Proof.
  intros Hwf. destruct (collision_ret b sh px py Hwf) as (r & Hr & Hiff).
  exists r. split; [exact Hr|]. split; [exact Hiff|]. split.
  - intros Habove. destruct r; [|reflexivity].
    destruct (proj1 Hiff eq_refl) as (dy & dx & Hset & Hwhere).
    destruct (Habove dy dx Hset) as [Hy Hx]. unfold BOARD_HEIGHT in Hwhere.
    lia.
  - intros Hnone. rewrite (collision_no_setCell b sh px py Hnone) in Hr.
    congruence.
Qed.

(** ** Merge *)

Lemma array_forEach_inv {A St} (f : A -> nat -> St -> res St)
  (Inv : nat -> St -> Prop) (l : list A) (i0 : nat) (st : St) :
  Inv 0%nat st ->
  (forall k a st0, l !! k = Some a -> Inv k st0 ->
     exists st1, f a (i0 + k)%nat st0 = Ret st1 /\ Inv (S k) st1) ->
  exists st', array_forEach f l i0 st = Ret st' /\ Inv (length l) st'.
Proof.
  revert Inv i0 st. induction l as [|a l IH]; intros Inv i0 st H0 Hstep.
  - exists st. split; [reflexivity | exact H0].
  - simpl. destruct (Hstep 0%nat a st eq_refl H0) as (st1 & Hf & H1).
    rewrite Nat.add_0_r in Hf. rewrite Hf.
    apply (IH (fun k => Inv (S k)) (S i0) st1 H1).
    intros k b st0 Hk Hinv.
    replace (S i0 + k)%nat with (i0 + S k)%nat by lia.
    apply Hstep; assumption.
Qed.

Lemma boardStore_wf b ny nx v :
  wfBoard b -> 0 <= ny < BOARD_HEIGHT -> 0 <= nx < BOARD_WIDTH ->
  exists b', boardStore b ny nx v = Ret b' /\ wfBoard b' /\
    forall i j,
      cellAt b' i j =
      if decide (i = Z.to_nat ny /\ j = Z.to_nat nx) then Some v
      else cellAt b i j.
Proof.
  intros Hwf Hny Hnx. unfold boardStore.
  destruct (wfBoard_lookup b ny Hwf Hny) as [row Hrow]. rewrite Hrow.
  pose proof (wfBoard_row b _ row Hwf Hrow) as Hlen.
  assert (Hin : (Z.to_nat nx < length row)%nat).
  { rewrite Hlen. unfold BOARD_WIDTH in Hnx. lia. }
  unfold array_store. rewrite decide_True by exact Hin.
  eexists. split; [reflexivity|]. split.
  - destruct Hwf as [HL HF]. split.
    + rewrite length_insert. exact HL.
    + apply Forall_insert; [exact HF|].
      rewrite length_insert. exact Hlen.
  - intros i j. unfold cellAt.
    destruct (decide (i = Z.to_nat ny)) as [->|Hi].
    + rewrite list_lookup_insert_eq by (eapply lookup_lt_Some; eauto). simpl.
      destruct (decide (j = Z.to_nat nx)) as [->|Hj].
      * rewrite decide_True by auto.
        apply list_lookup_insert_eq. exact Hin.
      * rewrite decide_False by tauto. rewrite Hrow. simpl.
        apply list_lookup_insert_ne. congruence.
    + rewrite decide_False by tauto.
      rewrite list_lookup_insert_ne by congruence. reflexivity.
Qed.

Lemma mergeInv_iff b color (P Q : nat -> nat -> Prop) b' :
  (forall ny nx, P ny nx <-> Q ny nx) ->
  mergeInv b color P b' -> mergeInv b color Q b'.
Proof.
  intros HPQ (Hwf & Hin & Hout). split; [exact Hwf|]. split.
  - intros ny nx Hy Hx HQ. apply Hin; auto. apply HPQ. exact HQ.
  - intros ny nx HQ. apply Hout. intros HP. apply HQ, HPQ, HP.
Qed.

Lemma visited_next_row sh px py k row ny nx :
  sh !! k = Some row ->
  visited sh px py k (length row) ny nx <-> visited sh px py (S k) 0 ny nx.
Proof.
  intros Hrow. split; intros (dy & dx & Hset & Hlt & Hy & Hx);
    exists dy, dx; repeat split; auto.
  - left. lia.
  - destruct Hlt as [Hlt|[_ Hlt]]; [|lia].
    destruct (decide (dy = k)) as [->|Hne]; [|left; lia].
    right. split; [reflexivity|].
    destruct Hset as (row' & c & Hrow' & Hc & _).
    rewrite Hrow in Hrow'. injection Hrow' as <-.
    eapply lookup_lt_Some; eauto.
Qed.

Lemma visited_all sh px py ny nx :
  visited sh px py (length sh) 0 ny nx <-> covers sh px py ny nx.
Proof.
  split.
  - intros (dy & dx & Hset & _ & Hy & Hx). exists dy, dx. auto.
  - intros (dy & dx & Hset & Hy & Hx). exists dy, dx. repeat split; auto.
    left. destruct Hset as (row & c & Hrow & _).
    eapply lookup_lt_Some; eauto.
Qed.

Lemma mergePiece_cell b color sh px py k j row c nb :
  sh !! k = Some row -> row !! j = Some c ->
  mergeInv b color (visited sh px py k j) nb ->
  exists nb',
    (if truthy c then
       let ny := py + Z.of_nat k in
       let nx := px + Z.of_nat j in
       if (ny >=? 0) && (ny <? BOARD_HEIGHT) && (nx >=? 0) && (nx <? BOARD_WIDTH)
       then boardStore nb ny nx (Color color)
       else Ret nb
     else Ret nb) = Ret nb' /\
    mergeInv b color (visited sh px py k (S j)) nb'.
Proof.
  intros Hrow Hc Hinv.
  assert (Hnew : forall ny nx,
    visited sh px py k (S j) ny nx <->
    visited sh px py k j ny nx \/
    (truthy c = true /\ py + Z.of_nat k = Z.of_nat ny /\
     px + Z.of_nat j = Z.of_nat nx)).
  { intros ny nx. split.
    - intros (dy & dx & Hset & Hlt & Hy & Hx).
      destruct (decide (dy = k /\ dx = j)) as [[-> ->]|Hne].
      + right. destruct Hset as (row' & c' & Hrow' & Hc' & Ht).
        rewrite Hrow in Hrow'. injection Hrow' as <-.
        rewrite Hc in Hc'. injection Hc' as <-. auto.
      + left. exists dy, dx. repeat split; auto. lia.
    - intros [(dy & dx & Hset & Hlt & Hy & Hx)|(Ht & Hy & Hx)].
      + exists dy, dx. repeat split; auto. lia.
      + exists k, j. split; [exists row, c; auto|].
        split; [right; lia|]. split; assumption. }
  destruct (truthy c) eqn:Ht.
  2:{ exists nb. split; [reflexivity|].
      eapply mergeInv_iff; [|exact Hinv].
      intros ny nx. rewrite Hnew. intuition congruence. }
  cbv zeta.
  destruct ((py + Z.of_nat k >=? 0) && (py + Z.of_nat k <? BOARD_HEIGHT)
            && (px + Z.of_nat j >=? 0) && (px + Z.of_nat j <? BOARD_WIDTH))
    eqn:Hbounds.
  - rewrite !andb_true_iff, !Z.geb_le, !Z.ltb_lt in Hbounds.
    destruct Hinv as (Hwf & Hin & Hout).
    destruct (boardStore_wf nb (py + Z.of_nat k) (px + Z.of_nat j)
                (Color color) Hwf) as (nb' & Hst & Hwf' & Hcell); [lia|lia|].
    exists nb'. split; [exact Hst|]. split; [exact Hwf'|]. split.
    + intros ny nx Hy Hx Hv. rewrite Hcell. case_decide as Heq; [reflexivity|].
      apply Hin; auto. apply Hnew in Hv as [Hv|(_ & Hy' & Hx')]; [exact Hv|].
      exfalso. apply Heq. lia.
    + intros ny nx Hv. rewrite Hcell. case_decide as Heq.
      * exfalso. apply Hv, Hnew. right. split; [reflexivity|]. lia.
      * apply Hout. intros Hv'. apply Hv, Hnew. auto.
  - exists nb. split; [reflexivity|].
    destruct Hinv as (Hwf & Hin & Hout). split; [exact Hwf|]. split.
    + intros ny nx Hy Hx Hv.
      apply Hnew in Hv as [Hv|(_ & Hy' & Hx')]; [apply Hin; auto|].
      exfalso. rewrite <- not_true_iff_false in Hbounds. apply Hbounds.
      rewrite !andb_true_iff, !Z.geb_le, !Z.ltb_lt.
      unfold BOARD_HEIGHT, BOARD_WIDTH. lia.
    + intros ny nx Hv.
      apply Hout. intros Hv'. apply Hv, Hnew. auto.
Qed.

(** On a well-formed base board [mergePiece] returns a well-formed board
    that holds [color] on every in-bounds cell covered by a set cell of the
    shape and the base board's cell everywhere else. *)
Lemma mergePiece_ret b sh px py color baseBoard :
  wfBoard (default b baseBoard) ->
  exists b', mergePiece b sh px py color baseBoard = Ret b' /\
    mergeInv (default b baseBoard) color (covers sh px py) b'.
Proof.
  intros Hwf. unfold mergePiece.
  match goal with
  | |- exists b', array_forEach ?f sh 0%nat ?b0 = Ret b' /\ _ =>
      destruct (array_forEach_inv f
        (fun k nb => mergeInv b0 color (visited sh px py k 0) nb) sh 0%nat b0)
        as (b' & Hb' & Hinv)
  end.
  - split; [exact Hwf|]. split.
    + intros ny nx _ _ (dy & dx & _ & [Hlt|[_ Hlt]] & _); lia.
    + reflexivity.
  - intros k row nb Hrow Hinv. simpl.
    match goal with
    | |- exists st1, array_forEach ?f row 0%nat nb = Ret st1 /\ _ =>
        destruct (array_forEach_inv f
          (fun j nb' => mergeInv (default b baseBoard) color
                          (visited sh px py k j) nb') row 0%nat nb Hinv)
          as (nb' & Hnb' & Hinv')
    end.
    + intros j c nb0 Hc Hinv0. simpl.
      eapply mergePiece_cell; eauto.
    + exists nb'. split; [exact Hnb'|].
      eapply mergeInv_iff; [|exact Hinv'].
      intros ny nx. apply visited_next_row. exact Hrow.
  - exists b'. split; [exact Hb'|].
    eapply mergeInv_iff; [|exact Hinv]. intros ny nx. apply visited_all.
Qed.

Lemma array_forEach_sim {A S1 S2} (f1 : A -> nat -> S1 -> res S1)
  (f2 : A -> nat -> S2 -> res S2) (R : S1 -> S2 -> Prop) (l : list A) :
  (forall k a s1 s2 s2', R s1 s2 -> f2 a k s2 = Ret s2' ->
     exists s1', f1 a k s1 = Ret s1' /\ R s1' s2') ->
  forall i0 s1 s2 s2', R s1 s2 -> array_forEach f2 l i0 s2 = Ret s2' ->
    exists s1', array_forEach f1 l i0 s1 = Ret s1' /\ R s1' s2'.
Proof.
  intros Hstep. induction l as [|a l IH]; intros i0 s1 s2 s2' HR Hrun.
  - simpl in *. injection Hrun as <-. eauto.
  - simpl in *. destruct (f2 a i0 s2) as [t2| |] eqn:Hf2; try discriminate.
    destruct (Hstep i0 a s1 s2 t2 HR Hf2) as (t1 & Hf1 & HR1).
    rewrite Hf1. eapply IH; eauto.
Qed.

Lemma copyRows_ret (h : Rows.heap) refs b :
  Rows.derefs h refs b ->
  exists refs' h', Rows.copyRows h refs = Ret (refs', h') /\
    Rows.derefs h' refs' b /\ h ⊆ h' /\ NoDup refs' /\
    (forall l, l ∈ refs' -> h !! l = None).
Proof.
  intros Hd. revert h Hd. revert b.
  induction refs as [|l refs IH]; intros b h Hd.
  - apply Forall2_nil_inv_l in Hd as ->.
    exists [], h. split; [reflexivity|]. split; [constructor|].
    split; [reflexivity|]. split; [constructor|].
    intros l Hl. apply elem_of_nil in Hl. contradiction.
  - apply Forall2_cons_inv_l in Hd as (row & b' & Hrow & Hd & ->).
    simpl. rewrite Hrow. unfold Rows.spread.
    set (l' := fresh (dom h)).
    assert (Hfresh : h !! l' = None).
    { apply not_elem_of_dom. apply is_fresh. }
    assert (Hsub : h ⊆ <[l' := row]> h) by (apply insert_subseteq; exact Hfresh).
    destruct (IH b' (<[l' := row]> h)) as (refs' & h' & Hc & Hd' & Hsub' & Hnd & Hnew).
    { eapply Forall2_impl; [exact Hd|]. intros x r Hx. simpl in Hx.
      eapply lookup_weaken; eauto. }
    rewrite Hc. simpl. exists (l' :: refs'), h'. split; [reflexivity|].
    assert (Hl' : l' ∉ refs').
    { intros Hin. apply Hnew in Hin. rewrite lookup_insert_eq in Hin.
      discriminate. }
    split.
    { constructor; [|exact Hd'].
      eapply lookup_weaken; [|exact Hsub']. apply lookup_insert_eq. }
    split; [etransitivity; eauto|]. split; [constructor; auto|].
    intros x Hx. apply elem_of_cons in Hx as [->|Hx]; [exact Hfresh|].
    specialize (Hnew x Hx). destruct (h !! x) as [r|] eqn:Hhx; [|reflexivity].
    rewrite (lookup_weaken _ _ _ _ Hhx Hsub) in Hnew. discriminate.
Qed.

Lemma rows_boardStore_sim (h0 h1 : Rows.heap) newRefs nb nb' ny nx v :
  NoDup newRefs -> (forall l, l ∈ newRefs -> h0 !! l = None) ->
  Rows.derefs h1 newRefs nb /\ h0 ⊆ h1 ->
  boardStore nb ny nx v = Ret nb' ->
  exists h1', Rows.boardStore h1 newRefs ny nx v = Ret h1' /\
    Rows.derefs h1' newRefs nb' /\ h0 ⊆ h1'.
Proof.
  intros Hnd Hnew [Hd Hsub] Hst. unfold boardStore in Hst.
  destruct (nb !! Z.to_nat ny) as [row|] eqn:Hrow; [|discriminate].
  injection Hst as <-.
  destruct (Forall2_lookup_r _ _ _ _ _ Hd Hrow) as (l & Hl & Hhl).
  unfold Rows.boardStore. rewrite Hl, Hhl.
  eexists. split; [reflexivity|]. split.
  - apply Forall2_same_length_lookup. split.
    + rewrite length_insert. eapply Forall2_length; eauto.
    + intros i x r Hx Hr.
      destruct (decide (i = Z.to_nat ny)) as [->|Hi].
      * rewrite Hl in Hx. injection Hx as <-.
        rewrite list_lookup_insert_eq in Hr by (eapply lookup_lt_Some; eauto).
        injection Hr as <-. apply lookup_insert_eq.
      * rewrite list_lookup_insert_ne in Hr by congruence.
        rewrite lookup_insert_ne.
        -- exact (Forall2_lookup_lr _ _ _ _ _ _ Hd Hx Hr).
        -- intros ->. apply Hi. symmetry.
           eapply NoDup_lookup; eauto.
  - apply insert_subseteq_r; [|exact Hsub].
    apply Hnew. eapply list_elem_of_lookup_2; eauto.
Qed.

(** C9. For every board, shape, anchor and colour, [mergePiece] returns,
    without raising, a copy of the board in which every set cell of the
    shape whose absolute coordinates fall inside the 20 x 10 bounds holds
    the colour and every other cell equals the cell of the input board
    (set cells outside the bounds are dropped: the result is again 20 x 10);
    no row array that existed before the call is written to, so the input
    board still denotes the same value afterwards.  The value-level
    [mergePiece] used by the engine computes the same board. *)
Theorem mergePiece_frame (h : Rows.heap) (refs : list nat) (b : Board)
  (sh : Shape) (px py : Z) (color : string) :
  Rows.derefs h refs b -> wfBoard b ->
  exists refs' h' b',
    Rows.mergePiece h refs sh px py color None = Ret (refs', h') /\
    mergePiece b sh px py color None = Ret b' /\
    Rows.derefs h' refs' b' /\
    wfBoard b' /\
    (forall ny nx, (ny < 20)%nat -> (nx < 10)%nat -> covers sh px py ny nx ->
       cellAt b' ny nx = Some (Color color)) /\
    (forall ny nx, ~ covers sh px py ny nx -> cellAt b' ny nx = cellAt b ny nx) /\
    (forall l row, h !! l = Some row -> h' !! l = Some row) /\
    Rows.derefs h' refs b.
Proof.
  intros Hd Hwf.
  destruct (mergePiece_ret b sh px py color None Hwf) as (b' & Hpure & Hinv).
  destruct (copyRows_ret h refs b Hd) as (newRefs & h1 & Hc & Hd1 & Hsub & Hnd & Hnew).
  unfold Rows.mergePiece. simpl. rewrite Hc. simpl.
  unfold mergePiece in Hpure. simpl in Hpure.
  match goal with
  | |- exists refs' h' b'', (array_forEach ?f1 sh 0%nat h1 ≫= _) = _ /\ _ =>
    match type of Hpure with
    | array_forEach ?f2 _ _ _ = _ =>
      destruct (array_forEach_sim f1 f2
        (fun h2 nb => Rows.derefs h2 newRefs nb /\ h ⊆ h2) sh) with
        (i0 := 0%nat) (s1 := h1) (s2 := b) (s2' := b') as (h' & Hrun & Hd' & Hsub')
    end
  end.
  - intros k row h2 nb nb' HR Hrow.
    eapply (array_forEach_sim _ _
      (fun h2 nb => Rows.derefs h2 newRefs nb /\ h ⊆ h2) row); [|exact HR|exact Hrow].
    intros j c h3 nb3 nb3' HR3 Hcell. simpl in *.
    destruct (truthy c); [|injection Hcell as <-; eauto].
    destruct ((py + Z.of_nat k >=? 0) && (py + Z.of_nat k <? BOARD_HEIGHT)
              && (px + Z.of_nat j >=? 0) && (px + Z.of_nat j <? BOARD_WIDTH));
      [|injection Hcell as <-; eauto].
    eapply rows_boardStore_sim; eauto.
  - auto.
  - exact Hpure.
  - rewrite Hrun. simpl. exists newRefs, h', b'.
    destruct Hinv as (Hwf' & Hin & Hout).
    repeat (split; [first [reflexivity | assumption]|]). split.
    + intros l row Hl. eapply lookup_weaken; eauto.
    + eapply Forall2_impl; [exact Hd|]. intros l row Hl. simpl in Hl.
      eapply lookup_weaken; eauto.
Qed.

(** An application of C9: the O piece merged at the top-left corner of the
    empty board whose rows live at addresses 0..19. *)
Lemma mergePiece_frame_witness :
  exists refs' h' b',
    Rows.mergePiece (list_to_map (zip (seq 0 20) createEmptyBoard)) (seq 0 20)
      (PIECES PO) 0 0 "#FFFF00" None = Ret (refs', h') /\
    mergePiece createEmptyBoard (PIECES PO) 0 0 "#FFFF00" None = Ret b' /\
    Rows.derefs h' (seq 0 20) createEmptyBoard.
Proof.
  destruct (mergePiece_frame (list_to_map (zip (seq 0 20) createEmptyBoard))
              (seq 0 20) createEmptyBoard (PIECES PO) 0 0 "#FFFF00")
    as (refs' & h' & b' & H1 & H2 & _ & _ & _ & _ & _ & H3).
  - unfold Rows.derefs, createEmptyBoard.
    change (Z.to_nat BOARD_HEIGHT) with 20%nat. cbn [replicate seq].
    repeat (constructor; [vm_compute; reflexivity|]). constructor.
  - apply wfBoard_empty.
  - exists refs', h', b'. auto.
Defined.

(** ** Line clearing *)

Lemma rowFull_spec row :
  rowFull row = true <-> Forall (fun c => c <> Null) row.
Proof.
  unfold rowFull. rewrite forallb_forall, Forall_forall.
  split; intros H c Hc.
  - rewrite list_elem_of_In in Hc. specialize (H c Hc).
    destruct c; [discriminate|congruence|congruence].
  - rewrite <- list_elem_of_In in Hc. specialize (H c Hc).
    destruct c; [congruence|reflexivity|reflexivity].
Qed.

Lemma scanRows_eq b idx newBoard clearedRows :
  scanRows b idx newBoard clearedRows =
  (newBoard ++ survivors b, clearedRows ++ fullFrom b idx).
Proof.
  revert idx newBoard clearedRows.
  induction b as [|row rest IH]; intros idx nb cr.
  - simpl. unfold survivors. rewrite filter_nil, !app_nil_r. reflexivity.
  - simpl. unfold survivors. destruct (rowFull row) eqn:Hfull.
    + rewrite IH. rewrite filter_cons_False by congruence.
      rewrite <- app_assoc. reflexivity.
    + rewrite IH. rewrite filter_cons_True by assumption.
      rewrite <- app_assoc. reflexivity.
Qed.

Lemma fullFrom_elem b idx i :
  i ∈ fullFrom b idx <->
  exists k row, i = (idx + k)%nat /\ b !! k = Some row /\ rowFull row = true.
Proof.
  revert idx. induction b as [|row rest IH]; intros idx; simpl.
  - split; [intros H; apply elem_of_nil in H; contradiction|].
    intros (k & r & _ & Hk & _). rewrite lookup_nil in Hk. discriminate.
  - assert (Hrest : i ∈ fullFrom rest (S idx) <->
      exists k row', i = (idx + S k)%nat /\ rest !! k = Some row' /\
                     rowFull row' = true).
    { rewrite IH. split; intros (k & r & -> & Hk & Hf); exists k, r;
        (split; [lia|auto]). }
    destruct (rowFull row) eqn:Hfull.
    + rewrite elem_of_cons, Hrest. split.
      * intros [->|(k & r & -> & Hk & Hf)].
        -- exists 0%nat, row. split; [lia|auto].
        -- exists (S k), r. auto.
      * intros (k & r & -> & Hk & Hf). destruct k as [|k].
        -- left. lia.
        -- right. exists k, r. auto.
    + rewrite Hrest. split.
      * intros (k & r & -> & Hk & Hf). exists (S k), r. auto.
      * intros (k & r & -> & Hk & Hf). destruct k as [|k].
        -- simpl in Hk. injection Hk as <-. congruence.
        -- exists k, r. auto.
Qed.

Lemma fullFrom_sorted b idx :
  StronglySorted lt (fullFrom b idx).
Proof.
  revert idx. induction b as [|row rest IH]; intros idx; simpl.
  - constructor.
  - destruct (rowFull row); [|apply IH].
    constructor; [apply IH|]. apply Forall_forall. intros i Hi.
    apply fullFrom_elem in Hi as (k & r & -> & _). lia.
Qed.

Lemma fullFrom_length b idx :
  (length (fullFrom b idx) + length (survivors b) = length b)%nat.
Proof.
  revert idx. unfold survivors. induction b as [|row rest IH]; intros idx.
  - reflexivity.
  - simpl. destruct (rowFull row) eqn:Hfull.
    + rewrite filter_cons_False by congruence. simpl. rewrite IH. reflexivity.
    + rewrite filter_cons_True by assumption. simpl.
      rewrite <- (IH (S idx)). lia.
Qed.

Lemma fullFrom_nil b idx :
  (forall row, row ∈ b -> rowFull row = false) -> fullFrom b idx = [].
Proof.
  revert idx. induction b as [|row rest IH]; intros idx Hnone; [reflexivity|].
  simpl. rewrite (Hnone row) by (left). apply IH.
  intros r Hr. apply Hnone. right. exact Hr.
Qed.

Lemma compacted_wf b :
  wfBoard b -> wfBoard (compacted (length (fullFrom b 0)) (survivors b)).
Proof.
  intros [HL HF]. unfold compacted. split.
  - rewrite length_app, length_replicate, fullFrom_length. exact HL.
  - apply Forall_app. split.
    + apply Forall_replicate. reflexivity.
    + unfold survivors. rewrite Forall_forall in HF |- *.
      intros row Hrow. apply list_elem_of_filter in Hrow as [_ Hrow]. auto.
Qed.


(** ** Matrix rotation *)

Lemma rect_ext rows cols (a b : Shape) :
  rect rows cols a -> rect rows cols b ->
  (forall i j, (i < rows)%nat -> (j < cols)%nat -> numAt a i j = numAt b i j) ->
  a = b.
Proof.
  intros [Ha HFa] [Hb HFb] Heq. apply list_eq. intros i.
  destruct (decide (i < rows)%nat) as [Hi|Hi].
  - destruct (lookup_lt_is_Some_2 a i) as [ra Hra]; [lia|].
    destruct (lookup_lt_is_Some_2 b i) as [rb Hrb]; [lia|].
    rewrite Hra, Hrb. f_equal.
    rewrite Forall_lookup in HFa, HFb.
    pose proof (HFa i ra Hra) as Hla. pose proof (HFb i rb Hrb) as Hlb.
    apply list_eq. intros j.
    destruct (decide (j < cols)%nat) as [Hj|Hj].
    + specialize (Heq i j Hi Hj). unfold numAt in Heq.
      rewrite Hra, Hrb in Heq. exact Heq.
    + rewrite !lookup_ge_None_2 by lia. reflexivity.
  - rewrite !lookup_ge_None_2 by lia. reflexivity.
Qed.

Lemma rotateMatrix_unfold (m : Shape) row0 dir :
  m !! 0%nat = Some row0 ->
  rotateMatrix m dir =
  Ret match dir with
      | Cw => imap (fun i _ => reverse ((fun row => rowGet row i) <$> m)) row0
      | Ccw =>
          reverse
            (imap (fun i _ =>
                     (fun row => rowGet row (length row0 - 1 - i)%nat) <$> m)
                  row0)
      end.
Proof.
  destruct m as [|r rest]; [discriminate|]. intros [= ->].
  destruct dir; reflexivity.
Qed.

Lemma rect_row0 rows cols (m : Shape) :
  rect rows cols m -> (0 < rows)%nat ->
  exists row0, m !! 0%nat = Some row0 /\ length row0 = cols.
Proof.
  intros [Hlen HF] Hpos.
  destruct (lookup_lt_is_Some_2 m 0) as [row0 H0]; [lia|].
  exists row0. split; [exact H0|].
  rewrite Forall_lookup in HF. exact (HF 0%nat row0 H0).
Qed.

Lemma rowGet_numAt rows cols (m : Shape) k i :
  rect rows cols m -> (k < rows)%nat -> (i < cols)%nat ->
  (fun row => rowGet row i) <$> m !! k = numAt m k i.
Proof.
  intros [Hlen HF] Hk Hi. unfold numAt.
  destruct (lookup_lt_is_Some_2 m k) as [row Hrow]; [lia|].
  rewrite Hrow. simpl. unfold rowGet.
  rewrite Forall_lookup in HF. pose proof (HF _ row Hrow) as Hl.
  destruct (lookup_lt_is_Some_2 row i) as [v Hv]; [lia|].
  rewrite Hv. reflexivity.
Qed.

(** One clockwise rotation of a [rows] x [cols] matrix is the
    [cols] x [rows] matrix with [m'[i][j] = m[rows - 1 - j][i]]. *)
Lemma rotateMatrix_cw_spec rows cols (m : Shape) :
  rect rows cols m -> (0 < rows)%nat ->
  exists m', rotateMatrix m Cw = Ret m' /\ rect cols rows m' /\
    forall i j, (i < cols)%nat -> (j < rows)%nat ->
      numAt m' i j = numAt m (rows - 1 - j) i.
Proof.
  intros Hm Hpos. destruct (rect_row0 rows cols m Hm Hpos) as (row0 & H0 & Hrow0).
  rewrite (rotateMatrix_unfold m row0 Cw H0).
  pose proof Hm as [Hlen HF].
  eexists. split; [reflexivity|]. split.
  - split.
    + rewrite length_imap. exact Hrow0.
    + apply Forall_forall. intros r Hr.
      apply list_elem_of_lookup in Hr as [i Hi].
      rewrite list_lookup_imap in Hi.
      apply fmap_Some in Hi as (v & _ & ->).
      rewrite length_reverse, length_fmap. exact Hlen.
  - intros i j Hi Hj. unfold numAt at 1. rewrite list_lookup_imap.
    destruct (lookup_lt_is_Some_2 row0 i) as [v0 Hv0]; [lia|].
    rewrite Hv0. simpl.
    rewrite reverse_lookup by (rewrite length_fmap; lia).
    rewrite length_fmap, list_lookup_fmap.
    replace (length m - S j)%nat with (rows - 1 - j)%nat by lia.
    apply (rowGet_numAt rows cols); auto. lia.
Qed.

(** Four clockwise rotations of a proper, non-empty matrix give the matrix
    back. *)
Lemma rotateMatrix_cw_order4 rows cols (m : Shape) :
  rect rows cols m -> (0 < rows)%nat -> (0 < cols)%nat ->
  (m1 ← rotateMatrix m Cw; m2 ← rotateMatrix m1 Cw;
   m3 ← rotateMatrix m2 Cw; rotateMatrix m3 Cw) = Ret m.
Proof.
  intros Hm Hr Hc.
  destruct (rotateMatrix_cw_spec rows cols m Hm Hr) as (m1 & E1 & R1 & G1).
  destruct (rotateMatrix_cw_spec cols rows m1 R1 Hc) as (m2 & E2 & R2 & G2).
  destruct (rotateMatrix_cw_spec rows cols m2 R2 Hr) as (m3 & E3 & R3 & G3).
  destruct (rotateMatrix_cw_spec cols rows m3 R3 Hc) as (m4 & E4 & R4 & G4).
  rewrite E1. simpl. rewrite E2. simpl. rewrite E3. simpl. rewrite E4.
  f_equal. apply (rect_ext rows cols); auto.
  intros i j Hi Hj.
  rewrite G4, G3, G2, G1 by lia. f_equal; lia.
Qed.

(** The [dir = -1] branch computes the transpose: [m'[i][j] = m[j][i]]. *)
Lemma rotateMatrix_ccw_spec rows cols (m : Shape) :
  rect rows cols m -> (0 < rows)%nat ->
  exists m', rotateMatrix m Ccw = Ret m' /\ rect cols rows m' /\
    forall i j, (i < cols)%nat -> (j < rows)%nat -> numAt m' i j = numAt m j i.
Proof.
  intros Hm Hpos. destruct (rect_row0 rows cols m Hm Hpos) as (row0 & H0 & Hrow0).
  rewrite (rotateMatrix_unfold m row0 Ccw H0).
  pose proof Hm as [Hlen HF].
  eexists. split; [reflexivity|]. split.
  - split.
    + rewrite length_reverse, length_imap. exact Hrow0.
    + apply Forall_forall. intros r Hr. rewrite elem_of_reverse in Hr.
      apply list_elem_of_lookup in Hr as [i Hi].
      rewrite list_lookup_imap in Hi.
      apply fmap_Some in Hi as (v & _ & ->).
      rewrite length_fmap. exact Hlen.
  - intros i j Hi Hj. unfold numAt at 1.
    rewrite reverse_lookup by (rewrite length_imap; lia).
    rewrite length_imap, list_lookup_imap.
    destruct (lookup_lt_is_Some_2 row0 (length row0 - S i)) as [v0 Hv0]; [lia|].
    rewrite Hv0. simpl. rewrite list_lookup_fmap.
    replace (length row0 - 1 - (length row0 - S i))%nat with i by lia.
    apply (rowGet_numAt rows cols); auto.
Qed.

(** C4, at the L piece.  Four clockwise rotations return the shape, but one
    clockwise rotation followed by one [dir = -1] rotation gives the L
    shape flipped upside down, not the L shape: the second branch of
    [rotateMatrix] reverses twice (the column index and the resulting
    array) and so transposes instead of rotating counter-clockwise. *)
Theorem rotateMatrix_cw_ccw_L :
  (m1 ← rotateMatrix (PIECES PL) Cw; m2 ← rotateMatrix m1 Cw;
   m3 ← rotateMatrix m2 Cw; rotateMatrix m3 Cw) = Ret (PIECES PL) /\
  (m1 ← rotateMatrix (PIECES PL) Cw; rotateMatrix m1 Ccw)
    = Ret (cells [[1; 0; 0]; [1; 1; 1]]) /\
  (m1 ← rotateMatrix (PIECES PL) Cw; rotateMatrix m1 Ccw) <> Ret (PIECES PL).
Proof.
  split; [reflexivity|]. split; [reflexivity|]. discriminate.
Qed.

(** ** Numbers *)

Lemma pow2_pos e : (0 < 2 ^ e)%Q.
Proof. apply Qpower_0_lt. reflexivity. Qed.

Lemma pow2_Z n : 0 <= n -> (inject_Z (2 ^ n) == 2 ^ n)%Q.
Proof. intros H. rewrite Zpower_Qpower by exact H. reflexivity. Qed.

Lemma pow2_split a b : (2 ^ (a + b) == 2 ^ a * 2 ^ b)%Q.
Proof. apply Qpower_plus. discriminate. Qed.

Lemma pow2_le a b : a <= b -> (2 ^ a <= 2 ^ b)%Q.
Proof. intros H. apply Qpower_le_compat_l; [exact H|discriminate]. Qed.

Lemma ilog2_spec q : (0 < q)%Q -> (2 ^ ilog2 q <= q < 2 ^ (ilog2 q + 1))%Q.
Proof.
  intros Hq. unfold ilog2. destruct (Qle_bool 1 q) eqn:E.
  - apply Qle_bool_iff in E.
    assert (Hf : 1 <= Qfloor q).
    { change 1 with (Qfloor 1). apply Qfloor_resp_le. exact E. }
    destruct (Z.log2_spec (Qfloor q) ltac:(lia)) as [Hlo Hhi].
    pose proof (Z.log2_nonneg (Qfloor q)) as Hnn.
    rewrite <- !pow2_Z by lia. split.
    + eapply Qle_trans; [|apply Qfloor_le]. rewrite <- Zle_Qle. exact Hlo.
    + eapply Qlt_le_trans; [apply Qlt_floor|]. rewrite <- Zle_Qle.
      replace (Z.log2 (Qfloor q) + 1) with (Z.succ (Z.log2 (Qfloor q))) by lia.
      lia.
  - assert (Hlt : (q < 1)%Q).
    { apply Qnot_le_lt. intros H. apply Qle_bool_iff in H. congruence. }
    assert (Hinv : (1 < / q)%Q).
    { apply Qlt_shift_inv_l; [exact Hq|]. rewrite Qmult_1_l. exact Hlt. }
    assert (Hc : 1 < Qceiling (/ q)).
    { rewrite Zlt_Qlt. eapply Qlt_le_trans; [exact Hinv|apply Qle_ceiling]. }
    destruct (Z.log2_up_spec (Qceiling (/ q)) Hc) as [Hlo Hhi].
    pose proof (Z.log2_up_nonneg (Qceiling (/ q))) as Hnn.
    assert (Hk : 0 < Z.log2_up (Qceiling (/ q))) by (apply Z.log2_up_pos; lia).
    set (k := Z.log2_up (Qceiling (/ q))) in *. split.
    + rewrite Qpower_opp. apply Qle_shift_inv_r; [apply pow2_pos|].
      assert (H1 : (/ q <= 2 ^ k)%Q).
      { rewrite <- pow2_Z by lia. eapply Qle_trans; [apply Qle_ceiling|].
        rewrite <- Zle_Qle. exact Hhi. }
      apply (Qmult_le_compat_r _ _ q) in H1; [|apply Qlt_le_weak; exact Hq].
      rewrite (Qmult_comm (/ q)), Qmult_inv_r in H1; [|lra].
      rewrite Qmult_comm. exact H1.
    + replace (- k + 1) with (- (Z.pred k)) by lia.
      rewrite Qpower_opp. apply Qlt_shift_inv_l; [apply pow2_pos|].
      assert (H1 : (2 ^ Z.pred k < / q)%Q).
      { rewrite <- pow2_Z by lia.
        eapply Qle_lt_trans; [|apply Qceiling_lt].
        rewrite <- Zle_Qle. lia. }
      apply (Qmult_lt_compat_r _ _ q) in H1; [|exact Hq].
      rewrite (Qmult_comm (/ q)), Qmult_inv_r in H1; [|lra].
      rewrite Qmult_comm. exact H1.
Qed.

Lemma ulp_pos q : (0 < ulp q)%Q.
Proof. apply pow2_pos. Qed.

(** Rounding moves a number by at most half a unit. *)
Lemma roundHalfEven_le x : (inject_Z (roundHalfEven x) <= x + (1 # 2))%Q.
Proof.
  unfold roundHalfEven. pose proof (Qfloor_le x) as Hf.
  destruct (x - inject_Z (Qfloor x) ?= 1 # 2)%Q eqn:E.
  - apply Qeq_alt in E.
    destruct (Z.even (Qfloor x)); [lra|]. rewrite inject_Z_plus.
    change (inject_Z 1) with 1%Q. lra.
  - lra.
  - apply Qgt_alt in E. rewrite inject_Z_plus.
    change (inject_Z 1) with 1%Q. lra.
Qed.

(** A number that is a multiple of its own spacing is a double: both
    roundings leave it as it is. *)
Lemma double_fixed q m :
  (0 < q)%Q -> (q == inject_Z m * ulp q)%Q ->
  (doubleBelow q == q)%Q /\ (nearestDouble q == q)%Q.
Proof.
  intros Hq Hm. pose proof (ulp_pos q) as Hu.
  assert (E : Qle_bool q 0 = false).
  { destruct (Qle_bool q 0) eqn:E; [|reflexivity].
    apply Qle_bool_iff in E. lra. }
  assert (Hd : (q / ulp q == inject_Z m)%Q).
  { rewrite Hm at 1. field. lra. }
  unfold doubleBelow, nearestDouble. rewrite E. split.
  - rewrite (Qfloor_comp _ _ Hd), Qfloor_Z. symmetry. exact Hm.
  - assert (Hr : roundHalfEven (q / ulp q) = m).
    { unfold roundHalfEven. rewrite (Qfloor_comp _ _ Hd), Qfloor_Z.
      destruct (q / ulp q - inject_Z m ?= 1 # 2)%Q eqn:C; [| reflexivity |].
      - apply Qeq_alt in C. lra.
      - apply Qgt_alt in C. lra. }
    rewrite Hr. symmetry. exact Hm.
Qed.

(** A double below 1 is at most [1 - 2^-53]. *)
Lemma doubleBelow_range r :
  (0 <= r < 1)%Q -> (0 <= doubleBelow r <= 1 - 2 ^ (-53))%Q.
Proof.
  intros [H0 H1]. unfold doubleBelow.
  assert (Hsmall : (2 ^ (-53) <= 1 # 2)%Q).
  { change (1 # 2) with (2 ^ (-1))%Q. apply pow2_le. lia. }
  pose proof (pow2_pos (-53)) as Hp53.
  destruct (Qle_bool r 0) eqn:E; [lra|].
  assert (Hr : (0 < r)%Q).
  { apply Qnot_le_lt. intros H. apply Qle_bool_iff in H. congruence. }
  destruct (ilog2_spec r Hr) as [Hlo Hhi].
  pose proof (ulp_pos r) as Hu.
  set (f := Qfloor (r / ulp r)).
  assert (Hf0 : 0 <= f).
  { change 0 with (Qfloor 0). apply Qfloor_resp_le.
    apply Qle_shift_div_l; [exact Hu|]. lra. }
  assert (Hfr : (inject_Z f * ulp r <= r)%Q).
  { pose proof (Qfloor_le (r / ulp r)) as H. fold f in H.
    apply (Qmult_le_compat_r _ _ (ulp r)) in H; [|lra].
    assert (E1 : (r / ulp r * ulp r == r)%Q) by (field; lra).
    rewrite E1 in H. exact H. }
  split.
  { apply Qmult_le_0_compat; [|lra]. change 0%Q with (inject_Z 0).
    rewrite <- Zle_Qle. exact Hf0. }
  assert (He : ilog2 r <= -1).
  { destruct (Z_le_gt_dec (ilog2 r) (-1)) as [|Hgt]; [assumption|exfalso].
    pose proof (pow2_le 0 (ilog2 r) ltac:(lia)) as H.
    change (2 ^ 0)%Q with 1%Q in H. lra. }
  destruct (Z.eq_dec (ilog2 r) (-1)) as [Heq|Hne].
  - (* the binade [1/2, 1) *)
    assert (Eu : ulp r = (2 ^ (-53))%Q).
    { unfold ulp. rewrite Heq. reflexivity. }
    rewrite Eu in *.
    assert (Hone : (inject_Z (2 ^ 53) * 2 ^ (-53) == 1)%Q) by reflexivity.
    assert (Hf : f <= 2 ^ 53 - 1).
    { assert (Hq : (inject_Z f < inject_Z (2 ^ 53))%Q).
      { apply (Qmult_lt_r _ _ (2 ^ (-53))); [exact Hp53|]. lra. }
      rewrite <- Zlt_Qlt in Hq. lia. }
    rewrite Zle_Qle in Hf.
    apply (Qmult_le_compat_r _ _ (2 ^ (-53))) in Hf; [|lra].
    unfold Z.sub in Hf. rewrite inject_Z_plus in Hf.
    change (inject_Z (- (1))) with (- (1))%Q in Hf. lra.
  - (* below 1/2 *)
    pose proof (pow2_le (ilog2 r + 1) (-1) ltac:(lia)) as H.
    change (2 ^ (-1))%Q with (1 # 2) in H. lra.
Qed.

(** The rounded product of a double below 1 and a positive integer stays
    below the integer. *)
Lemma nearestDouble_mul_lt d n :
  (0 <= d <= 1 - 2 ^ (-53))%Q -> 1 <= n ->
  (nearestDouble (d * inject_Z n) < inject_Z n)%Q.
Proof.
  intros [H0 H1] Hn. unfold nearestDouble.
  assert (HnQ : (1 <= inject_Z n)%Q).
  { change 1%Q with (inject_Z 1). rewrite <- Zle_Qle. exact Hn. }
  pose proof (pow2_pos (-53)) as Hp53.
  set (q := (d * inject_Z n)%Q).
  destruct (Qle_bool q 0) eqn:E; [lra|].
  assert (Hq : (0 < q)%Q).
  { apply Qnot_le_lt. intros H. apply Qle_bool_iff in H. congruence. }
  destruct (ilog2_spec q Hq) as [Hlo _].
  pose proof (ulp_pos q) as Hu.
  pose proof (roundHalfEven_le (q / ulp q)) as Hr.
  apply (Qmult_le_compat_r _ _ (ulp q)) in Hr; [|lra].
  assert (E1 : ((q / ulp q + (1 # 2)) * ulp q == q + (1 # 2) * ulp q)%Q)
    by (field; lra).
  rewrite E1 in Hr.
  eapply Qle_lt_trans; [exact Hr|].
  (* the gap [n - q] is at least [n * 2^-53], more than half a spacing *)
  assert (Hgap : (inject_Z n * 2 ^ (-53) <= inject_Z n - q)%Q).
  { unfold q.
    assert (Hm : (d * inject_Z n <= (1 - 2 ^ (-53)) * inject_Z n)%Q).
    { apply Qmult_le_compat_r; lra. }
    lra. }
  assert (Hhalf : ((1 # 2) * ulp q < inject_Z n * 2 ^ (-53))%Q).
  { unfold ulp. destruct (Z.max_spec (ilog2 q) (-1022)) as [[Hlt ->]|[Hle ->]].
    - change ((1 # 2) * 2 ^ (-1022 - 52))%Q with (2 ^ (-1075))%Q.
      assert ((2 ^ (-1075) < 2 ^ (-53))%Q).
      { apply Qpower_lt_compat_l; [lia|reflexivity]. }
      assert (1 * 2 ^ (-53) <= inject_Z n * 2 ^ (-53))%Q.
      { apply Qmult_le_compat_r; lra. }
      lra.
    - replace (ilog2 q - 52) with (ilog2 q + -53 + 1) by lia.
      rewrite !pow2_split. change (2 ^ 1)%Q with 2%Q.
      assert (Hqn : (q < inject_Z n)%Q).
      { assert (0 < inject_Z n * 2 ^ (-53))%Q by (apply Qmult_lt_0_compat; lra).
        lra. }
      assert (2 ^ ilog2 q * 2 ^ (-53) < inject_Z n * 2 ^ (-53))%Q.
      { apply Qmult_lt_compat_r; lra. }
      lra. }
  lra.
Qed.

(** ** Piece supply *)

Section Supply.

Variable random : nat -> Q.

(** [Math.random()] returns a number in the range [0, 1). *)
Hypothesis random_range : forall k, (0 <= random k < 1)%Q.

Lemma randomIndex_le k i : (randomIndex random k i <= i)%nat.
Proof.
  unfold randomIndex, Math_random.
  pose proof (nearestDouble_mul_lt (doubleBelow (random k)) (Z.of_nat i + 1)
                (doubleBelow_range _ (random_range k)) ltac:(lia)) as Hlt.
  set (q := nearestDouble _) in *.
  assert (Hfl : Qfloor q < Z.of_nat i + 1).
  { rewrite Zlt_Qlt. eapply Qle_lt_trans; [apply Qfloor_le|exact Hlt]. }
  lia.
Qed.

Lemma swap_perm i j (pieces : list PieceName) :
  swap i j pieces ≡ₚ pieces.
Proof.
  unfold swap.
  destruct (pieces !! j) as [pj|] eqn:Hj; [|reflexivity].
  destruct (pieces !! i) as [pi|] eqn:Hi; [|reflexivity].
  destruct (decide (i = j)) as [->|Hne].
  - rewrite Hj in Hi. injection Hi as <-.
    rewrite list_insert_insert_eq, list_insert_id by exact Hj. reflexivity.
  - symmetry. apply Permutation_inj. split; [rewrite !length_insert; reflexivity|].
    exists (fun k => if decide (k = i) then j else if decide (k = j) then i else k).
    split.
    + intros a b Hab. repeat case_decide; congruence.
    + intros k. destruct (decide (k = i)) as [->|Hki].
      * rewrite list_lookup_insert_eq
          by (rewrite length_insert; eapply lookup_lt_Some; eauto).
        exact Hi.
      * destruct (decide (k = j)) as [->|Hkj].
        -- rewrite list_lookup_insert_ne by congruence.
           rewrite list_lookup_insert_eq by (eapply lookup_lt_Some; eauto).
           exact Hj.
        -- rewrite !list_lookup_insert_ne by congruence. reflexivity.
Qed.

Lemma shuffle_perm i pieces k :
  (shuffle random i pieces k).1 ≡ₚ pieces /\
  (shuffle random i pieces k).2 = (k + i)%nat.
Proof.
  revert pieces k. induction i as [|i IH]; intros pieces k; simpl.
  - split; [reflexivity|lia].
  - destruct (IH (swap (S i) (randomIndex random k (S i)) pieces) (S k))
      as [Hp Hk].
    split; [|lia]. rewrite Hp. apply swap_perm.
Qed.

Lemma getNextPiece_pop s bag nm :
  pieceBag s = bag ++ [nm] ->
  getNextPiece random s
  = (mkPiece (PIECES nm) (COLORS nm) nm, setPieceBag bag s).
Proof.
  intros Hbag. unfold getNextPiece.
  destruct (pieceBag s) as [|a l] eqn:Hb.
  - destruct bag; discriminate.
  - rewrite Hb, Hbag, reverse_snoc, reverse_involutive. reflexivity.
Qed.

Lemma getNextPiece_refill s :
  pieceBag s = [] -> getNextPiece random s = getNextPiece random (refilled random s).
Proof.
  intros Hbag. unfold getNextPiece at 1. rewrite Hbag.
  change (length PIECE_KEYS - 1)%nat with 6%nat.
  pose proof (shuffle_perm 6 PIECE_KEYS (randomCalls s)) as [Hp Hk].
  destruct (shuffle random 6 PIECE_KEYS (randomCalls s)) as [pieces k] eqn:Hsh.
  simpl in Hp, Hk. subst k.
  assert (Hlen : length pieces = 7%nat) by (rewrite Hp; reflexivity).
  destruct (decide (pieces = [])) as [->|Hne]; [discriminate|].
  unfold getNextPiece, refilled. rewrite Hsh. simpl.
  destruct pieces; [congruence|]. reflexivity.
Qed.

Lemma refilled_bag s :
  pieceBag (refilled random s) ≡ₚ PIECE_KEYS.
Proof.
  change (pieceBag (refilled random s))
    with ((shuffle random 6 PIECE_KEYS (randomCalls s)).1).
  apply (proj1 (shuffle_perm 6 PIECE_KEYS (randomCalls s))).
Qed.

Lemma drawN_bag bag : forall s,
  pieceBag s = bag ->
  drawN random (length bag) s = (reverse bag, setPieceBag [] s).
Proof.
  induction bag as [|nm bag IH] using rev_ind; intros s Hbag.
  - destruct s. simpl in Hbag. subst. reflexivity.
  - rewrite length_app, Nat.add_1_r. simpl.
    rewrite (getNextPiece_pop s bag nm Hbag).
    rewrite (IH (setPieceBag bag s) eq_refl).
    rewrite reverse_snoc. reflexivity.
Qed.

Lemma drawN_app a b s :
  drawN random (a + b) s =
  let '(l1, s1) := drawN random a s in
  let '(l2, s2) := drawN random b s1 in
  (l1 ++ l2, s2).
Proof.
  revert s. induction a as [|a IH]; intros s; simpl.
  - destruct (drawN random b s); reflexivity.
  - destruct (getNextPiece random s) as [p s1]. rewrite IH.
    destruct (drawN random a s1) as [l1 s2].
    destruct (drawN random b s2) as [l2 s3]. reflexivity.
Qed.

Lemma PIECE_KEYS_NoDup : NoDup PIECE_KEYS.
Proof.
  unfold PIECE_KEYS.
  repeat (apply NoDup_cons; split;
          [rewrite ?elem_of_cons, ?elem_of_nil; intuition discriminate|]).
  apply NoDup_nil_2.
Qed.

Lemma PIECE_KEYS_all (nm : PieceName) : nm ∈ PIECE_KEYS.
Proof.
  unfold PIECE_KEYS. rewrite !elem_of_cons. destruct nm; tauto.
Qed.

(** One run: seven draws from a refill boundary. *)
Lemma drawN_run s :
  pieceBag s = [] ->
  (drawN random 7 s).1 ≡ₚ PIECE_KEYS /\ pieceBag (drawN random 7 s).2 = [].
Proof.
  intros Hbag.
  assert (Hstep : drawN random 7 s = drawN random 7 (refilled random s)).
  { simpl. rewrite (getNextPiece_refill s Hbag). reflexivity. }
  rewrite Hstep. pose proof (refilled_bag s) as Hp.
  assert (Hlen : length (pieceBag (refilled random s)) = 7%nat) by (rewrite Hp; reflexivity).
  assert (E : drawN random 7 (refilled random s)
              = (reverse (pieceBag (refilled random s)), setPieceBag [] (refilled random s))).
  { rewrite <- Hlen. apply drawN_bag. reflexivity. }
  rewrite E. split; [|reflexivity].
  change ((reverse (pieceBag (refilled random s)), setPieceBag [] (refilled random s)).1)
    with (reverse (pieceBag (refilled random s))).
  rewrite reverse_Permutation. exact Hp.
Qed.

(** C7. Starting at a refill boundary (an empty bag), for every number [n]
    of bags consumed, each aligned run of 7 among the [7 * n] draws of
    [getNextPiece] is a permutation of the seven piece names: it has no
    duplicate and misses no name, whatever values [Math.random()] returns in
    its range [0, 1) (each index drawn by the shuffle then lies in
    [0, i]).  After the draws the bag is empty again. *)
Theorem bag_invariant (n : nat) (s : State) :
  pieceBag s = [] ->
  (forall k i, (randomIndex random k i <= i)%nat) /\
  length (drawN random (7 * n) s).1 = (7 * n)%nat /\
  pieceBag (drawN random (7 * n) s).2 = [] /\
  forall m, (m < n)%nat ->
    let run := take 7 (drop (7 * m) (drawN random (7 * n) s).1) in
    run ≡ₚ PIECE_KEYS /\ NoDup run /\ forall nm : PieceName, nm ∈ run.
Proof.
  intros Hbag. split; [exact randomIndex_le|].
  revert s Hbag. induction n as [|n IH]; intros s Hbag.
  - rewrite Nat.mul_0_r. split; [reflexivity|]. split; [exact Hbag|].
    intros m Hm. lia.
  - replace (7 * S n)%nat with (7 + 7 * n)%nat by lia.
    rewrite drawN_app.
    destruct (drawN_run s Hbag) as [Hperm Hbag1].
    destruct (drawN random 7 s) as [run1 s1]. cbn [fst snd] in Hperm, Hbag1.
    destruct (IH s1 Hbag1) as (Hlen & Hbag2 & Hruns).
    destruct (drawN random (7 * n) s1) as [rest s2]. cbn [fst snd] in *.
    assert (Hl1 : length run1 = 7%nat) by (rewrite Hperm; reflexivity).
    split; [rewrite length_app; lia|]. split; [exact Hbag2|].
    intros m Hm. destruct m as [|m].
    + rewrite Nat.mul_0_r, drop_0, take_app_length' by (symmetry; exact Hl1).
      split; [exact Hperm|]. split.
      * rewrite Hperm. exact PIECE_KEYS_NoDup.
      * intros nm. rewrite Hperm. apply PIECE_KEYS_all.
    + replace (7 * S m)%nat with (length run1 + 7 * m)%nat by lia.
      rewrite <- drop_drop, drop_app_length.
      apply Hruns. lia.
Qed.

End Supply.

(** ** Ghost projection *)

Lemma descend_S fuel b sh px y :
  descend (S fuel) b sh px y =
  (c ← collision b sh px (y + 1);
   if c : bool then Ret y else descend fuel b sh px (y + 1)).
Proof. reflexivity. Qed.

Lemma descend_more fuel b sh px y r :
  descend fuel b sh px y = Ret r -> descend (S fuel) b sh px y = Ret r.
Proof.
  revert y. induction fuel as [|fuel IH]; intros y H; [discriminate|].
  rewrite descend_S in H. rewrite (descend_S (S fuel)).
  destruct (collision b sh px (y + 1)) as [[|]| |]; simpl in *; auto.
Qed.

Lemma descend_mono fuel fuel' b sh px y r :
  (fuel <= fuel')%nat ->
  descend fuel b sh px y = Ret r -> descend fuel' b sh px y = Ret r.
Proof.
  induction 1 as [|fuel' _ IH]; intros H; [exact H|].
  apply descend_more. auto.
Qed.

(** The landing row: the loop, started at [y], stops at the first row
    [ystar >= y] below which the shape collides. *)
Lemma descend_spec b sh px dy dx :
  wfBoard b -> setCell sh dy dx ->
  forall n y, (Z.to_nat (BOARD_HEIGHT - (y + 1 + Z.of_nat dy)) <= n)%nat ->
  exists ystar,
    descend (S n) b sh px y = Ret ystar /\ y <= ystar /\
    collision b sh px (ystar + 1) = Ret true /\
    forall y', y <= y' < ystar -> collision b sh px (y' + 1) = Ret false.
Proof.
  intros Hwf Hset. induction n as [|n IH]; intros y Hn.
  - destruct (collision_ret b sh px (y + 1) Hwf) as (r & Hr & Hiff).
    assert (r = true) as ->.
    { apply Hiff. exists dy, dx. split; [exact Hset|]. right; right; left.
      unfold BOARD_HEIGHT in *. lia. }
    exists y. split; [simpl; rewrite Hr; reflexivity|].
    split; [lia|]. split; [exact Hr|]. intros y' Hy'. lia.
  - destruct (collision_ret b sh px (y + 1) Hwf) as (r & Hr & Hiff).
    destruct r.
    + exists y. split; [rewrite descend_S, Hr; reflexivity|].
      split; [lia|]. split; [exact Hr|]. intros y' Hy'. lia.
    + destruct (IH (y + 1)) as (ystar & Hd & Hle & Hc & Hmin).
      { unfold BOARD_HEIGHT in *. lia. }
      exists ystar. split; [rewrite descend_S, Hr; exact Hd|].
      split; [lia|]. split; [exact Hc|]. intros y' Hy'. destruct (decide (y' = y)) as [->|Hne]; [exact Hr|].
      apply Hmin. lia.
Qed.

Lemma descend_no_setCell fuel (b : Board) sh px y :
  (forall dy dx, ~ setCell sh dy dx) -> descend fuel b sh px y = OutOfFuel.
Proof.
  intros Hnone. revert y. induction fuel as [|fuel IH]; intros y; [reflexivity|].
  simpl. rewrite (collision_no_setCell b sh px (y + 1) Hnone). simpl. apply IH.
Qed.

(** C10. For every (20 x 10) board and every current piece whose shape has
    at least one set cell, the descent loop of [ghostY] terminates: with any
    sufficient budget it returns the smallest [ystar >= pos.y] such that the
    shape collides at [(pos.x, ystar + 1)].  [ghostY] only computes a
    number; it has no state to return.  A set cell is necessary: for a shape
    without one the collision test is false at every depth and no budget
    lets the loop finish. *)
Theorem ghostY_terminates (s : State) :
  wfBoard (board s) ->
  ((exists dy dx, setCell (shape (currentPiece s)) dy dx) ->
   exists fuel0 ystar,
     (forall fuel, (fuel0 <= fuel)%nat -> ghostY fuel s = Ret ystar) /\
     y (pos s) <= ystar /\
     collision (board s) (shape (currentPiece s)) (x (pos s)) (ystar + 1)
       = Ret true /\
     forall y', y (pos s) <= y' < ystar ->
       collision (board s) (shape (currentPiece s)) (x (pos s)) (y' + 1)
         = Ret false) /\
  ((forall dy dx, ~ setCell (shape (currentPiece s)) dy dx) ->
   forall fuel y0,
     collision (board s) (shape (currentPiece s)) (x (pos s)) y0 = Ret false /\
     ghostY fuel s = OutOfFuel).
Proof.
  intros Hwf. split.
  - intros (dy & dx & Hset).
    destruct (descend_spec (board s) (shape (currentPiece s)) (x (pos s)) dy dx
                Hwf Hset
                (Z.to_nat (BOARD_HEIGHT - (y (pos s) + 1 + Z.of_nat dy)))
                (y (pos s))) as (ystar & Hd & Hle & Hc & Hmin); [lia|].
    eexists _, ystar. split; [|auto].
    intros fuel Hfuel. unfold ghostY. eapply descend_mono; eauto.
  - intros Hnone fuel y0. split.
    + apply collision_no_setCell. exact Hnone.
    + apply descend_no_setCell. exact Hnone.
Qed.

(** ** Game over *)

Lemma clearLines_setGameOver nb g s :
  clearLines nb (setGameOver g s) = setGameOver g (clearLines nb s).
Proof.
  unfold clearLines. destruct (scanRows nb 0 [] []) as [newBoard clearedRows].
  destruct (0 <? length clearedRows)%nat; [|reflexivity].
  simpl. destruct (_ >? _); reflexivity.
Qed.

Lemma getNextPiece_setGameOver random g s :
  getNextPiece random (setGameOver g s) =
  ((getNextPiece random s).1, setGameOver g (getNextPiece random s).2).
Proof.
  unfold getNextPiece. cbn [pieceBag randomCalls setGameOver].
  destruct (pieceBag s) as [|a l] eqn:Hbag.
  - destruct (shuffle random _ _ _) as [pieces k].
    cbn [pieceBag setRandomCalls setPieceBag].
    destruct (reverse pieces); reflexivity.
  - cbn [pieceBag setGameOver]. rewrite Hbag.
    destruct (reverse (a :: l)); reflexivity.
Qed.

(** [tick] never reads the game-over flag and never clears it. *)
Lemma tick_setGameOver random s :
  tick random (setGameOver true s)
  = (t ← tick random s; Ret (setGameOver true t)).
Proof.
  unfold tick. cbn [board currentPiece pos nextPiece setGameOver].
  destruct (collision (board s) (shape (currentPiece s)) (x (pos s))
              (y (pos s) + 1)) as [[|]| |]; try reflexivity.
  cbn [mbind res_mbind res_bind].
  destruct (mergePiece (board s) (shape (currentPiece s)) (x (pos s))
              (y (pos s)) (color (currentPiece s)) None) as [nb| |];
    try reflexivity.
  cbn [mbind res_mbind res_bind].
  destruct (collision (board s) (shape (nextPiece s)) 3 0) as [[|]| |];
    try reflexivity; cbn [mbind res_mbind res_bind].
  - rewrite clearLines_setGameOver. reflexivity.
  - rewrite clearLines_setGameOver.
    change (setPos spawnPos
              (setCurrentPiece (nextPiece s)
                 (setHoldUsed false (setGameOver true (clearLines nb s)))))
      with (setGameOver true
              (setPos spawnPos
                 (setCurrentPiece (nextPiece s)
                    (setHoldUsed false (clearLines nb s))))).
    rewrite getNextPiece_setGameOver.
    destruct (getNextPiece random _) as [p acc]. reflexivity.
Qed.


(** Run on a state whose flag is set, [tick] still moves the piece. *)
Example tick_not_gated :
  tick sampleRandom (setGameOver true (setBoard createEmptyBoard lockAtTop))
  = Ret (droppedTo 1 (setGameOver true (setBoard createEmptyBoard lockAtTop))).
Proof. reflexivity. Qed.

(** ** Rotation with wall kicks *)

Lemma tryKicks_all kicks rotatedShape to s :
  (forall k, k ∈ kicks ->
     collision (board s) rotatedShape (x (pos s) + k.1) (y (pos s) - k.2)
       = Ret true) ->
  tryKicks kicks rotatedShape to s = Ret s.
Proof.
  induction kicks as [|[kx ky] rest IH]; intros Hall; [reflexivity|].
  pose proof (Hall (kx, ky) ltac:(left)) as Hc. simpl in Hc |- *.
  rewrite Hc. simpl. apply IH. intros k Hk. apply Hall. right. exact Hk.
Qed.

Lemma tryKicks_first pre kx ky post rotatedShape to s :
  (forall k, k ∈ pre ->
     collision (board s) rotatedShape (x (pos s) + k.1) (y (pos s) - k.2)
       = Ret true) ->
  collision (board s) rotatedShape (x (pos s) + kx) (y (pos s) - ky)
    = Ret false ->
  tryKicks (pre ++ (kx, ky) :: post) rotatedShape to s
  = Ret (rotatedTo rotatedShape kx ky to s).
Proof.
  induction pre as [|[px py] pre IH]; intros Hpre Hfree.
  - simpl. rewrite Hfree. reflexivity.
  - pose proof (Hpre (px, py) ltac:(left)) as Hc. simpl in Hc |- *.
    rewrite Hc. simpl. apply IH; [|exact Hfree]. intros k Hk. apply Hpre. right. exact Hk.
Qed.

(** C3. [rotate(dir)] leaves the state as it is for the O piece or when the
    game is over.  Otherwise, with [rotated] the shape computed by
    [rotateMatrix], [to = (from + dir + 4) mod 4] and [kicks] the table entry
    for (piece name, [from>to]) or [[(0, 0)]] when there is none: the first
    candidate [(kx, ky)] in list order for which [(x + kx, y - ky)] does not
    collide is committed, shape, position and rotation index together, and
    when every candidate collides the state is unchanged. *)
Theorem rotate_spec (dir : Dir) (s : State) :
  (gameOver s = true \/ name (currentPiece s) = PO -> rotate dir s = Ret s) /\
  (gameOver s = false -> name (currentPiece s) <> PO ->
   0 <= rotation (pos s) <= 3 ->
   forall rotated, rotateMatrix (shape (currentPiece s)) dir = Ret rotated ->
   let from := rotation (pos s) in
   let to := (from + dirZ dir + 4) mod 4 in
   let kicks :=
     default [(0, 0)] (WALL_KICKS (name (currentPiece s)) !! kickKey from to) in
   (forall pre kx ky post,
      kicks = pre ++ (kx, ky) :: post ->
      (forall k, k ∈ pre ->
         collision (board s) rotated (x (pos s) + k.1) (y (pos s) - k.2)
           = Ret true) ->
      collision (board s) rotated (x (pos s) + kx) (y (pos s) - ky)
        = Ret false ->
      rotate dir s = Ret (rotatedTo rotated kx ky to s)) /\
   ((forall k, k ∈ kicks ->
       collision (board s) rotated (x (pos s) + k.1) (y (pos s) - k.2)
         = Ret true) ->
    rotate dir s = Ret s)).
Proof.
  split.
  - intros [Hover|HO]; unfold rotate.
    + rewrite Hover. reflexivity.
    + destruct (gameOver s); [reflexivity|].
      rewrite decide_True by exact HO. reflexivity.
  - intros Hover HO Hrot rotated Hrotated from to kicks.
    assert (Hrun : rotate dir s = tryKicks kicks rotated to s).
    { unfold rotate. rewrite Hover, decide_False by exact HO.
      rewrite Hrotated. simpl.
      rewrite Z.rem_mod_nonneg by (destruct dir; simpl; lia).
      reflexivity. }
    rewrite Hrun. split.
    + intros pre kx ky post -> Hpre Hfree. apply tryKicks_first; assumption.
    + apply tryKicks_all.
Qed.

(** ** Fall, lock and hard drop *)

Lemma droppedTo_same s : droppedTo (y (pos s)) s = s.
Proof. destruct s as [? ? [? ? ?] ? ? ? ? ? ? ? ? ? ? ? ?]. reflexivity. Qed.

Lemma droppedTo_droppedTo a b s : droppedTo b (droppedTo a s) = droppedTo b s.
Proof. reflexivity. Qed.

Lemma clearLines_setPos nb p s :
  clearLines nb (setPos p s) = setPos p (clearLines nb s).
Proof.
  unfold clearLines. destruct (scanRows nb 0 [] []) as [newBoard clearedRows].
  destruct (0 <? length clearedRows)%nat; [|reflexivity].
  simpl. destruct (_ >? _); reflexivity.
Qed.

Lemma getNextPiece_setPos random p s :
  getNextPiece random (setPos p s) =
  ((getNextPiece random s).1, setPos p (getNextPiece random s).2).
Proof.
  unfold getNextPiece. cbn [pieceBag randomCalls setPos].
  destruct (pieceBag s) as [|a l] eqn:Hbag.
  - destruct (shuffle random _ _ _) as [pieces k].
    cbn [pieceBag setRandomCalls setPieceBag].
    destruct (reverse pieces); reflexivity.
  - cbn [pieceBag setPos]. rewrite Hbag.
    destruct (reverse (a :: l)); reflexivity.
Qed.

Lemma tick_fall random s :
  collision (board s) (shape (currentPiece s)) (x (pos s)) (y (pos s) + 1)
    = Ret false ->
  tick random s = Ret (droppedTo (y (pos s) + 1) s).
Proof. intros Hc. unfold tick. rewrite Hc. reflexivity. Qed.

Lemma ticks_fall random k : forall s,
  (forall j, 0 <= j < Z.of_nat k ->
     collision (board s) (shape (currentPiece s)) (x (pos s))
       (y (pos s) + j + 1) = Ret false) ->
  ticks random k s = Ret (droppedTo (y (pos s) + Z.of_nat k) s).
Proof.
  induction k as [|k IH]; intros s Hfree.
  - simpl. rewrite Z.add_0_r, droppedTo_same. reflexivity.
  - simpl. rewrite (tick_fall random s).
    2:{ specialize (Hfree 0). rewrite Z.add_0_r in Hfree. apply Hfree. lia. }
    simpl. rewrite IH.
    + change (y (pos (droppedTo (y (pos s) + 1) s))) with (y (pos s) + 1).
      rewrite droppedTo_droppedTo. do 2 f_equal. lia.
    + intros j Hj. simpl.
      replace (y (pos s) + 1 + j + 1) with (y (pos s) + (j + 1) + 1) by lia.
      apply Hfree. lia.
Qed.

(** What the locking branch does once the merge and the spawn test have
    returned: [acc] is the state after [clearLines] and [setHoldUsed]. *)
Lemma tick_lock random s newBoard g :
  collision (board s) (shape (currentPiece s)) (x (pos s)) (y (pos s) + 1)
    = Ret true ->
  mergePiece (board s) (shape (currentPiece s)) (x (pos s)) (y (pos s))
    (color (currentPiece s)) None = Ret newBoard ->
  collision (board s) (shape (nextPiece s)) 3 0 = Ret g ->
  let acc := setHoldUsed false (clearLines newBoard s) in
  tick random s =
  Ret (if g then setGameOver true acc
       else
         let acc := setPos spawnPos (setCurrentPiece (nextPiece s) acc) in
         setNextPiece (getNextPiece random acc).1 (getNextPiece random acc).2).
Proof.
  intros Hc Hm Hg acc. unfold tick. rewrite Hc. simpl. rewrite Hm. simpl.
  rewrite Hg. simpl. destruct g; [reflexivity|].
  fold acc. destruct (getNextPiece random _) as [p acc']. reflexivity.
Qed.

Lemma hardDrop_lock random fuel s dropY newBoard g :
  gameOver s = false ->
  ghostY fuel s = Ret dropY ->
  mergePiece (board s) (shape (currentPiece s)) (x (pos s)) dropY
    (color (currentPiece s)) None = Ret newBoard ->
  collision (board s) (shape (nextPiece s)) 3 0 = Ret g ->
  let acc := setHoldUsed false (clearLines newBoard s) in
  hardDrop random fuel s =
  Ret (if g then setGameOver true acc
       else
         let acc := setCurrentPiece (nextPiece s) acc in
         setPos spawnPos
           (setNextPiece (getNextPiece random acc).1 (getNextPiece random acc).2)).
Proof.
  intros Hover Hy Hm Hg acc. unfold hardDrop. rewrite Hover, Hy. simpl.
  rewrite Hm. simpl. rewrite Hg. simpl. destruct g; [reflexivity|].
  fold acc. destruct (getNextPiece random _) as [p acc']. reflexivity.
Qed.

Lemma ticks_snoc random k : forall s,
  ticks random (S k) s = (s' ← ticks random k s; tick random s').
Proof.
  induction k as [|k IH]; intros s.
  - simpl. destruct (tick random s); reflexivity.
  - change (ticks random (S (S k)) s)
      with (s' ← tick random s; ticks random (S k) s').
    change (ticks random (S k) s)
      with (s' ← tick random s; ticks random k s').
    destruct (tick random s) as [s1| |]; simpl; [apply IH|reflexivity..].
Qed.

(** A draw touches the bag and the call counter only. *)
Lemma getNextPiece_frame random s :
  let s' := (getNextPiece random s).2 in
  board s' = board s /\ currentPiece s' = currentPiece s /\
  pos s' = pos s /\ nextPiece s' = nextPiece s /\
  holdPiece s' = holdPiece s /\ holdUsed s' = holdUsed s /\
  gameOver s' = gameOver s /\ score s' = score s /\
  linesCleared s' = linesCleared s /\ timeouts s' = timeouts s /\
  flashLines s' = flashLines s.
Proof.
  unfold getNextPiece.
  destruct (pieceBag s) as [|a l] eqn:Hbag.
  - destruct (shuffle random _ _ _) as [pieces k].
    cbn [pieceBag setRandomCalls setPieceBag].
    destruct (reverse pieces); cbn; auto 12.
  - rewrite Hbag. destruct (reverse (a :: l)); cbn; auto 12.
Qed.

(** [clearLines] leaves the pieces, the position and the flags alone. *)
Lemma clearLines_frame nb s :
  let s' := clearLines nb s in
  currentPiece s' = currentPiece s /\ pos s' = pos s /\
  nextPiece s' = nextPiece s /\ holdPiece s' = holdPiece s /\
  holdUsed s' = holdUsed s /\ gameOver s' = gameOver s /\
  pieceBag s' = pieceBag s /\ randomCalls s' = randomCalls s.
Proof.
  unfold clearLines. destruct (scanRows nb 0 [] []) as [newBoard clearedRows].
  destruct (0 <? length clearedRows)%nat; [|cbn; auto 10].
  cbn. destruct (_ >? _); cbn; auto 10.
Qed.

(** What the code does on a lock: the game-over flag is the verdict of the
    collision test of the next piece at the spawn anchor against the board
    the callback closed over, that is the board before the merge. *)
Lemma tick_lock_gameOver random s newBoard g t :
  gameOver s = false ->
  collision (board s) (shape (currentPiece s)) (x (pos s)) (y (pos s) + 1)
    = Ret true ->
  mergePiece (board s) (shape (currentPiece s)) (x (pos s)) (y (pos s))
    (color (currentPiece s)) None = Ret newBoard ->
  collision (board s) (shape (nextPiece s)) 3 0 = Ret g ->
  tick random s = Ret t ->
  gameOver t = g /\
  (g = false ->
     currentPiece t = nextPiece s /\ pos t = spawnPos /\
     nextPiece t = (getNextPiece random
                      (setPos spawnPos
                         (setCurrentPiece (nextPiece s)
                            (setHoldUsed false (clearLines newBoard s))))).1).
Proof.
  intros Hover Hc Hm Hg Ht.
  rewrite (tick_lock random s newBoard g Hc Hm Hg) in Ht. injection Ht as <-.
  destruct (clearLines_frame newBoard s) as (_ & _ & _ & _ & _ & HgoC & _).
  destruct g.
  - split; [reflexivity|discriminate].
  - cbv zeta.
    match goal with
    | |- context [getNextPiece random ?a] =>
        destruct (getNextPiece_frame random a)
          as (_ & Hcp & Hpos & _ & _ & _ & Hgo & _)
    end.
    cbn [gameOver currentPiece pos nextPiece setNextPiece] in *.
    split; [|intros _; split; [|split]].
    + rewrite Hgo. cbn. rewrite HgoC. exact Hover.
    + rewrite Hcp. reflexivity.
    + rewrite Hpos. reflexivity.
    + reflexivity.
Qed.


(** ** Facts about the concrete scenarios *)

Lemma sampleRandom_range k : (0 <= sampleRandom k < 1)%Q.
Proof.
  unfold sampleRandom, Qle, Qlt. cbn [Qnum Qden].
  pose proof (Nat.mod_upper_bound (k * 5 + 3) 7 ltac:(lia)). lia.
Qed.

Lemma wfBoard_tower : wfBoard towerBoard.
Proof.
  split; [reflexivity|]. apply Forall_app. split; apply Forall_replicate; reflexivity.
Qed.

Lemma wfBoard_fullBottom : wfBoard fullBottom.
Proof.
  split; [reflexivity|]. apply Forall_app. split.
  - apply Forall_replicate. reflexivity.
  - repeat constructor.
Qed.

(** C1, on a game played from the first render by hard-dropping every
    piece where it spawns.  After ten drops the stack under the spawn
    columns reaches row 2 and the L piece that is current rests at the spawn
    anchor.  When it locks there, the O piece that is next collides at the
    spawn anchor with the board as it is after the lock, yet [tick] (and
    [hardDrop]) leaves the game-over flag false and makes the O piece
    current at the spawn anchor, on top of the cells just merged: the spawn
    test reads the board of the render the callback closed over, which is
    the board before the merge. *)
Theorem tick_spawn_overlap :
  hardDrops sampleRandom 40 10 (initialState sampleRandom) = Ret stacked /\
  gameOver stacked = false /\
  name (currentPiece stacked) = PL /\ name (nextPiece stacked) = PO /\
  pos stacked = spawnPos /\
  collision (board stacked) (shape (currentPiece stacked)) 3 0 = Ret false /\
  collision (board stacked) (shape (currentPiece stacked)) 3 1 = Ret true /\
  exists newBoard t,
    mergePiece (board stacked) (shape (currentPiece stacked)) 3 0
      (color (currentPiece stacked)) None = Ret newBoard /\
    collision newBoard (shape (nextPiece stacked)) 3 0 = Ret true /\
    collision (board stacked) (shape (nextPiece stacked)) 3 0 = Ret false /\
    tick sampleRandom stacked = Ret t /\
    hardDrop sampleRandom 40 stacked = Ret t /\
    board t = newBoard /\
    gameOver t = false /\
    currentPiece t = nextPiece stacked /\
    pos t = spawnPos /\
    collision (board t) (shape (currentPiece t)) (x (pos t)) (y (pos t))
      = Ret true.
Proof.
  split; [vm_compute; reflexivity|].
  do 6 (split; [reflexivity|]).
  eexists _, _.
  split; [vm_compute; reflexivity|].
  split; [vm_compute; reflexivity|].
  split; [vm_compute; reflexivity|].
  split; [vm_compute; reflexivity|].
  split; [vm_compute; reflexivity|].
  repeat split.
Qed.

(** The same slip on a hand-made board: an O piece spawned on a tower that
    reaches row 2, a T piece next. *)
Example tick_spawn_overlap_tower :
  mergePiece (board lockAtTop) (shape (currentPiece lockAtTop)) 3 0
    (color (currentPiece lockAtTop)) None = Ret lockedTop /\
  collision lockedTop (shape (nextPiece lockAtTop)) 3 0 = Ret true /\
  exists t,
    tick sampleRandom lockAtTop = Ret t /\
    board t = lockedTop /\ gameOver t = false /\
    currentPiece t = nextPiece lockAtTop /\ pos t = spawnPos.
Proof.
  split; [reflexivity|]. split; [reflexivity|].
  eexists. split; [reflexivity|]. repeat split.
Qed.

(** ** Instances of the theorems on the scenarios above *)

Lemma collision_spec_witness :
  wfBoard createEmptyBoard /\
  exists r, collision createEmptyBoard (PIECES PT) 3 0 = Ret r.
Proof.
  split; [exact wfBoard_empty|].
  destruct (collision_spec createEmptyBoard (PIECES PT) 3 0 wfBoard_empty)
    as (r & Hr & _).
  exists r. exact Hr.
Defined.


Lemma bag_invariant_witness :
  (forall k, (0 <= sampleRandom k < 1)%Q) /\
  pieceBag (setPieceBag [] lockAtTop) = [] /\
  take 7 (drop (7 * 1) (drawN sampleRandom (7 * 2) (setPieceBag [] lockAtTop)).1)
    ≡ₚ PIECE_KEYS.
Proof.
  split; [exact sampleRandom_range|]. split; [reflexivity|].
  destruct (bag_invariant sampleRandom sampleRandom_range 2
              (setPieceBag [] lockAtTop) eq_refl) as (_ & _ & _ & Hruns).
  exact (proj1 (Hruns 1%nat (le_n 2))).
Defined.

Lemma ghostY_terminates_witness :
  wfBoard (board lockAtTop) /\
  setCell (shape (currentPiece lockAtTop)) 0 0 /\
  exists fuel0 ystar,
    forall fuel, (fuel0 <= fuel)%nat -> ghostY fuel lockAtTop = Ret ystar.
Proof.
  assert (Hset : setCell (shape (currentPiece lockAtTop)) 0 0).
  { exists [Num 1; Num 1], (Num 1). repeat split; reflexivity. }
  split; [exact wfBoard_tower|]. split; [exact Hset|].
  destruct (ghostY_terminates lockAtTop wfBoard_tower) as [Hterm _].
  destruct Hterm as (fuel0 & ystar & Hret & _).
  - exists 0%nat, 0%nat. exact Hset.
  - exists fuel0, ystar. exact Hret.
Defined.


Lemma rotate_spec_witness :
  gameOver kickScene = false /\
  rotate Cw kickScene
  = Ret (rotatedTo (cells [[1; 1]; [0; 1]; [0; 1]]) (-1) 1 1 kickScene).
Proof.
  split; [reflexivity|].
  destruct (rotate_spec Cw kickScene) as [_ H].
  assert (Hname : name (currentPiece kickScene) <> PO) by discriminate.
  assert (Hrot : 0 <= rotation (pos kickScene) <= 3) by (simpl; lia).
  destruct (H eq_refl Hname Hrot (cells [[1; 1]; [0; 1]; [0; 1]]) eq_refl)
    as [Hfirst _].
  apply (Hfirst [(0, 0); (-1, 0)] (-1) 1 [(0, -2); (-1, -2)]).
  - vm_compute. reflexivity.
  - intros k Hk. apply elem_of_cons in Hk as [->|Hk]; [reflexivity|].
    apply list_elem_of_singleton in Hk as ->. reflexivity.
  - reflexivity.
Defined.


(** * More properties of the engine *)

(** ** Shapes along rotations *)

Lemma setCell_numAt sh dy dx :
  setCell sh dy dx <-> exists v, numAt sh dy dx = Some v /\ truthy v = true.
Proof.
  unfold setCell, numAt. split.
  - intros (row & c & Hrow & Hc & Ht). exists c. rewrite Hrow. auto.
  - intros (v & Hv & Ht). destruct (sh !! dy) as [row|] eqn:Hrow; [|discriminate].
    exists row, v. auto.
Qed.

Lemma setCell_rect rows cols sh dy dx :
  rect rows cols sh -> setCell sh dy dx -> (dy < rows)%nat /\ (dx < cols)%nat.
Proof.
  intros [Hlen HF] (row & c & Hrow & Hc & _).
  rewrite Forall_lookup in HF. pose proof (HF dy row Hrow) as Hl.
  apply lookup_lt_Some in Hrow, Hc. lia.
Qed.

Lemma PIECES_wfShape nm : wfShape (PIECES nm).
Proof.
  destruct nm;
    [exists 1%nat, 4%nat | exists 2%nat, 2%nat | exists 2%nat, 3%nat
    | exists 2%nat, 3%nat | exists 2%nat, 3%nat | exists 2%nat, 3%nat
    | exists 2%nat, 3%nat];
    (split; [lia|]); (split; [lia|]);
    (split; [split; [reflexivity | repeat constructor]|]);
    exists 0%nat, 1%nat; eexists _, _;
    (split; [reflexivity|]); (split; [reflexivity|]); reflexivity.
Qed.

(** Either rotation of a proper non-empty matrix with a set cell returns
    such a matrix again, with the dimensions exchanged. *)
Lemma rotateMatrix_wfShape sh dir :
  wfShape sh -> exists sh', rotateMatrix sh dir = Ret sh' /\ wfShape sh'.
Proof.
  intros (rows & cols & Hr & Hc & Hrect & dy & dx & Hset).
  destruct (setCell_rect rows cols sh dy dx Hrect Hset) as [Hdy Hdx].
  apply setCell_numAt in Hset as (v & Hv & Ht).
  destruct dir.
  - destruct (rotateMatrix_cw_spec rows cols sh Hrect Hr) as (sh' & E & R & G).
    exists sh'. split; [exact E|]. exists cols, rows.
    repeat (split; [assumption|]).
    exists dx, (rows - 1 - dy)%nat. apply setCell_numAt. exists v.
    split; [|exact Ht]. rewrite G by lia.
    replace (rows - 1 - (rows - 1 - dy))%nat with dy by lia. exact Hv.
  - destruct (rotateMatrix_ccw_spec rows cols sh Hrect Hr) as (sh' & E & R & G).
    exists sh'. split; [exact E|]. exists cols, rows.
    repeat (split; [assumption|]).
    exists dx, dy. apply setCell_numAt. exists v.
    split; [|exact Ht]. rewrite G by lia. exact Hv.
Qed.

(** ** The invariant under the state setters *)

Lemma Inv_setPos p s : 0 <= rotation p <= 3 -> Inv s -> Inv (setPos p s).
Proof. intros Hp []. constructor; assumption. Qed.

Lemma Inv_setCurrentPiece p s :
  wfShape (shape p) -> color p = COLORS (name p) ->
  Inv s -> Inv (setCurrentPiece p s).
Proof. intros Hsh Hcol []. constructor; try assumption. split; assumption. Qed.

Lemma Inv_setNextPiece p s : canonical p -> Inv s -> Inv (setNextPiece p s).
Proof. intros Hp []. constructor; assumption. Qed.

Lemma Inv_setHoldPiece hp s :
  (forall p, hp = Some p -> canonical p) -> Inv s -> Inv (setHoldPiece hp s).
Proof. intros Hp []. constructor; assumption. Qed.

Lemma Inv_setHoldUsed v s : Inv s -> Inv (setHoldUsed v s).
Proof. intros []. constructor; assumption. Qed.

Lemma Inv_setGameOver v s : Inv s -> Inv (setGameOver v s).
Proof. intros []. constructor; assumption. Qed.

Lemma Inv_setBoard b s :
  wfBoard b -> noFullRow b -> Inv s -> Inv (setBoard b s).
Proof. intros Hwf Hno []. constructor; try assumption. split; assumption. Qed.

Lemma Inv_setFlashLines v s : Inv s -> Inv (setFlashLines v s).
Proof. intros []. constructor; assumption. Qed.

Lemma Inv_setTimeElapsed v s : 0 <= v -> Inv s -> Inv (setTimeElapsed v s).
Proof. intros Hv []. constructor; assumption. Qed.

Lemma Inv_setBag bag k s :
  NoDup bag -> Inv s -> Inv (setRandomCalls k (setPieceBag bag s)).
Proof. intros Hnd []. constructor; assumption. Qed.

Lemma canonical_wfShape p : canonical p -> wfShape (shape p).
Proof. intros [-> _]. apply PIECES_wfShape. Qed.

(** ** Draws and line clears keep the invariant *)

(** A draw returns a piece built from the tables and touches only the bag
    and the count of [Math.random()] calls. *)
Lemma getNextPiece_shape random s :
  exists nm bag k,
    getNextPiece random s
    = (mkPiece (PIECES nm) (COLORS nm) nm,
       setRandomCalls k (setPieceBag bag s)) /\
    (NoDup (pieceBag s) -> NoDup bag).
Proof.
  unfold getNextPiece. destruct (pieceBag s) as [|a l] eqn:Hbag.
  - pose proof (shuffle_perm random (length PIECE_KEYS - 1) PIECE_KEYS
                  (randomCalls s)) as [Hp _].
    destruct (shuffle random _ _ _) as [pieces k].
    cbn [fst pieceBag setRandomCalls setPieceBag] in *.
    assert (Hnd : NoDup pieces) by (rewrite Hp; apply PIECE_KEYS_NoDup).
    destruct (reverse pieces) as [|nm rest] eqn:Hrev.
    + exists PI, pieces, k. split; [reflexivity|]. intros _. exact Hnd.
    + exists nm, (reverse rest), k. split; [reflexivity|]. intros _.
      rewrite reverse_Permutation.
      rewrite <- (reverse_Permutation pieces), Hrev in Hnd.
      apply NoDup_cons in Hnd as [_ Hnd]. exact Hnd.
  - rewrite Hbag. destruct (reverse (a :: l)) as [|nm rest] eqn:Hrev.
    + exists PI, (a :: l), (randomCalls s). split.
      * f_equal. destruct s. simpl in Hbag. subst. reflexivity.
      * auto.
    + exists nm, (reverse rest), (randomCalls s). split; [reflexivity|].
      intros Hnd. rewrite reverse_Permutation.
      rewrite <- (reverse_Permutation (a :: l)), Hrev in Hnd.
      apply NoDup_cons in Hnd as [_ Hnd]. exact Hnd.
Qed.

Lemma getNextPiece_Inv random s :
  Inv s ->
  canonical (getNextPiece random s).1 /\ Inv (getNextPiece random s).2.
Proof.
  intros HI. destruct (getNextPiece_shape random s) as (nm & bag & k & E & Hnd).
  rewrite E. split; [split; reflexivity|].
  apply Inv_setBag; [apply Hnd; apply HI | exact HI].
Qed.

Lemma fullFrom_nil_inv b idx : fullFrom b idx = [] -> noFullRow b.
Proof.
  revert idx. induction b as [|row rest IH]; intros idx Hnil r Hr.
  - apply elem_of_nil in Hr. contradiction.
  - simpl in Hnil. destruct (rowFull row) eqn:Hfull; [discriminate|].
    apply elem_of_cons in Hr as [->|Hr]; [exact Hfull|]. eapply IH; eauto.
Qed.

Lemma compacted_noFullRow b :
  noFullRow (compacted (length (fullFrom b 0)) (survivors b)).
Proof.
  intros row Hrow. unfold compacted in Hrow.
  apply elem_of_app in Hrow as [Hrow|Hrow].
  - apply elem_of_replicate in Hrow as [-> _]. reflexivity.
  - unfold survivors in Hrow. apply list_elem_of_filter in Hrow as [Hrow _].
    exact Hrow.
Qed.

Lemma clearLines_Inv nb s : wfBoard nb -> Inv s -> Inv (clearLines nb s).
Proof.
  intros Hwf HI. unfold clearLines. rewrite scanRows_eq. simpl.
  destruct (fullFrom nb 0) as [|i cr] eqn:Hfull.
  - simpl. apply Inv_setBoard; [exact Hwf| |exact HI].
    eapply fullFrom_nil_inv; eauto.
  - pose proof (compacted_wf nb Hwf) as Hcw.
    pose proof (compacted_noFullRow nb) as Hcn.
    rewrite Hfull in Hcw, Hcn.
    destruct HI as [Hb Hto Hcur Hnext Hhold Hrot Hsp [Hsc Hlc] Htime Hbag].
    change (0 <? length (i :: cr))%nat with true. cbv iota.
    set (n := Z.of_nat (length (i :: cr))).
    assert (Hn : 0 <= n) by (unfold n; lia).
    destruct (_ >? _); constructor; cbn; try assumption;
      try (apply Forall_app; split; [assumption|];
           constructor; [split; assumption|constructor]);
      try lia.
Qed.

(** ** Every operation returns and keeps the invariant *)

Lemma spawnPos_rotation : 0 <= rotation spawnPos <= 3.
Proof. simpl. lia. Qed.

Lemma tick_lock_Inv random s nb (g : bool) :
  Inv s -> wfBoard nb ->
  let acc := setHoldUsed false (clearLines nb s) in
  Inv (if g then setGameOver true acc
       else
         let acc := setPos spawnPos (setCurrentPiece (nextPiece s) acc) in
         setNextPiece (getNextPiece random acc).1 (getNextPiece random acc).2).
Proof.
  intros HI Hwf acc.
  assert (Hacc : Inv acc) by (apply Inv_setHoldUsed, clearLines_Inv; assumption).
  destruct g; [apply Inv_setGameOver; exact Hacc|]. cbv zeta.
  pose proof (inv_next s HI) as Hnext.
  match goal with
  | |- context [getNextPiece random ?a] =>
      destruct (getNextPiece_Inv random a) as [Hp HI']
  end.
  - apply Inv_setPos; [apply spawnPos_rotation|].
    apply Inv_setCurrentPiece; [apply canonical_wfShape; exact Hnext
                               |apply Hnext|exact Hacc].
  - apply Inv_setNextPiece; assumption.
Qed.

Lemma hardDrop_lock_Inv random s nb (g : bool) :
  Inv s -> wfBoard nb ->
  let acc := setHoldUsed false (clearLines nb s) in
  Inv (if g then setGameOver true acc
       else
         let acc := setCurrentPiece (nextPiece s) acc in
         setPos spawnPos
           (setNextPiece (getNextPiece random acc).1 (getNextPiece random acc).2)).
Proof.
  intros HI Hwf acc.
  assert (Hacc : Inv acc) by (apply Inv_setHoldUsed, clearLines_Inv; assumption).
  destruct g; [apply Inv_setGameOver; exact Hacc|]. cbv zeta.
  pose proof (inv_next s HI) as Hnext.
  match goal with
  | |- context [getNextPiece random ?a] =>
      destruct (getNextPiece_Inv random a) as [Hp HI']
  end.
  - apply Inv_setCurrentPiece; [apply canonical_wfShape; exact Hnext
                               |apply Hnext|exact Hacc].
  - apply Inv_setPos; [apply spawnPos_rotation|].
    apply Inv_setNextPiece; assumption.
Qed.

Lemma tick_ret_Inv random s :
  Inv s -> exists s', tick random s = Ret s' /\ Inv s'.
Proof.
  intros HI. pose proof (proj1 (inv_board s HI)) as Hwf.
  destruct (collision_ret (board s) (shape (currentPiece s)) (x (pos s))
              (y (pos s) + 1) Hwf) as ([|] & Hc & _).
  - destruct (mergePiece_ret (board s) (shape (currentPiece s)) (x (pos s))
                (y (pos s)) (color (currentPiece s)) None Hwf)
      as (nb & Hm & Hwf' & _).
    destruct (collision_ret (board s) (shape (nextPiece s)) 3 0 Hwf)
      as (g & Hg & _).
    eexists. split; [exact (tick_lock random s nb g Hc Hm Hg)|].
    apply tick_lock_Inv; assumption.
  - eexists. split; [exact (tick_fall random s Hc)|].
    apply Inv_setPos; [apply HI|exact HI].
Qed.

Lemma hardDrop_Inv random fuel s s' :
  Inv s -> hardDrop random fuel s = Ret s' -> Inv s'.
Proof.
  intros HI Hrun. pose proof (proj1 (inv_board s HI)) as Hwf.
  destruct (gameOver s) eqn:Hover.
  - unfold hardDrop in Hrun. rewrite Hover in Hrun. injection Hrun as <-.
    exact HI.
  - destruct (ghostY fuel s) as [dropY| |] eqn:Hy.
    2,3: unfold hardDrop in Hrun; rewrite Hover, Hy in Hrun; discriminate.
    destruct (mergePiece_ret (board s) (shape (currentPiece s)) (x (pos s))
                dropY (color (currentPiece s)) None Hwf)
      as (nb & Hm & Hwf' & _).
    destruct (collision_ret (board s) (shape (nextPiece s)) 3 0 Hwf)
      as (g & Hg & _).
    rewrite (hardDrop_lock random fuel s dropY nb g Hover Hy Hm Hg) in Hrun.
    injection Hrun as <-. apply hardDrop_lock_Inv; assumption.
Qed.

Lemma hardDrop_ret random s :
  Inv s ->
  exists fuel0, forall fuel, (fuel0 <= fuel)%nat ->
    exists s', hardDrop random fuel s = Ret s'.
Proof.
  intros HI. pose proof (proj1 (inv_board s HI)) as Hwf.
  destruct (gameOver s) eqn:Hover.
  - exists 0%nat. intros fuel _. exists s. unfold hardDrop.
    rewrite Hover. reflexivity.
  - destruct (proj1 (inv_current s HI)) as (_ & _ & _ & _ & _ & dy & dx & Hset).
    destruct (descend_spec (board s) (shape (currentPiece s)) (x (pos s)) dy dx
                Hwf Hset
                (Z.to_nat (BOARD_HEIGHT - (y (pos s) + 1 + Z.of_nat dy)))
                (y (pos s))) as (ystar & Hd & _); [lia|].
    destruct (mergePiece_ret (board s) (shape (currentPiece s)) (x (pos s))
                ystar (color (currentPiece s)) None Hwf) as (nb & Hm & _).
    destruct (collision_ret (board s) (shape (nextPiece s)) 3 0 Hwf)
      as (g & Hg & _).
    eexists. intros fuel Hfuel. eexists.
    apply (hardDrop_lock random fuel s ystar nb g Hover); [|exact Hm|exact Hg].
    unfold ghostY. eapply descend_mono; eauto.
Qed.

Lemma move_ret_Inv dx s :
  Inv s -> exists s', move dx s = Ret s' /\ Inv s'.
Proof.
  intros HI. unfold move. destruct (gameOver s); [eauto|].
  destruct (collision_ret (board s) (shape (currentPiece s)) (x (pos s) + dx)
              (y (pos s)) (proj1 (inv_board s HI))) as ([|] & Hc & _);
    rewrite Hc; simpl; eexists; (split; [reflexivity|]); [exact HI|].
  apply Inv_setPos; [apply HI|exact HI].
Qed.

(** The loop over the kick candidates either changes nothing or commits a
    candidate of the list that does not collide. *)
Lemma tryKicks_cases kicks rotatedShape to s :
  wfBoard (board s) ->
  exists s', tryKicks kicks rotatedShape to s = Ret s' /\
    (s' = s \/
     exists kx ky, (kx, ky) ∈ kicks /\
       collision (board s) rotatedShape (x (pos s) + kx) (y (pos s) - ky)
         = Ret false /\
       s' = rotatedTo rotatedShape kx ky to s).
Proof.
  intros Hwf. induction kicks as [|[kx ky] rest IH].
  - exists s. split; [reflexivity|]. left. reflexivity.
  - simpl.
    destruct (collision_ret (board s) rotatedShape (x (pos s) + kx)
                (y (pos s) - ky) Hwf) as ([|] & Hc & _); rewrite Hc; simpl.
    + destruct IH as (s' & Hs' & Hcase). exists s'. split; [exact Hs'|].
      destruct Hcase as [->|(kx' & ky' & Hin & Hfree & ->)]; [left; auto|].
      right. exists kx', ky'. split; [right; exact Hin|]. auto.
    + eexists. split; [reflexivity|]. right. exists kx, ky.
      split; [left|]. auto.
Qed.

Lemma rotate_ret_Inv dir s :
  Inv s -> exists s', rotate dir s = Ret s' /\ Inv s'.
Proof.
  intros HI. unfold rotate. destruct (gameOver s); [eauto|].
  destruct (decide (name (currentPiece s) = PO)); [eauto|].
  destruct (rotateMatrix_wfShape (shape (currentPiece s)) dir
              (proj1 (inv_current s HI))) as (rs & Hrs & Hwf).
  rewrite Hrs. simpl.
  match goal with
  | |- exists s', tryKicks ?kicks rs ?to s = Ret s' /\ _ =>
      destruct (tryKicks_cases kicks rs to s (proj1 (inv_board s HI)))
        as (s' & Hs' & Hcase);
      assert (Hto : 0 <= to <= 3)
  end.
  { pose proof (inv_rotation s HI).
    rewrite Z.rem_mod_nonneg by (destruct dir; simpl; lia).
    pose proof (Z.mod_pos_bound (rotation (pos s) + dirZ dir + 4) 4). lia. }
  exists s'. split; [exact Hs'|].
  destruct Hcase as [->|(kx & ky & _ & _ & ->)]; [exact HI|].
  apply Inv_setPos; [exact Hto|].
  apply Inv_setCurrentPiece; [exact Hwf|apply HI|exact HI].
Qed.

Lemma hold_Inv random s : Inv s -> Inv (hold random s).
Proof.
  intros HI. unfold hold. destruct (gameOver s || holdUsed s); [exact HI|].
  assert (Hcan : canonical
            (mkPiece (PIECES (name (currentPiece s))) (color (currentPiece s))
               (name (currentPiece s)))).
  { split; [reflexivity|]. apply HI. }
  apply Inv_setHoldUsed. apply Inv_setPos; [apply spawnPos_rotation|].
  destruct (holdPiece s) as [held|] eqn:Hheld.
  - apply Inv_setHoldPiece; [intros p [= <-]; exact Hcan|].
    pose proof (inv_hold s HI held Hheld) as Hh.
    apply Inv_setCurrentPiece;
      [apply canonical_wfShape; exact Hh|apply Hh|exact HI].
  - pose proof (inv_next s HI) as Hnext.
    match goal with
    | |- context [getNextPiece random ?a] =>
        destruct (getNextPiece_Inv random a) as [Hp HI']
    end.
    + apply Inv_setCurrentPiece;
        [apply canonical_wfShape; exact Hnext|apply Hnext|].
      apply Inv_setHoldPiece; [intros p [= <-]; exact Hcan|exact HI].
    + destruct (getNextPiece random _) as [p acc].
      apply Inv_setNextPiece; assumption.
Qed.

Lemma fireTimeout_Inv s : Inv s -> Inv (fireTimeout s).
Proof.
  intros HI. unfold fireTimeout.
  destruct (timeouts s) as [|[n nb] rest] eqn:Hto; [exact HI|].
  pose proof (inv_timeouts s HI) as HF. rewrite Hto in HF.
  apply Forall_cons in HF as [[Hwf Hno] HF].
  apply Inv_setFlashLines. apply Inv_setBoard; [exact Hwf|exact Hno|].
  destruct HI. constructor; assumption.
Qed.

Lemma secondTimer_Inv s : Inv s -> Inv (secondTimer s).
Proof.
  intros HI. unfold secondTimer.
  apply Inv_setTimeElapsed; [|exact HI]. pose proof (inv_time s HI). lia.
Qed.

Lemma emptyBoard_noFullRow : noFullRow createEmptyBoard.
Proof.
  intros row Hrow. apply elem_of_replicate in Hrow as [-> _]. reflexivity.
Qed.

Lemma Inv_reset s :
  Inv s ->
  Inv (setFlashLines []
         (setHoldUsed false
            (setGameOver false
               (setDropSpeed 1000
                  (setTimeElapsed 0 (setLinesCleared 0 (setScore 0 s))))))).
Proof. intros []. constructor; cbn; try assumption; lia. Qed.

Lemma restart_Inv random s : Inv s -> Inv (restart random s).
Proof.
  intros HI. unfold restart.
  assert (H0 : Inv (setBoard createEmptyBoard (setPieceBag [] s))).
  { apply Inv_setBoard; [apply wfBoard_empty|apply emptyBoard_noFullRow|].
    destruct HI. constructor; try assumption. apply NoDup_nil_2. }
  destruct (getNextPiece_Inv random _ H0) as [Hp1 H1].
  destruct (getNextPiece random (setBoard createEmptyBoard (setPieceBag [] s)))
    as [p1 a1]. cbn [fst snd] in Hp1, H1.
  assert (H1' : Inv (setCurrentPiece p1 a1)).
  { apply Inv_setCurrentPiece;
      [apply canonical_wfShape; exact Hp1|apply Hp1|exact H1]. }
  destruct (getNextPiece_Inv random _ H1') as [Hp2 H2].
  destruct (getNextPiece random (setCurrentPiece p1 a1)) as [p2 a2].
  cbn [fst snd] in Hp2, H2.
  apply Inv_reset. apply Inv_setPos; [apply spawnPos_rotation|].
  apply Inv_setHoldPiece; [discriminate|].
  apply Inv_setNextPiece; assumption.
Qed.

Lemma initialState_Inv random : Inv (initialState random).
Proof.
  unfold initialState.
  set (s0 := mkState createEmptyBoard (mkPiece [] "" PI) spawnPos
               (mkPiece [] "" PI) None false false 0 0 0 1000 [] [] 0 []).
  destruct (getNextPiece_shape random s0) as (n1 & bag1 & k1 & E1 & Hnd1).
  rewrite E1.
  set (s1 := setCurrentPiece (mkPiece (PIECES n1) (COLORS n1) n1)
               (setRandomCalls k1 (setPieceBag bag1 s0))).
  destruct (getNextPiece_shape random s1) as (n2 & bag2 & k2 & E2 & Hnd2).
  rewrite E2.
  constructor; cbn.
  - split; [apply wfBoard_empty|apply emptyBoard_noFullRow].
  - constructor.
  - split; [apply PIECES_wfShape|reflexivity].
  - split; reflexivity.
  - discriminate.
  - lia.
  - lia.
  - lia.
  - lia.
  - apply Hnd2. cbn. apply Hnd1. apply NoDup_nil_2.
Qed.

Lemma step_Inv random s s' : Inv s -> step random s s' -> Inv s'.
Proof.
  intros HI Hstep. destruct Hstep as
    [dx s s' H|dir s s' H|s|fuel s s' H|s s' H|s|s|s].
  - destruct (move_ret_Inv dx s HI) as (t & Ht & HIt). congruence.
  - destruct (rotate_ret_Inv dir s HI) as (t & Ht & HIt). congruence.
  - apply hold_Inv. exact HI.
  - eapply hardDrop_Inv; eauto.
  - unfold gameLoop in H.
    destruct (tick_ret_Inv random s HI) as (t & Ht & HIt). congruence.
  - apply fireTimeout_Inv. exact HI.
  - apply secondTimer_Inv. exact HI.
  - apply restart_Inv. exact HI.
Qed.

(** The invariant holds all along a game. *)
Lemma reachable_Inv random s : reachable random s -> Inv s.
Proof.
  induction 1 as [|s s' _ IH Hstep].
  - apply initialState_Inv.
  - eapply step_Inv; eauto.
Qed.

(** ** What holds in every state of a game *)

(** X1. In every state of a game the board has 20 rows of 10 cells and no
    full row, and so has every board that a pending line-clear callback is
    going to install. *)
Theorem board_stays_wf (random : nat -> Q) (s : State) :
  validRandom random -> reachable random s ->
  wfBoard (board s) /\ noFullRow (board s) /\
  forall n nb, (n, nb) ∈ timeouts s ->
    wfBoard (compacted n nb) /\ noFullRow (compacted n nb).
Proof.
  intros _ Hreach. pose proof (reachable_Inv random s Hreach) as HI.
  split; [apply HI|]. split; [apply HI|].
  intros n nb Hin. pose proof (inv_timeouts s HI) as HF.
  rewrite Forall_forall in HF. exact (HF (n, nb) Hin).
Qed.

Lemma board_stays_wf_witness :
  validRandom sampleRandom /\ reachable sampleRandom (initialState sampleRandom)
  /\ wfBoard (board (initialState sampleRandom)).
Proof.
  split; [exact sampleRandom_range|]. split; [apply reach_init|].
  exact (proj1 (board_stays_wf sampleRandom (initialState sampleRandom)
                  sampleRandom_range (reach_init sampleRandom))).
Defined.

(** X2. In every state of a game no call raises: [move], [rotate] and
    the timer-driven tick return a state, [ghostY] and [hardDrop] return
    once their loop is given enough iterations, and the state returned is
    again a state of the game. *)
Theorem engine_never_raises (random : nat -> Q) (s : State) :
  validRandom random -> reachable random s ->
  (forall dx, exists s', move dx s = Ret s' /\ reachable random s') /\
  (forall dir, exists s', rotate dir s = Ret s' /\ reachable random s') /\
  (exists s', gameLoop random s = Ret s' /\ reachable random s') /\
  (exists fuel0, forall fuel, (fuel0 <= fuel)%nat ->
     (exists dropY, ghostY fuel s = Ret dropY) /\
     exists s', hardDrop random fuel s = Ret s' /\ reachable random s').
Proof.
  intros _ Hreach. pose proof (reachable_Inv random s Hreach) as HI.
  split; [|split; [|split]].
  - intros dx. destruct (move_ret_Inv dx s HI) as (s' & Hs' & _).
    exists s'. split; [exact Hs'|].
    eapply reach_step; [exact Hreach|]. eapply step_move; eauto.
  - intros dir. destruct (rotate_ret_Inv dir s HI) as (s' & Hs' & _).
    exists s'. split; [exact Hs'|].
    eapply reach_step; [exact Hreach|]. eapply step_rotate; eauto.
  - assert (exists s', gameLoop random s = Ret s') as [s' Hs'].
    { unfold gameLoop.
      destruct (tick_ret_Inv random s HI) as (s' & Hs' & _). eauto. }
    exists s'. split; [exact Hs'|].
    eapply reach_step; [exact Hreach|]. eapply step_gameLoop; eauto.
  - destruct (hardDrop_ret random s HI) as [fuel1 Hdrop].
    destruct (proj1 (inv_current s HI)) as (_ & _ & _ & _ & _ & dy & dx & Hset).
    destruct (descend_spec (board s) (shape (currentPiece s)) (x (pos s)) dy dx
                (proj1 (inv_board s HI)) Hset
                (Z.to_nat (BOARD_HEIGHT - (y (pos s) + 1 + Z.of_nat dy)))
                (y (pos s))) as (ystar & Hd & _); [lia|].
    exists (Nat.max fuel1
              (S (Z.to_nat (BOARD_HEIGHT - (y (pos s) + 1 + Z.of_nat dy))))).
    intros fuel Hfuel. split.
    + exists ystar. unfold ghostY. eapply descend_mono; [|exact Hd]. lia.
    + destruct (Hdrop fuel) as [s' Hs']; [lia|].
      exists s'. split; [exact Hs'|].
      eapply reach_step; [exact Hreach|]. eapply step_hardDrop; eauto.
Qed.

Lemma engine_never_raises_witness :
  validRandom sampleRandom /\
  exists s', move 1 (initialState sampleRandom) = Ret s'.
Proof.
  split; [exact sampleRandom_range|].
  destruct (engine_never_raises sampleRandom (initialState sampleRandom)
              sampleRandom_range (reach_init sampleRandom)) as [Hmove _].
  destruct (Hmove 1) as (s' & Hs' & _). exists s'. exact Hs'.
Defined.

(** X3. In every state of a game the score is 100 times the number of
    lines cleared, and neither that number nor the elapsed time is
    negative. *)
Theorem score_is_lines (random : nat -> Q) (s : State) :
  validRandom random -> reachable random s ->
  score s = 100 * linesCleared s /\ 0 <= linesCleared s /\ 0 <= timeElapsed s.
Proof.
  intros _ Hreach. pose proof (reachable_Inv random s Hreach) as HI.
  destruct (inv_score s HI). split; [assumption|]. split; [assumption|].
  apply HI.
Qed.

Lemma score_is_lines_witness :
  validRandom sampleRandom /\
  score (initialState sampleRandom)
  = 100 * linesCleared (initialState sampleRandom).
Proof.
  split; [exact sampleRandom_range|].
  exact (proj1 (score_is_lines sampleRandom (initialState sampleRandom)
                  sampleRandom_range (reach_init sampleRandom))).
Defined.

(** X4. In every state of a game the fall period is between 100 and
    1000 ms, so the delay the fall timer is re-armed with is between 50 and
    1000 ms whether or not the soft drop is held. *)
Theorem speed_bounds (random : nat -> Q) (s : State) (softDrop : bool) :
  validRandom random -> reachable random s ->
  100 <= dropSpeed s <= 1000 /\ 50 <= intervalDuration softDrop s <= 1000.
Proof.
  intros _ Hreach. pose proof (reachable_Inv random s Hreach) as HI.
  pose proof (inv_speed s HI) as Hsp. split; [exact Hsp|].
  unfold intervalDuration. destruct softDrop; lia.
Qed.

Lemma speed_bounds_witness :
  validRandom sampleRandom /\
  100 <= dropSpeed (initialState sampleRandom) <= 1000.
Proof.
  split; [exact sampleRandom_range|].
  exact (proj1 (speed_bounds sampleRandom (initialState sampleRandom) true
                  sampleRandom_range (reach_init sampleRandom))).
Defined.

(** X5. In every state of a game the next piece and the held piece (when
    there is one) carry the shape and the colour that the tables give for
    their name; the current piece carries the colour of its name and a
    proper non-empty shape with a set cell; the rotation index is one of
    0, 1, 2, 3; and no name occurs twice in the bag. *)
Theorem pieces_stay_wf (random : nat -> Q) (s : State) :
  validRandom random -> reachable random s ->
  canonical (nextPiece s) /\
  (forall p, holdPiece s = Some p -> canonical p) /\
  wfShape (shape (currentPiece s)) /\
  color (currentPiece s) = COLORS (name (currentPiece s)) /\
  0 <= rotation (pos s) <= 3 /\
  NoDup (pieceBag s).
Proof.
  intros _ Hreach. pose proof (reachable_Inv random s Hreach) as HI.
  destruct HI as [? ? [? ?] ? ? ? ? ? ? ?]. auto 10.
Qed.

Lemma pieces_stay_wf_witness :
  validRandom sampleRandom /\
  canonical (nextPiece (initialState sampleRandom)).
Proof.
  split; [exact sampleRandom_range|].
  exact (proj1 (pieces_stay_wf sampleRandom (initialState sampleRandom)
                  sampleRandom_range (reach_init sampleRandom))).
Defined.

(** ** Moving and rotating *)

Lemma move_cases dx s s' :
  move dx s = Ret s' ->
  s' = s \/
  (gameOver s = false /\
   collision (board s) (shape (currentPiece s)) (x (pos s) + dx) (y (pos s))
     = Ret false /\
   s' = setPos (mkPosition (x (pos s) + dx) (y (pos s)) (rotation (pos s))) s).
Proof.
  unfold move. destruct (gameOver s); [intros [= <-]; auto|].
  destruct (collision _ _ _ _) as [[|]| |]; simpl; intros [= <-]; auto.
Qed.

Lemma rotate_cases dir s s' :
  wfBoard (board s) -> rotate dir s = Ret s' ->
  s' = s \/
  exists rs kx ky to,
    rotateMatrix (shape (currentPiece s)) dir = Ret rs /\
    collision (board s) rs (x (pos s) + kx) (y (pos s) - ky) = Ret false /\
    s' = rotatedTo rs kx ky to s.
Proof.
  intros Hwf. unfold rotate. destruct (gameOver s); [intros [= <-]; auto|].
  destruct (decide _); [intros [= <-]; auto|].
  destruct (rotateMatrix _ _) as [rs| |]; simpl; try discriminate.
  intros Hrun.
  match type of Hrun with
  | tryKicks ?kicks rs ?to s = _ =>
      destruct (tryKicks_cases kicks rs to s Hwf)
        as (t & Ht & [->|(kx & ky & _ & Hfree & ->)]);
      rewrite Ht in Hrun; injection Hrun as <-; [auto|];
      right; exists rs, kx, ky, to; auto
  end.
Qed.

(** X6. A piece that does not collide where it is still does not collide
    after [move], after [rotate] and after a tick that does not lock, and
    none of the three changes the board. *)
Theorem legal_preserved (random : nat -> Q) (s s' : State) (dx : Z)
  (dir : Dir) :
  wfBoard (board s) -> legal s ->
  (move dx s = Ret s' \/ rotate dir s = Ret s' \/
   (collision (board s) (shape (currentPiece s)) (x (pos s)) (y (pos s) + 1)
      = Ret false /\ tick random s = Ret s')) ->
  legal s' /\ board s' = board s.
Proof.
  intros Hwf Hlegal [Hmove|[Hrot|[Hfree Htick]]].
  - apply move_cases in Hmove as [->|(_ & Hc & ->)]; [auto|].
    split; [exact Hc|reflexivity].
  - apply (rotate_cases dir s s' Hwf) in Hrot
      as [->|(rs & kx & ky & to & _ & Hc & ->)]; [auto|].
    split; [exact Hc|reflexivity].
  - rewrite (tick_fall random s Hfree) in Htick. injection Htick as <-.
    split; [exact Hfree|reflexivity].
Qed.

Lemma legal_preserved_witness :
  wfBoard (board kickScene) /\ legal kickScene /\
  exists s', rotate Cw kickScene = Ret s' /\ legal s'.
Proof.
  assert (Hlegal : legal kickScene) by reflexivity.
  split; [exact wfBoard_tower|]. split; [exact Hlegal|].
  eexists. split; [reflexivity|].
  refine (proj1 (legal_preserved sampleRandom kickScene _ 0 Cw wfBoard_tower
                   Hlegal (or_intror (or_introl _)))).
  reflexivity.
Defined.

(** X7. A move that succeeds is undone by the opposite move: from a piece
    that does not collide where it is, [move(dx)] into a free position
    followed by [move(-dx)] gives the starting state back. *)
Theorem move_round_trip (s : State) (dx : Z) :
  gameOver s = false -> legal s ->
  collision (board s) (shape (currentPiece s)) (x (pos s) + dx) (y (pos s))
    = Ret false ->
  exists s', move dx s = Ret s' /\ x (pos s') = x (pos s) + dx /\
             move (- dx) s' = Ret s.
Proof.
  intros Hover Hlegal Hfree. eexists. split; [|split].
  - unfold move. rewrite Hover, Hfree. reflexivity.
  - reflexivity.
  - unfold move. cbn [gameOver setPos board currentPiece pos x y rotation].
    rewrite Hover. replace (x (pos s) + dx + - dx) with (x (pos s)) by lia.
    unfold legal in Hlegal. rewrite Hlegal. simpl.
    destruct s as [? ? [? ? ?] ? ? ? ? ? ? ? ? ? ? ? ?]. reflexivity.
Qed.

Lemma move_round_trip_witness :
  gameOver kickScene = false /\ legal kickScene /\
  exists s', move 1 kickScene = Ret s' /\ move (- (1)) s' = Ret kickScene.
Proof.
  split; [reflexivity|]. split; [reflexivity|].
  destruct (move_round_trip kickScene 1 eq_refl eq_refl eq_refl)
    as (s' & H1 & _ & H2).
  exists s'. split; assumption.
Defined.

(** Every kick list starts with the candidate [(0, 0)]. *)
Lemma kicks_head nm dir from :
  0 <= from <= 3 ->
  exists rest,
    default [(0, 0)]
      (WALL_KICKS nm !! kickKey from (Z.rem (from + dirZ dir + 4) 4))
    = (0, 0) :: rest.
Proof.
  intros Hfrom.
  assert (from = 0 \/ from = 1 \/ from = 2 \/ from = 3) as [->|[->|[->| ->]]]
    by lia;
    destruct nm, dir; vm_compute; eauto.
Qed.

Lemma rotate_free dir s rs :
  gameOver s = false -> name (currentPiece s) <> PO ->
  0 <= rotation (pos s) <= 3 ->
  rotateMatrix (shape (currentPiece s)) dir = Ret rs ->
  collision (board s) rs (x (pos s)) (y (pos s)) = Ret false ->
  rotate dir s =
  Ret (setPos
         (mkPosition (x (pos s)) (y (pos s))
            ((rotation (pos s) + dirZ dir + 4) mod 4))
         (setCurrentPiece
            (mkPiece rs (color (currentPiece s)) (name (currentPiece s))) s)).
Proof.
  intros Hover HO Hrot Hrs Hfree. unfold rotate.
  rewrite Hover, decide_False by exact HO. rewrite Hrs. simpl.
  destruct (kicks_head (name (currentPiece s)) dir (rotation (pos s)) Hrot)
    as [rest ->].
  simpl. rewrite Z.add_0_r, Z.sub_0_r, Hfree. simpl.
  rewrite Z.rem_mod_nonneg by (destruct dir; simpl; lia). reflexivity.
Qed.

(** X8. Rotation in place comes first: for a piece other than O in a game
    that is not over, when the rotated shape does not collide at the
    current position, [rotate] commits it there, whatever the other kick
    candidates would allow: the position is unchanged, the rotation index
    becomes [(from + dir + 4) mod 4] and nothing else changes. *)
Theorem rotate_in_place_first (dir : Dir) (s : State) (rs : Shape) :
  gameOver s = false -> name (currentPiece s) <> PO ->
  0 <= rotation (pos s) <= 3 ->
  rotateMatrix (shape (currentPiece s)) dir = Ret rs ->
  collision (board s) rs (x (pos s)) (y (pos s)) = Ret false ->
  exists s',
    rotate dir s = Ret s' /\
    shape (currentPiece s') = rs /\
    x (pos s') = x (pos s) /\ y (pos s') = y (pos s) /\
    rotation (pos s') = (rotation (pos s) + dirZ dir + 4) mod 4 /\
    sameButPos (setCurrentPiece (currentPiece s') s) s'.
Proof.
  intros Hover HO Hrot Hrs Hfree. eexists.
  split; [exact (rotate_free dir s rs Hover HO Hrot Hrs Hfree)|].
  repeat split.
Qed.

Lemma rotate_in_place_first_witness :
  gameOver openScene = false /\
  exists s', rotate Ccw openScene = Ret s' /\ pos s' = mkPosition 6 5 3.
Proof.
  split; [reflexivity|].
  assert (HO : name (currentPiece openScene) <> PO) by discriminate.
  assert (Hrot : 0 <= rotation (pos openScene) <= 3) by (simpl; lia).
  destruct (rotate_in_place_first Ccw openScene (cells [[1; 1]; [1; 0]; [1; 0]])
              eq_refl HO Hrot eq_refl eq_refl) as (s' & Hs' & _ & Hx & Hy & Hr & _).
  exists s'. split; [exact Hs'|].
  destruct (pos s') as [px py pr]. simpl in Hx, Hy, Hr. subst. reflexivity.
Defined.

(** X9. Four clockwise rotations in free space are the identity on the
    state: for a piece other than O with a proper non-empty shape that does
    not collide where it is, when none of its three rotated shapes collides
    at that position either, four calls of [rotate(1)] return the starting
    state (shape, position and rotation index). *)
Theorem rotate_four_times (s : State) (rows cols : nat) (m1 m2 m3 : Shape) :
  gameOver s = false -> name (currentPiece s) <> PO ->
  0 <= rotation (pos s) <= 3 ->
  rect rows cols (shape (currentPiece s)) -> (0 < rows)%nat -> (0 < cols)%nat ->
  legal s ->
  rotateMatrix (shape (currentPiece s)) Cw = Ret m1 ->
  rotateMatrix m1 Cw = Ret m2 ->
  rotateMatrix m2 Cw = Ret m3 ->
  collision (board s) m1 (x (pos s)) (y (pos s)) = Ret false ->
  collision (board s) m2 (x (pos s)) (y (pos s)) = Ret false ->
  collision (board s) m3 (x (pos s)) (y (pos s)) = Ret false ->
  (s1 ← rotate Cw s; s2 ← rotate Cw s1; s3 ← rotate Cw s2; rotate Cw s3)
  = Ret s.
Proof.
  intros Hover HO Hrot Hrect Hr Hc Hlegal E1 E2 E3 F1 F2 F3.
  pose proof (rotateMatrix_cw_order4 rows cols _ Hrect Hr Hc) as E4.
  rewrite E1 in E4. simpl in E4. rewrite E2 in E4. simpl in E4.
  rewrite E3 in E4. simpl in E4.
  assert (Hmod : forall r, 0 <= r <= 3 -> 0 <= (r + dirZ Cw + 4) mod 4 <= 3).
  { intros r _. pose proof (Z.mod_pos_bound (r + dirZ Cw + 4) 4). lia. }
  pose proof (rotate_free Cw s m1 Hover HO Hrot E1 F1) as R1.
  match type of R1 with _ = Ret ?t => set (s1 := t) in * end.
  pose proof (rotate_free Cw s1 m2 Hover HO (Hmod _ Hrot) E2 F2) as R2.
  match type of R2 with _ = Ret ?t => set (s2 := t) in * end.
  pose proof (rotate_free Cw s2 m3 Hover HO (Hmod _ (Hmod _ Hrot)) E3 F3) as R3.
  match type of R3 with _ = Ret ?t => set (s3 := t) in * end.
  pose proof (rotate_free Cw s3 (shape (currentPiece s)) Hover HO
                (Hmod _ (Hmod _ (Hmod _ Hrot))) E4 Hlegal) as R4.
  rewrite R1. simpl. rewrite R2. simpl. rewrite R3. simpl. rewrite R4.
  f_equal. unfold s3, s2, s1. cbn.
  assert (Hback : ((((rotation (pos s) + 1 + 4) mod 4 + 1 + 4) mod 4 + 1 + 4)
                     mod 4 + 1 + 4) mod 4 = rotation (pos s)).
  { assert (rotation (pos s) = 0 \/ rotation (pos s) = 1 \/
            rotation (pos s) = 2 \/ rotation (pos s) = 3) as [->|[->|[->| ->]]]
      by lia; reflexivity. }
  rewrite Hback.
  destruct s as [? [? ? ?] [? ? ?] ? ? ? ? ? ? ? ? ? ? ? ?]. reflexivity.
Qed.

Lemma rotate_four_times_witness :
  gameOver openScene = false /\ legal openScene /\
  (s1 ← rotate Cw openScene; s2 ← rotate Cw s1; s3 ← rotate Cw s2;
   rotate Cw s3) = Ret openScene.
Proof.
  split; [reflexivity|]. split; [reflexivity|].
  assert (HO : name (currentPiece openScene) <> PO) by discriminate.
  assert (Hrot : 0 <= rotation (pos openScene) <= 3) by (simpl; lia).
  assert (Hrect : rect 2 3 (shape (currentPiece openScene))).
  { split; [reflexivity|]. repeat constructor. }
  apply (rotate_four_times openScene 2 3
           (cells [[1; 1]; [0; 1]; [0; 1]])
           (cells [[0; 0; 1]; [1; 1; 1]])
           (cells [[1; 0]; [1; 0]; [1; 1]]));
    first [reflexivity | assumption | lia].
Defined.

(** ** What the operations leave alone *)

(** The state after a lock that does not end the game, for merged board
    [nb], drawn piece [p] and bag [bag] after [k] random calls. *)
Lemma lock_shapes random s nb :
  let acc := setHoldUsed false (clearLines nb s) in
  exists nm bag k,
    let spawned :=
      setNextPiece (mkPiece (PIECES nm) (COLORS nm) nm)
        (setRandomCalls k
           (setPieceBag bag
              (setPos spawnPos (setCurrentPiece (nextPiece s) acc)))) in
    (let acc' := setPos spawnPos (setCurrentPiece (nextPiece s) acc) in
     setNextPiece (getNextPiece random acc').1 (getNextPiece random acc').2)
    = spawned /\
    (let acc' := setCurrentPiece (nextPiece s) acc in
     setPos spawnPos
       (setNextPiece (getNextPiece random acc').1 (getNextPiece random acc').2))
    = spawned.
Proof.
  intros acc.
  destruct (getNextPiece_shape random (setCurrentPiece (nextPiece s) acc))
    as (nm & bag & k & E & _).
  exists nm, bag, k. cbv zeta. split.
  - change (setPos spawnPos (setCurrentPiece (nextPiece s) acc))
      with (setPos spawnPos (setCurrentPiece (nextPiece s) acc)).
    rewrite getNextPiece_setPos, E. reflexivity.
  - rewrite E. reflexivity.
Qed.

(** The three possible outcomes of [tick] and of [hardDrop]: the piece
    falls by one row ([tick] only), the lock ends the game, or the lock
    spawns the next piece. *)
Lemma tick_cases random s s' :
  tick random s = Ret s' ->
  s' = droppedTo (y (pos s) + 1) s \/
  exists nb,
    s' = setGameOver true (setHoldUsed false (clearLines nb s)) \/
    exists nm bag k,
      s' = setNextPiece (mkPiece (PIECES nm) (COLORS nm) nm)
             (setRandomCalls k
                (setPieceBag bag
                   (setPos spawnPos
                      (setCurrentPiece (nextPiece s)
                         (setHoldUsed false (clearLines nb s)))))).
Proof.
  intros Hrun.
  destruct (collision (board s) (shape (currentPiece s)) (x (pos s))
              (y (pos s) + 1)) as [[|]| |] eqn:Hc;
    try (unfold tick in Hrun; rewrite Hc in Hrun; discriminate).
  2:{ rewrite (tick_fall random s Hc) in Hrun. injection Hrun as <-. auto. }
  destruct (mergePiece (board s) (shape (currentPiece s)) (x (pos s))
              (y (pos s)) (color (currentPiece s)) None) as [nb| |] eqn:Hm;
    try (unfold tick in Hrun; rewrite Hc in Hrun; simpl in Hrun;
         rewrite Hm in Hrun; discriminate).
  destruct (collision (board s) (shape (nextPiece s)) 3 0) as [g| |] eqn:Hg;
    try (unfold tick in Hrun; rewrite Hc in Hrun; simpl in Hrun;
         rewrite Hm in Hrun; simpl in Hrun; rewrite Hg in Hrun; discriminate).
  rewrite (tick_lock random s nb g Hc Hm Hg) in Hrun. injection Hrun as <-.
  right. exists nb. destruct g; [left; reflexivity|right].
  destruct (lock_shapes random s nb) as (nm & bag & k & E & _).
  exists nm, bag, k. exact E.
Qed.

Lemma hardDrop_cases random fuel s s' :
  hardDrop random fuel s = Ret s' ->
  s' = s \/
  exists nb,
    s' = setGameOver true (setHoldUsed false (clearLines nb s)) \/
    exists nm bag k,
      s' = setNextPiece (mkPiece (PIECES nm) (COLORS nm) nm)
             (setRandomCalls k
                (setPieceBag bag
                   (setPos spawnPos
                      (setCurrentPiece (nextPiece s)
                         (setHoldUsed false (clearLines nb s)))))).
Proof.
  intros Hrun. destruct (gameOver s) eqn:Hover.
  { unfold hardDrop in Hrun. rewrite Hover in Hrun. injection Hrun as <-. auto. }
  destruct (ghostY fuel s) as [dropY| |] eqn:Hy;
    try (unfold hardDrop in Hrun; rewrite Hover, Hy in Hrun; discriminate).
  destruct (mergePiece (board s) (shape (currentPiece s)) (x (pos s))
              dropY (color (currentPiece s)) None) as [nb| |] eqn:Hm;
    try (unfold hardDrop in Hrun; rewrite Hover, Hy in Hrun; simpl in Hrun;
         rewrite Hm in Hrun; discriminate).
  destruct (collision (board s) (shape (nextPiece s)) 3 0) as [g| |] eqn:Hg;
    try (unfold hardDrop in Hrun; rewrite Hover, Hy in Hrun; simpl in Hrun;
         rewrite Hm in Hrun; simpl in Hrun; rewrite Hg in Hrun; discriminate).
  rewrite (hardDrop_lock random fuel s dropY nb g Hover Hy Hm Hg) in Hrun.
  injection Hrun as <-.
  right. exists nb. destruct g; [left; reflexivity|right].
  destruct (lock_shapes random s nb) as (nm & bag & k & _ & E).
  exists nm, bag, k. exact E.
Qed.

Lemma tryKicks_shape kicks rs to s s' :
  tryKicks kicks rs to s = Ret s' ->
  s' = s \/ exists kx ky, s' = rotatedTo rs kx ky to s.
Proof.
  induction kicks as [|[kx ky] rest IH]; simpl.
  - intros [= <-]. auto.
  - destruct (collision _ _ _ _) as [[|]| |]; simpl; try discriminate.
    + exact IH.
    + intros [= <-]. right. eauto.
Qed.

Lemma rotate_shape dir s s' :
  rotate dir s = Ret s' ->
  s' = s \/ exists rs kx ky to, s' = rotatedTo rs kx ky to s.
Proof.
  unfold rotate. destruct (gameOver s); [intros [= <-]; auto|].
  destruct (decide _); [intros [= <-]; auto|].
  destruct (rotateMatrix _ _) as [rs| |]; simpl; try discriminate.
  intros Hrun. apply tryKicks_shape in Hrun as [->|(kx & ky & ->)]; [auto|].
  right. eauto.
Qed.

(** What [clearLines] does to the counters. *)
Lemma clearLines_counters nb s :
  score s <= score (clearLines nb s) /\
  linesCleared s <= linesCleared (clearLines nb s) /\
  (100 <= dropSpeed s ->
   100 <= dropSpeed (clearLines nb s) <= dropSpeed s) /\
  (dropSpeed (clearLines nb s) <= Z.max 100 (dropSpeed s)) /\
  timeElapsed (clearLines nb s) = timeElapsed s.
Proof.
  unfold clearLines. destruct (scanRows nb 0 [] []) as [newBoard cr].
  destruct (0 <? length cr)%nat; [|cbn; lia].
  cbn. destruct (_ >? _); cbn; lia.
Qed.

Lemma hold_cases random s :
  hold random s = s \/
  (gameOver s = false /\ holdUsed s = false /\
   let canon :=
     mkPiece (PIECES (name (currentPiece s))) (color (currentPiece s))
       (name (currentPiece s)) in
   ((exists held, holdPiece s = Some held /\
       hold random s
       = setHoldUsed true
           (setPos spawnPos
              (setHoldPiece (Some canon) (setCurrentPiece held s)))) \/
    (holdPiece s = None /\
     exists nm bag k,
       hold random s
       = setHoldUsed true
           (setPos spawnPos
              (setNextPiece (mkPiece (PIECES nm) (COLORS nm) nm)
                 (setRandomCalls k
                    (setPieceBag bag
                       (setCurrentPiece (nextPiece s)
                          (setHoldPiece (Some canon) s))))))))).
Proof.
  unfold hold. destruct (gameOver s) eqn:Hover; [left; reflexivity|].
  destruct (holdUsed s) eqn:Hused; [left; reflexivity|]. simpl.
  right. split; [reflexivity|]. split; [reflexivity|].
  destruct (holdPiece s) as [held|] eqn:Hheld.
  - left. exists held. split; reflexivity.
  - right. split; [reflexivity|].
    match goal with
    | |- context [getNextPiece random ?a] =>
        destruct (getNextPiece_shape random a) as (nm & bag & k & E & _)
    end.
    exists nm, bag, k. rewrite E. reflexivity.
Qed.

Lemma controls_untouched (random : nat -> Q) (s s' : State) (dx : Z)
  (dir : Dir) :
  move dx s = Ret s' \/ rotate dir s = Ret s' \/ s' = hold random s ->
  board s' = board s /\ timeouts s' = timeouts s /\
  flashLines s' = flashLines s /\ score s' = score s /\
  linesCleared s' = linesCleared s /\ dropSpeed s' = dropSpeed s /\
  timeElapsed s' = timeElapsed s /\ gameOver s' = gameOver s.
Proof.
  intros [Hmove|[Hrot| ->]].
  - apply move_cases in Hmove as [->|(_ & _ & ->)]; repeat split.
  - apply rotate_shape in Hrot as [->|(rs & kx & ky & to & ->)]; repeat split.
  - destruct (hold_cases random s)
      as [->|(_ & _ & [(held & _ & ->)|(_ & nm & bag & k & ->)])];
      repeat split.
Qed.

(** X10. [move], [rotate] and [hold] never touch the board, the pending
    line-clear callbacks, the flashing rows, the score, the line count, the
    fall period, the clock or the game-over flag. *)
Theorem controls_frame (random : nat -> Q) (s s' : State) (dx : Z) (dir : Dir) :
  move dx s = Ret s' \/ rotate dir s = Ret s' \/ s' = hold random s ->
  board s' = board s /\ timeouts s' = timeouts s /\
  flashLines s' = flashLines s /\ score s' = score s /\
  linesCleared s' = linesCleared s /\ dropSpeed s' = dropSpeed s /\
  timeElapsed s' = timeElapsed s /\ gameOver s' = gameOver s.
Proof. apply controls_untouched. Qed.

Lemma controls_frame_witness :
  exists s', move 1 kickScene = Ret s' /\ board s' = board kickScene.
Proof.
  eexists. split; [reflexivity|].
  refine (proj1 (controls_frame sampleRandom kickScene _ 1 Cw (or_introl _))).
  reflexivity.
Defined.

(** X11. Whatever happens in a game short of a restart, the score, the
    line count and the clock never go down, and the fall period never goes
    up once it is at least 100 ms. *)
Theorem game_monotone (random : nat -> Q) (s s' : State) (dx : Z) (dir : Dir)
  (fuel : nat) :
  move dx s = Ret s' \/ rotate dir s = Ret s' \/ s' = hold random s \/
  hardDrop random fuel s = Ret s' \/ gameLoop random s = Ret s' \/
  s' = fireTimeout s \/ s' = secondTimer s ->
  score s <= score s' /\ linesCleared s <= linesCleared s' /\
  timeElapsed s <= timeElapsed s' /\
  (100 <= dropSpeed s -> 100 <= dropSpeed s' <= dropSpeed s).
Proof.
  assert (Hlock : forall nb,
    let c := clearLines nb s in
    score s <= score c /\ linesCleared s <= linesCleared c /\
    timeElapsed s <= timeElapsed c /\
    (100 <= dropSpeed s -> 100 <= dropSpeed c <= dropSpeed s)).
  { intros nb. destruct (clearLines_counters nb s) as (? & ? & ? & _ & Ht).
    cbv zeta. rewrite Ht. repeat split; auto; lia. }
  intros [H|[H|[->|[H|[H|[->| ->]]]]]].
  - destruct (controls_untouched random s s' dx dir (or_introl H))
      as (_ & _ & _ & -> & -> & -> & -> & _). lia.
  - destruct (controls_untouched random s s' dx dir (or_intror (or_introl H)))
      as (_ & _ & _ & -> & -> & -> & -> & _). lia.
  - destruct (controls_untouched random s _ dx dir
                (or_intror (or_intror eq_refl)))
      as (_ & _ & _ & -> & -> & -> & -> & _). lia.
  - apply hardDrop_cases in H
      as [->|(nb & [->|(nm & bag & k & ->)])]; [lia|apply Hlock..].
  - unfold gameLoop in H.
    apply tick_cases in H
      as [->|(nb & [->|(nm & bag & k & ->)])]; [cbn; lia|apply Hlock..].
  - unfold fireTimeout. destruct (timeouts s) as [|[n nb] rest]; cbn; lia.
  - unfold secondTimer. cbn. lia.
Qed.

Lemma game_monotone_witness :
  exists s', hardDrop sampleRandom 40 stacked = Ret s' /\
             score stacked <= score s'.
Proof.
  eexists. split; [vm_compute; reflexivity|].
  refine (proj1 (game_monotone sampleRandom stacked _ 0 Cw 40
                   (or_intror (or_intror (or_intror (or_introl _)))))).
  vm_compute. reflexivity.
Defined.

(** X12. The hold slot is written by [hold] and [restart] only: [move],
    [rotate], [hardDrop], the timer-driven tick, the delayed line-clear
    callback and the clock leave the held piece as it is. *)
Theorem hold_slot_frame (random : nat -> Q) (s s' : State) (dx : Z)
  (dir : Dir) (fuel : nat) :
  move dx s = Ret s' \/ rotate dir s = Ret s' \/
  hardDrop random fuel s = Ret s' \/ gameLoop random s = Ret s' \/
  s' = fireTimeout s \/ s' = secondTimer s ->
  holdPiece s' = holdPiece s.
Proof.
  assert (Hlock : forall nb, holdPiece (clearLines nb s) = holdPiece s).
  { intros nb. apply clearLines_frame. }
  intros [H|[H|[H|[H|[->| ->]]]]].
  - apply move_cases in H as [->|(_ & _ & ->)]; reflexivity.
  - apply rotate_shape in H as [->|(rs & kx & ky & to & ->)]; reflexivity.
  - apply hardDrop_cases in H
      as [->|(nb & [->|(nm & bag & k & ->)])]; [reflexivity|apply Hlock..].
  - unfold gameLoop in H.
    apply tick_cases in H
      as [->|(nb & [->|(nm & bag & k & ->)])]; [reflexivity|apply Hlock..].
  - unfold fireTimeout. destruct (timeouts s) as [|[n nb] rest]; reflexivity.
  - unfold secondTimer. reflexivity.
Qed.

Lemma hold_slot_frame_witness :
  exists s', hardDrop sampleRandom 40 stacked = Ret s' /\
             holdPiece s' = holdPiece stacked.
Proof.
  eexists. split; [vm_compute; reflexivity|].
  refine (hold_slot_frame sampleRandom stacked _ 0 Cw 40
            (or_intror (or_intror (or_introl _)))).
  vm_compute. reflexivity.
Defined.

(** ** Hold *)

(** X13. Hold is locked after one use: calling [hold] a second time right
    after a first call changes nothing (and neither call changes anything
    when the game is over). *)
Theorem hold_twice (random : nat -> Q) (s : State) :
  hold random (hold random s) = hold random s /\
  (gameOver s = false -> holdUsed (hold random s) = true) /\
  (gameOver s = true -> hold random s = s).
Proof.
  assert (Hlocked : forall t, holdUsed t = true -> hold random t = t).
  { intros t Ht. unfold hold. rewrite Ht, orb_true_r. reflexivity. }
  split; [|split].
  - destruct (hold_cases random s)
      as [E|(_ & _ & [(held & _ & E)|(_ & nm & bag & k & E)])].
    + rewrite E. exact E.
    + rewrite E. apply Hlocked. reflexivity.
    + rewrite E. apply Hlocked. reflexivity.
  - intros Hover. unfold hold. rewrite Hover. simpl.
    destruct (holdUsed s) eqn:Hused; [exact Hused|reflexivity].
  - intros Hover. unfold hold. rewrite Hover. reflexivity.
Qed.

(** X14. Hold round trip: [hold] stores the current piece under its name
    with the shape of the tables (the rotation is dropped) and its colour;
    in any later state that is not game over, whose hold-lock has been
    reset and whose hold slot is still the same, the next [hold] makes
    exactly that piece current again, at the spawn anchor, and engages the
    lock. *)
Theorem hold_restores (random : nat -> Q) (s t : State) :
  gameOver s = false -> holdUsed s = false ->
  gameOver t = false -> holdUsed t = false ->
  holdPiece t = holdPiece (hold random s) ->
  let stored :=
    mkPiece (PIECES (name (currentPiece s))) (color (currentPiece s))
      (name (currentPiece s)) in
  holdPiece (hold random s) = Some stored /\
  currentPiece (hold random t) = stored /\
  pos (hold random t) = spawnPos /\
  holdUsed (hold random t) = true /\
  nextPiece (hold random t) = nextPiece t.
Proof.
  intros Hs1 Hs2 Ht1 Ht2 Hslot stored.
  assert (Hstored : holdPiece (hold random s) = Some stored).
  { destruct (hold_cases random s)
      as [E|(_ & _ & [(held & _ & E)|(_ & nm & bag & k & E)])].
    - unfold hold in E. rewrite Hs1, Hs2 in E. simpl in E.
      exfalso. apply (f_equal holdUsed) in E. rewrite Hs2 in E.
      destruct (holdPiece s);
        [|destruct (getNextPiece random _) in E]; discriminate.
    - rewrite E. reflexivity.
    - rewrite E. reflexivity. }
  split; [exact Hstored|]. rewrite Hstored in Hslot.
  unfold hold. rewrite Ht1, Ht2, Hslot. repeat split.
Qed.

Lemma hold_twice_witness :
  gameOver kickScene = false /\
  holdUsed (hold sampleRandom kickScene) = true.
Proof.
  split; [reflexivity|].
  exact (proj1 (proj2 (hold_twice sampleRandom kickScene)) eq_refl).
Defined.

Lemma hold_restores_witness :
  hardDrop sampleRandom 40 (hold sampleRandom kickScene) = Ret heldThenDropped /\
  gameOver heldThenDropped = false /\ holdUsed heldThenDropped = false /\
  currentPiece (hold sampleRandom heldThenDropped) = pieceOf PL.
Proof.
  split; [vm_compute; reflexivity|].
  split; [reflexivity|]. split; [reflexivity|].
  exact (proj1 (proj2 (hold_restores sampleRandom kickScene heldThenDropped
                         eq_refl eq_refl eq_refl eq_refl eq_refl))).
Defined.

(** ** Restart *)

Lemma last_two {A} (l : list A) :
  (2 <= length l)%nat -> exists l' b a, l = l' ++ [b; a].
Proof.
  intros Hlen. destruct l as [|a l] using rev_ind; [simpl in Hlen; lia|].
  clear IHl. destruct l as [|b l] using rev_ind.
  - simpl in Hlen. lia.
  - exists l, b, a. rewrite <- app_assoc. reflexivity.
Qed.

(** The state [restart] builds: two pieces drawn from a new bag, everything
    else reset, the pending callbacks kept. *)
Lemma restart_shape random s :
  exists n1 n2 bag,
    restart random s
    = mkState createEmptyBoard (pieceOf n1) spawnPos (pieceOf n2) None
        false false 0 0 0 1000 [] bag (randomCalls s + 6) (timeouts s) /\
    bag ++ [n2; n1] ≡ₚ PIECE_KEYS.
Proof.
  set (a0 := setBoard createEmptyBoard (setPieceBag [] s)).
  pose proof (refilled_bag random a0) as Hperm.
  destruct (last_two (pieceBag (refilled random a0))) as (bag & n2 & n1 & Hbag).
  { rewrite Hperm. simpl. lia. }
  assert (E1 : getNextPiece random a0
               = (pieceOf n1, setPieceBag (bag ++ [n2]) (refilled random a0))).
  { rewrite (getNextPiece_refill random a0 eq_refl).
    apply getNextPiece_pop. rewrite Hbag, <- app_assoc. reflexivity. }
  assert (E2 : getNextPiece random
                 (setCurrentPiece (pieceOf n1)
                    (setPieceBag (bag ++ [n2]) (refilled random a0)))
               = (pieceOf n2,
                  setPieceBag bag
                    (setCurrentPiece (pieceOf n1)
                       (setPieceBag (bag ++ [n2]) (refilled random a0))))).
  { apply getNextPiece_pop. reflexivity. }
  exists n1, n2, bag. split; [|rewrite <- Hbag; exact Hperm].
  unfold restart. fold a0. rewrite E1, E2. reflexivity.
Qed.

(** X15. [restart] starts a new game: the board is empty, score, line
    count and clock are 0, the fall period is 1000 ms, the flags and the
    hold slot are cleared, the flashing rows are cleared, and the current
    and the next piece are two different pieces of one newly shuffled bag,
    whose other five names stay in the bag. *)
Theorem restart_fresh (random : nat -> Q) (s : State) :
  validRandom random ->
  let r := restart random s in
  board r = createEmptyBoard /\ score r = 0 /\ linesCleared r = 0 /\
  timeElapsed r = 0 /\ dropSpeed r = 1000 /\
  gameOver r = false /\ holdUsed r = false /\ holdPiece r = None /\
  pos r = spawnPos /\ flashLines r = [] /\
  canonical (currentPiece r) /\ canonical (nextPiece r) /\
  name (currentPiece r) <> name (nextPiece r) /\
  length (pieceBag r) = 5%nat /\
  pieceBag r ++ [name (nextPiece r); name (currentPiece r)] ≡ₚ PIECE_KEYS.
Proof.
  intros _ r. unfold r.
  destruct (restart_shape random s) as (n1 & n2 & bag & -> & Hperm). cbn.
  repeat (split; [reflexivity|]).
  split; [split; reflexivity|]. split; [split; reflexivity|].
  pose proof PIECE_KEYS_NoDup as Hnd. rewrite <- Hperm in Hnd.
  apply NoDup_app in Hnd as (_ & _ & Hnd).
  apply NoDup_cons in Hnd as [Hnot _].
  split; [|split; [|exact Hperm]].
  - intros ->. apply Hnot. left.
  - apply Permutation_length in Hperm. rewrite length_app in Hperm.
    simpl in Hperm. lia.
Qed.

Lemma restart_fresh_witness :
  validRandom sampleRandom /\
  name (currentPiece (restart sampleRandom finished))
  <> name (nextPiece (restart sampleRandom finished)).
Proof.
  split; [exact sampleRandom_range|].
  pose proof (restart_fresh sampleRandom finished sampleRandom_range) as H.
  cbv zeta in H. apply H.
Defined.

(** X16. [restart] does not cancel a pending line-clear callback: when
    one is pending, its firing after the restart replaces the empty board of
    the new game by the compacted board of the game before, while the score
    of the new game stays 0. *)
Theorem restart_keeps_timeout (random : nat -> Q) (s : State) (n : nat)
  (nb : Board) (rest : list (nat * Board)) :
  timeouts s = (n, nb) :: rest ->
  timeouts (restart random s) = (n, nb) :: rest /\
  board (fireTimeout (restart random s)) = replicate n emptyRow ++ nb /\
  score (fireTimeout (restart random s)) = 0 /\
  timeouts (fireTimeout (restart random s)) = rest.
Proof.
  intros Hto. destruct (restart_shape random s) as (n1 & n2 & bag & -> & _).
  unfold fireTimeout. cbn. rewrite Hto. repeat split.
Qed.

Lemma restart_keeps_timeout_witness :
  board (fireTimeout
           (restart sampleRandom
              (setTimeouts [(1%nat, replicate 19 towerRow)] finished)))
  = emptyRow :: replicate 19 towerRow.
Proof.
  exact (proj1 (proj2 (restart_keeps_timeout sampleRandom
                         (setTimeouts [(1%nat, replicate 19 towerRow)] finished)
                         1 (replicate 19 towerRow) [] eq_refl))).
Defined.

(** ** Landing and locking *)

Lemma descend_sound fuel b sh px : forall y ystar,
  descend fuel b sh px y = Ret ystar ->
  y <= ystar /\ collision b sh px (ystar + 1) = Ret true /\
  forall y', y <= y' < ystar -> collision b sh px (y' + 1) = Ret false.
Proof.
  induction fuel as [|fuel IH]; intros y ystar Hrun; [discriminate|].
  rewrite descend_S in Hrun.
  destruct (collision b sh px (y + 1)) as [[|]| |] eqn:Hc; simpl in Hrun;
    try discriminate.
  - injection Hrun as <-. split; [lia|]. split; [exact Hc|]. intros y' Hy'. lia.
  - apply IH in Hrun as (Hle & Hstop & Hfree). split; [lia|].
    split; [exact Hstop|]. intros y' Hy'.
    destruct (decide (y' = y)) as [->|Hne]; [exact Hc|]. apply Hfree. lia.
Qed.

(** X17. The ghost row is a legal resting place: when the live piece does
    not collide where it is and [ghostY] returns [dropY], then [dropY] is at
    or below the current row, the piece does not collide at [dropY], and it
    collides one row further down. *)
Theorem ghost_is_legal (fuel : nat) (s : State) (dropY : Z) :
  legal s -> ghostY fuel s = Ret dropY ->
  y (pos s) <= dropY /\
  collision (board s) (shape (currentPiece s)) (x (pos s)) dropY = Ret false /\
  collision (board s) (shape (currentPiece s)) (x (pos s)) (dropY + 1)
    = Ret true.
Proof.
  intros Hlegal Hrun. apply descend_sound in Hrun as (Hle & Hstop & Hfree).
  split; [exact Hle|]. split; [|exact Hstop].
  destruct (decide (dropY = y (pos s))) as [->|Hne]; [exact Hlegal|].
  replace dropY with (dropY - 1 + 1) by lia. apply Hfree. lia.
Qed.

Lemma ghost_is_legal_witness :
  legal openScene /\ ghostY 40 openScene = Ret 18 /\
  collision (board openScene) (shape (currentPiece openScene)) 6 18 = Ret false.
Proof.
  split; [reflexivity|]. split; [reflexivity|].
  exact (proj1 (proj2 (ghost_is_legal 40 openScene 18 eq_refl eq_refl))).
Defined.

(** X18. Merging a piece where it does not collide never overwrites a
    locked block and loses no cell inside the board: every set cell of the
    shape lies between the side walls and above the floor, every board cell
    it covers was empty and holds the colour afterwards, and every other
    board cell is unchanged. *)
Theorem merge_fills_empty (b b' : Board) (sh : Shape) (px py : Z)
  (color : string) :
  wfBoard b ->
  collision b sh px py = Ret false ->
  mergePiece b sh px py color None = Ret b' ->
  (forall dy dx, setCell sh dy dx ->
     0 <= px + Z.of_nat dx < BOARD_WIDTH /\ py + Z.of_nat dy < BOARD_HEIGHT) /\
  (forall ny nx, covers sh px py ny nx ->
     cellAt b ny nx = Some Null /\ cellAt b' ny nx = Some (Color color)) /\
  (forall ny nx, ~ covers sh px py ny nx -> cellAt b' ny nx = cellAt b ny nx).
Proof.
  intros Hwf Hfree Hm.
  destruct (collision_ret b sh px py Hwf) as (r & Hr & Hiff).
  rewrite Hfree in Hr. injection Hr as <-.
  assert (Hnone : forall dy dx, setCell sh dy dx ->
            ~ (px + Z.of_nat dx < 0 \/ px + Z.of_nat dx >= BOARD_WIDTH \/
               py + Z.of_nat dy >= BOARD_HEIGHT \/
               (0 <= py + Z.of_nat dy /\
                occupied b (py + Z.of_nat dy) (px + Z.of_nat dx)))).
  { intros dy dx Hset Hhit. assert (false = true); [|discriminate].
    apply Hiff. eauto. }
  destruct (mergePiece_ret b sh px py color None Hwf)
    as (b'' & Hm' & _ & Hin & Hout).
  rewrite Hm in Hm'. injection Hm' as <-.
  split; [|split; [|exact Hout]].
  - intros dy dx Hset. specialize (Hnone dy dx Hset). lia.
  - intros ny nx Hcov. pose proof Hcov as (dy & dx & Hset & Hy & Hx).
    pose proof (Hnone dy dx Hset) as Hn.
    assert (Hny : (ny < 20)%nat) by (unfold BOARD_HEIGHT in Hn; lia).
    assert (Hnx : (nx < 10)%nat) by (unfold BOARD_WIDTH in Hn; lia).
    split; [|apply Hin; assumption].
    destruct (lookup_lt_is_Some_2 b ny) as [row Hrow];
      [rewrite (wfBoard_length b Hwf); exact Hny|].
    destruct (lookup_lt_is_Some_2 row nx) as [c Hc];
      [rewrite (wfBoard_row b ny row Hwf Hrow); exact Hnx|].
    unfold cellAt. rewrite Hrow. simpl. rewrite Hc. f_equal.
    destruct (decide (c = Null)) as [->|Hne]; [reflexivity|].
    exfalso. apply Hn. right; right; right. split; [lia|].
    exists row, c. rewrite Hy, Hx, !Nat2Z.id. auto.
Qed.

Lemma merge_fills_empty_witness :
  wfBoard (board openScene) /\
  cellAt (board openScene) 6 6 = Some Null.
Proof.
  split; [exact wfBoard_tower|].
  destruct (mergePiece (board openScene) (shape (currentPiece openScene)) 6 5
              "#FF8C00" None) as [b'| |] eqn:Hm;
    [|vm_compute in Hm; discriminate..].
  destruct (merge_fills_empty (board openScene) b'
              (shape (currentPiece openScene)) 6 5 "#FF8C00" wfBoard_tower
              eq_refl Hm) as (_ & Hcov & _).
  apply (Hcov 6%nat 6%nat). exists 1%nat, 0%nat. split; [|split; reflexivity].
  exists [Num 1; Num 0; Num 0], (Num 1). repeat split; reflexivity.
Defined.

(** ** The cells drawn by the screen *)

Lemma visited_next_cell sh px py k j row c ny nx :
  sh !! k = Some row -> row !! j = Some c ->
  visited sh px py k (S j) ny nx <->
  visited sh px py k j ny nx \/
  (truthy c = true /\ py + Z.of_nat k = Z.of_nat ny /\
   px + Z.of_nat j = Z.of_nat nx).
Proof.
  intros Hrow Hc. split.
  - intros (dy & dx & Hset & Hlt & Hy & Hx).
    destruct (decide (dy = k /\ dx = j)) as [[-> ->]|Hne].
    + right. destruct Hset as (row' & c' & Hrow' & Hc' & Ht).
      rewrite Hrow in Hrow'. injection Hrow' as <-.
      rewrite Hc in Hc'. injection Hc' as <-. auto.
    + left. exists dy, dx. repeat split; auto. lia.
  - intros [(dy & dx & Hset & Hlt & Hy & Hx)|(Ht & Hy & Hx)].
    + exists dy, dx. repeat split; auto. lia.
    + exists k, j. split; [exists row, c; auto|].
      split; [right; lia|]. split; assumption.
Qed.

(** The two overlay loops of the screen: a loop that applies [body] to its
    state at every set cell of the shape that lands on board cell
    [(cy, cx)] ends with [hit] applied if there is such a cell, and with the
    state it started from if there is none. *)
Lemma overlay_forEach {St} (body : St -> res St) (hit : St -> St) (sh : Shape)
  (px py : Z) (cy cx : nat) (st0 : St) :
  (forall st, body st = Ret (hit st)) -> hit (hit st0) = hit st0 ->
  exists st',
    array_forEach (fun r dy st =>
      array_forEach (fun v dx st =>
        if truthy v && (Z.of_nat cx =? px + Z.of_nat dx)
           && (Z.of_nat cy =? py + Z.of_nat dy)
        then body st else Ret st) r 0%nat st) sh 0%nat st0 = Ret st' /\
    (covers sh px py cy cx -> st' = hit st0) /\
    (~ covers sh px py cy cx -> st' = st0).
Proof.
  intros Hbody Hidem.
  set (I := fun k j st =>
    (visited sh px py k j cy cx /\ st = hit st0) \/
    (~ visited sh px py k j cy cx /\ st = st0)).
  match goal with
  | |- exists st', array_forEach ?f sh 0%nat st0 = Ret st' /\ _ =>
      destruct (array_forEach_inv f (fun k st => I k 0%nat st) sh 0%nat st0)
        as (st' & Hrun & Hfinal)
  end.
  - right. split; [|reflexivity].
    intros (dy & dx & _ & [Hlt|[_ Hlt]] & _); lia.
  - intros k row st Hrow Hinv. simpl.
    match goal with
    | |- exists st1, array_forEach ?f row 0%nat st = Ret st1 /\ _ =>
        destruct (array_forEach_inv f (fun j st => I k j st) row 0%nat st Hinv)
          as (st1 & Hrun & Hfinal)
    end.
    + intros j v st1 Hv Hinv1. simpl.
      pose proof (visited_next_cell sh px py k j row v cy cx Hrow Hv) as Hnew.
      destruct (truthy v && (Z.of_nat cx =? px + Z.of_nat j)
                && (Z.of_nat cy =? py + Z.of_nat k)) eqn:Hcond.
      * rewrite !andb_true_iff, !Z.eqb_eq in Hcond.
        rewrite Hbody. eexists. split; [reflexivity|]. left.
        split; [apply Hnew; right; intuition lia|].
        destruct Hinv1 as [[_ ->]|[_ ->]]; [exact Hidem|reflexivity].
      * exists st1. split; [reflexivity|].
        assert (Hsame : visited sh px py k (S j) cy cx
                        <-> visited sh px py k j cy cx).
        { rewrite Hnew. split; [|auto]. intros [H|(Ht & Hy & Hx)]; [exact H|].
          exfalso. rewrite <- not_true_iff_false in Hcond. apply Hcond.
          rewrite !andb_true_iff, !Z.eqb_eq. intuition lia. }
        unfold I. rewrite Hsame. exact Hinv1.
    + exists st1. split; [exact Hrun|].
      unfold I in *. rewrite <- (visited_next_row sh px py k row cy cx Hrow).
      exact Hfinal.
  - exists st'. split; [exact Hrun|]. unfold I in Hfinal.
    rewrite (visited_all sh px py cy cx) in Hfinal.
    split; intros Hcov; destruct Hfinal as [[Hv ->]|[Hv ->]];
      first [reflexivity | contradiction].
Qed.

(** X19. What [GameScreen] draws in board cell [(cy, cx)] holding [c],
    once [ghostY] has returned [dropY]: a cell of a flashing row is white;
    otherwise a cell under the live piece has the colour of the piece and a
    white border; otherwise a cell under the ghost has the ghost colour
    (the piece colour followed by [55]) only when the board cell is empty,
    and a locked block is never hidden by the ghost; otherwise the cell
    shows the board. *)
Theorem cellView_spec (fuel : nat) (s : State) (cy cx : nat) (c : cell)
  (dropY : Z) :
  ghostY fuel s = Ret dropY ->
  let sh := shape (currentPiece s) in
  let live := covers sh (x (pos s)) (y (pos s)) cy cx in
  let ghost := covers sh (x (pos s)) dropY cy cx in
  exists view,
    cellView fuel s cy cx c = Ret view /\
    (cy ∈ flashLines s -> view = (Color "#fff", "#fff"%string)) /\
    (cy ∉ flashLines s -> live ->
       view = (Color (color (currentPiece s)), "#fff"%string)) /\
    (cy ∉ flashLines s -> ~ live -> ghost ->
       view = (if falsy c then Color (color (currentPiece s) +:+ "55") else c,
               "#333"%string)) /\
    (cy ∉ flashLines s -> ~ live -> ~ ghost -> view = (c, "#333"%string)).
Proof.
  intros Hy sh live ghost. unfold cellView. rewrite Hy. simpl.
  set (ghostColor := Color (color (currentPiece s) +:+ "55")).
  destruct (overlay_forEach
              (fun bg => if falsy bg then Ret ghostColor else Ret bg)
              (fun bg => if falsy bg then ghostColor else bg)
              sh (x (pos s)) dropY cy cx c) as (bg & Hrun1 & Hg1 & Hg0).
  { intros st. destruct (falsy st); reflexivity. }
  { destruct (falsy c) eqn:Hc; [|rewrite Hc; reflexivity].
    assert (falsy ghostColor = false) as ->; [|reflexivity].
    unfold ghostColor. simpl. apply bool_decide_eq_false.
    destruct (color (currentPiece s)); discriminate. }
  fold sh. rewrite Hrun1. simpl.
  destruct (overlay_forEach
              (fun _ : cell * string =>
                 Ret (Color (color (currentPiece s)), "#fff"%string))
              (fun _ => (Color (color (currentPiece s)), "#fff"%string))
              sh (x (pos s)) (y (pos s)) cy cx (bg, "#333"%string))
    as ([bg2 border] & Hrun2 & Hl1 & Hl0); [reflexivity..|].
  rewrite Hrun2. simpl.
  destruct (bool_decide (cy ∈ flashLines s)) eqn:Hflash.
  - apply bool_decide_eq_true in Hflash. eexists. split; [reflexivity|].
    split; [reflexivity|]. repeat split; intros; contradiction.
  - apply bool_decide_eq_false in Hflash. eexists. split; [reflexivity|].
    split; [intros; contradiction|].
    split; [intros _ Hlive; exact (Hl1 Hlive)|].
    split.
    + intros _ Hnl Hgh. rewrite (Hl0 Hnl), (Hg1 Hgh). reflexivity.
    + intros _ Hnl Hngh. rewrite (Hl0 Hnl), (Hg0 Hngh). reflexivity.
Qed.

Lemma cellView_spec_witness :
  ghostY 40 openScene = Ret 18 /\
  cellView 40 openScene 18 3 (Color "#FFFF00")
  = Ret (Color "#FFFF00", "#333"%string).
Proof.
  split; [reflexivity|].
  destruct (cellView_spec 40 openScene 18 3 (Color "#FFFF00") 18 eq_refl)
    as (view & Hview & _ & _ & _ & Hplain).
  rewrite Hview. f_equal. apply Hplain.
  - intros H. apply elem_of_nil in H. exact H.
  - intros (dy & dx & _ & _ & Hx). simpl in Hx. lia.
  - intros (dy & dx & _ & _ & Hx). simpl in Hx. lia.
Defined.

(** ** Lifetime statistics *)

Lemma recordGames_from (st0 : LifetimeStats) (games : list State) :
  Forall (fun s => gameOver s = true) games ->
  exists st,
    recordGames (Some st0) games = Some st /\
    highScore st0 <= highScore st /\
    (forall s, s ∈ games -> score s <= highScore st) /\
    (highScore st = highScore st0 \/
     exists s, s ∈ games /\ highScore st = score s) /\
    totalLinesCleared st
    = totalLinesCleared st0 + foldr Z.add 0 (linesCleared <$> games) /\
    totalGamesPlayed st = totalGamesPlayed st0 + Z.of_nat (length games) /\
    totalTime st = totalTime st0 + foldr Z.add 0 (timeElapsed <$> games).
Proof.
  intros Hall. revert st0. induction Hall as [|s games Hover _ IH]; intros st0.
  - exists st0. split; [reflexivity|]. split; [lia|].
    split; [intros s Hs; apply elem_of_nil in Hs; contradiction|].
    split; [left; reflexivity|]. simpl. lia.
  - cbn [recordGames]. unfold handleGameOver. rewrite Hover.
    cbn [from_option id].
    match goal with
    | |- exists st, recordGames (Some ?st1) games = Some st /\ _ =>
        destruct (IH st1) as (st & Hrun & Hhigh & Hall' & Hmax & Hl & Hg & Ht)
    end.
    cbn [highScore totalLinesCleared totalGamesPlayed totalTime] in *.
    exists st. split; [exact Hrun|]. split; [lia|]. split; [|split].
    + intros s' Hs'. apply elem_of_cons in Hs' as [->|Hs']; [lia|auto].
    + destruct Hmax as [Hmax|(s' & Hs' & Hmax)].
      * destruct (Z.max_spec (highScore st0) (score s)) as [[_ E]|[_ E]];
          rewrite E in Hmax; [right; exists s; split; [left|exact Hmax]
                             |left; exact Hmax].
      * right. exists s'. split; [right; exact Hs'|exact Hmax].
    + rewrite !fmap_cons. cbn [foldr length]. rewrite Nat2Z.inj_succ.
      split; [lia|]. split; lia.
Qed.

(** X20. The lifetime record after a series of finished games, starting
    without a record and each save being read back by the next load: the
    high score is 0 or the score of one of the games and no game scored
    more; the number of games played is the number of games; the line and
    time totals are the sums over the games.  With no game there is still
    no record. *)
Theorem recordGames_totals (games : list State) :
  Forall (fun s => gameOver s = true) games ->
  (games = [] -> recordGames None games = None) /\
  (games <> [] ->
   exists st,
     recordGames None games = Some st /\
     0 <= highScore st /\
     (forall s, s ∈ games -> score s <= highScore st) /\
     (highScore st = 0 \/ exists s, s ∈ games /\ highScore st = score s) /\
     totalLinesCleared st = foldr Z.add 0 (linesCleared <$> games) /\
     totalGamesPlayed st = Z.of_nat (length games) /\
     totalTime st = foldr Z.add 0 (timeElapsed <$> games)).
Proof.
  intros Hall. split; [intros ->; reflexivity|]. intros Hne.
  destruct games as [|s games]; [contradiction|].
  apply Forall_cons in Hall as [Hover Hall].
  cbn [recordGames]. unfold handleGameOver. rewrite Hover. cbn [from_option id].
  match goal with
  | |- exists st, recordGames (Some ?st1) games = Some st /\ _ =>
      destruct (recordGames_from st1 games Hall)
        as (st & Hrun & Hhigh & Hall' & Hmax & Hl & Hg & Ht)
  end.
  cbn [highScore totalLinesCleared totalGamesPlayed totalTime] in *.
  exists st. split; [exact Hrun|]. split; [lia|]. split; [|split].
  - intros s' Hs'. apply elem_of_cons in Hs' as [->|Hs']; [lia|auto].
  - destruct Hmax as [Hmax|(s' & Hs' & Hmax)].
    + destruct (Z.max_spec 0 (score s)) as [[_ E]|[_ E]];
        rewrite E in Hmax; [right; exists s; split; [left|exact Hmax]
                           |left; exact Hmax].
    + right. exists s'. split; [right; exact Hs'|exact Hmax].
  - rewrite !fmap_cons. cbn [foldr length]. rewrite Nat2Z.inj_succ.
    split; [lia|]. split; lia.
Qed.

Lemma recordGames_totals_witness :
  Forall (fun s => gameOver s = true) [finished; setScore 300 finished] /\
  exists st,
    recordGames None [finished; setScore 300 finished] = Some st /\
    totalGamesPlayed st = 2.
Proof.
  assert (Hall : Forall (fun s => gameOver s = true)
                   [finished; setScore 300 finished])
    by (repeat constructor).
  split; [exact Hall|].
  destruct (proj2 (recordGames_totals _ Hall)) as (st & Hst & _ & _ & _ & _ & Hg & _);
    [discriminate|].
  exists st. split; [exact Hst|exact Hg].
Defined.

(** ** The kick table *)

(** X21. The kick table has an entry for every lookup [rotate] makes: for
    each piece other than O, each rotation index 0..3 and each direction,
    the key [from>to] is present with five candidates of which the first is
    [(0, 0)], so the [[(0, 0)]] fallback is never taken; the O piece, for
    which [rotate] returns before the lookup, has no entry at all. *)
Theorem kicks_always_found (nm : PieceName) (dir : Dir) (from : Z) :
  0 <= from <= 3 ->
  let key := kickKey from ((from + dirZ dir + 4) mod 4) in
  (nm <> PO ->
   exists rest,
     WALL_KICKS nm !! key = Some ((0, 0) :: rest) /\ length rest = 4%nat) /\
  WALL_KICKS PO !! key = None.
Proof.
  intros Hfrom.
  assert (from = 0 \/ from = 1 \/ from = 2 \/ from = 3) as [->|[->|[->| ->]]]
    by lia;
    destruct dir; (split; [|reflexivity]); intros HO;
    destruct nm; try contradiction; vm_compute; eauto.
Qed.

Lemma kicks_always_found_witness :
  WALL_KICKS PI !! kickKey 3 0
  = Some [(0, 0); (1, 0); (-2, 0); (1, -2); (-2, 1)].
Proof.
  destruct (kicks_always_found PI Cw 3 ltac:(lia)) as [Hfound _].
  destruct (Hfound ltac:(discriminate)) as (rest & Hrest & _).
  change (kickKey 3 ((3 + dirZ Cw + 4) mod 4)) with (kickKey 3 0) in Hrest.
  rewrite Hrest. vm_compute in Hrest. injection Hrest as <-. reflexivity.
Defined.

(** ** How much one lock can clear *)

Lemma PIECES_small nm : smallShape (PIECES nm).
Proof.
  destruct nm;
    [exists 1%nat, 4%nat | exists 2%nat, 2%nat | exists 2%nat, 3%nat
    | exists 2%nat, 3%nat | exists 2%nat, 3%nat | exists 2%nat, 3%nat
    | exists 2%nat, 3%nat];
    (split; [split; [reflexivity | repeat constructor]|lia]).
Qed.

Lemma rotateMatrix_small sh dir rs :
  smallShape sh -> rotateMatrix sh dir = Ret rs -> smallShape rs.
Proof.
  intros (rows & cols & Hrect & Hr & Hc) Hrun.
  destruct (decide (rows = 0%nat)) as [->|Hpos].
  { destruct Hrect as [Hlen _]. destruct sh; [discriminate|discriminate]. }
  destruct dir.
  - destruct (rotateMatrix_cw_spec rows cols sh Hrect) as (m & E & R & _);
      [lia|]. rewrite E in Hrun. injection Hrun as <-.
    exists cols, rows. auto.
  - destruct (rotateMatrix_ccw_spec rows cols sh Hrect) as (m & E & R & _);
      [lia|]. rewrite E in Hrun. injection Hrun as <-.
    exists cols, rows. auto.
Qed.

Lemma canonical_small p : canonical p -> smallShape (shape p).
Proof. intros [-> _]. apply PIECES_small. Qed.

Lemma step_small random s s' :
  Inv s -> smallShape (shape (currentPiece s)) -> step random s s' ->
  smallShape (shape (currentPiece s')).
Proof.
  intros HI Hsmall Hstep.
  pose proof (canonical_small _ (inv_next s HI)) as Hnext.
  assert (Hlock : forall nb,
            currentPiece (clearLines nb s) = currentPiece s).
  { intros nb. apply clearLines_frame. }
  destruct Hstep as [dx s s' H|dir s s' H|s|fuel s s' H|s s' H|s|s|s].
  - apply move_cases in H as [->|(_ & _ & ->)]; exact Hsmall.
  - apply (rotate_cases dir s s' (proj1 (inv_board s HI))) in H
      as [->|(rs & kx & ky & to & Hrs & _ & ->)]; [exact Hsmall|].
    exact (rotateMatrix_small _ dir rs Hsmall Hrs).
  - destruct (hold_cases random s)
      as [->|(_ & _ & [(held & Hheld & ->)|(_ & nm & bag & k & ->)])];
      [exact Hsmall| |exact Hnext].
    apply canonical_small. exact (inv_hold s HI held Hheld).
  - apply hardDrop_cases in H as [->|(nb & [->|(nm & bag & k & ->)])];
      [exact Hsmall| |exact Hnext].
    cbn. rewrite Hlock. exact Hsmall.
  - unfold gameLoop in H.
    apply tick_cases in H as [->|(nb & [->|(nm & bag & k & ->)])];
      [exact Hsmall| |exact Hnext].
    cbn. rewrite Hlock. exact Hsmall.
  - unfold fireTimeout. destruct (timeouts s) as [|[n nb] rest]; exact Hsmall.
  - unfold secondTimer. exact Hsmall.
  - destruct (restart_shape random s) as (n1 & n2 & bag & -> & _).
    apply PIECES_small.
Qed.

Lemma reachable_small random s :
  reachable random s -> smallShape (shape (currentPiece s)).
Proof.
  induction 1 as [|s s' Hreach IH Hstep].
  - unfold initialState.
    match goal with
    | |- context [getNextPiece random ?a] =>
        destruct (getNextPiece_shape random a) as (n1 & bag1 & k1 & E1 & _)
    end.
    rewrite E1.
    match goal with
    | |- context [getNextPiece random ?a] =>
        destruct (getNextPiece_shape random a) as (n2 & bag2 & k2 & E2 & _)
    end.
    rewrite E2. apply PIECES_small.
  - eapply step_small; eauto. apply (reachable_Inv random). exact Hreach.
Qed.

(** An increasing list of numbers taken from an interval of [r] integers
    has at most [r] elements. *)
Lemma sorted_in_interval (l : list nat) : forall lo r,
  StronglySorted lt l ->
  (forall i, i ∈ l -> lo <= Z.of_nat i < lo + r) ->
  Z.of_nat (length l) <= Z.max 0 r.
Proof.
  induction l as [|h t IH]; intros lo r Hsorted Hin; [simpl; lia|].
  apply StronglySorted_inv in Hsorted as [Hsorted Hall].
  pose proof (Hin h ltac:(left)) as Hh.
  specialize (IH (Z.of_nat h + 1) (lo + r - Z.of_nat h - 1) Hsorted).
  cbn [length]. rewrite Nat2Z.inj_succ.
  assert (Z.of_nat (length t) <= Z.max 0 (lo + r - Z.of_nat h - 1)); [|lia].
  apply IH. intros i Hi. rewrite Forall_forall in Hall.
  pose proof (Hall i Hi). pose proof (Hin i ltac:(right; exact Hi)). lia.
Qed.

(** The rows completed by a merge are rows of the piece. *)
Lemma merge_full_rows b nb color sh px py rows cols :
  wfBoard b -> noFullRow b -> rect rows cols sh ->
  mergeInv b color (covers sh px py) nb ->
  forall i, i ∈ fullFrom nb 0 -> py <= Z.of_nat i < py + Z.of_nat rows.
Proof.
  intros Hwf Hno Hrect (Hwf' & _ & Hout) i Hi.
  apply fullFrom_elem in Hi as (k & rowN & -> & HrowN & Hfull). simpl.
  destruct (decide (py <= Z.of_nat k < py + Z.of_nat rows)) as [Hin|Hnot];
    [exact Hin|exfalso].
  assert (Hk : (k < 20)%nat).
  { apply lookup_lt_Some in HrowN. rewrite (wfBoard_length nb Hwf') in HrowN.
    exact HrowN. }
  destruct (lookup_lt_is_Some_2 b k) as [rowB HrowB];
    [rewrite (wfBoard_length b Hwf); exact Hk|].
  assert (rowN = rowB) as ->.
  { apply list_eq. intros nx.
    assert (Hnc : ~ covers sh px py k nx).
    { intros (dy & dx & Hset & Hy & _).
      destruct (setCell_rect rows cols sh dy dx Hrect Hset). lia. }
    specialize (Hout k nx Hnc). unfold cellAt in Hout.
    rewrite HrowN, HrowB in Hout. exact Hout. }
  rewrite (Hno rowB) in Hfull; [discriminate|].
  eapply list_elem_of_lookup_2; eauto.
Qed.

Lemma clearLines_score nb s :
  score (clearLines nb s)
  = score s + Z.of_nat (length (fullFrom nb 0)) * 100 /\
  linesCleared (clearLines nb s)
  = linesCleared s + Z.of_nat (length (fullFrom nb 0)).
Proof.
  unfold clearLines. rewrite scanRows_eq. simpl.
  destruct (fullFrom nb 0) as [|i cr]; [cbn; lia|].
  change (0 <? length (i :: cr))%nat with true. cbv iota.
  cbn. destruct (_ >? _); cbn; lia.
Qed.

Lemma lock_clears_at_most_4 b sh px py color nb :
  wfBoard b -> noFullRow b -> smallShape sh ->
  mergePiece b sh px py color None = Ret nb ->
  0 <= Z.of_nat (length (fullFrom nb 0)) <= 4.
Proof.
  intros Hwf Hno (rows & cols & Hrect & Hr & _) Hm.
  destruct (mergePiece_ret b sh px py color None Hwf) as (nb' & Hm' & Hinv).
  rewrite Hm in Hm'. injection Hm' as <-.
  pose proof (sorted_in_interval (fullFrom nb 0) py (Z.of_nat rows)
                (fullFrom_sorted nb 0)
                (merge_full_rows b nb color sh px py rows cols Hwf Hno Hrect
                   Hinv)). lia.
Qed.

(** X22. One lock clears at most four lines: in every state of a game, a
    tick or a hard drop raises the line count by at most 4 and the score by
    100 times as much, so by 0, 100, 200, 300 or 400. *)
Theorem lock_scores_at_most_400 (random : nat -> Q) (s s' : State)
  (fuel : nat) :
  validRandom random -> reachable random s ->
  gameLoop random s = Ret s' \/ hardDrop random fuel s = Ret s' ->
  exists n, 0 <= n <= 4 /\
    linesCleared s' = linesCleared s + n /\ score s' = score s + n * 100.
Proof.
  intros _ Hreach Hrun.
  pose proof (reachable_Inv random s Hreach) as HI.
  pose proof (reachable_small random s Hreach) as Hsmall.
  destruct (inv_board s HI) as [Hwf Hno].
  assert (Hsame : exists n, 0 <= n <= 4 /\
            linesCleared s = linesCleared s + n /\ score s = score s + n * 100)
    by (exists 0; lia).
  assert (Hlock : forall py nb st,
    mergePiece (board s) (shape (currentPiece s)) (x (pos s)) py
      (color (currentPiece s)) None = Ret nb ->
    linesCleared st = linesCleared (clearLines nb s) ->
    score st = score (clearLines nb s) ->
    exists n, 0 <= n <= 4 /\
      linesCleared st = linesCleared s + n /\ score st = score s + n * 100).
  { intros py nb st Hm Hl Hs.
    destruct (clearLines_score nb s) as [Hs' Hl'].
    exists (Z.of_nat (length (fullFrom nb 0))).
    split; [eapply lock_clears_at_most_4; eauto|]. split; congruence. }
  assert (Hboth : forall py nb (g : bool) st,
    mergePiece (board s) (shape (currentPiece s)) (x (pos s)) py
      (color (currentPiece s)) None = Ret nb ->
    st = (if g then setGameOver true (setHoldUsed false (clearLines nb s))
          else
            let acc :=
              setPos spawnPos
                (setCurrentPiece (nextPiece s)
                   (setHoldUsed false (clearLines nb s))) in
            setNextPiece (getNextPiece random acc).1
              (getNextPiece random acc).2) ->
    exists n, 0 <= n <= 4 /\
      linesCleared st = linesCleared s + n /\ score st = score s + n * 100).
  { intros py nb g st Hm ->. apply (Hlock py nb); [exact Hm|..];
      destruct g; try reflexivity;
      destruct (lock_shapes random s nb) as (nm & bag & k & E & _);
      cbv zeta in E |- *; rewrite E; reflexivity. }
  destruct Hrun as [Hrun|Hrun].
  - unfold gameLoop in Hrun.
    destruct (collision_ret (board s) (shape (currentPiece s)) (x (pos s))
                (y (pos s) + 1) Hwf) as ([|] & Hc & _).
    + destruct (mergePiece_ret (board s) (shape (currentPiece s)) (x (pos s))
                  (y (pos s)) (color (currentPiece s)) None Hwf)
        as (nb & Hm & _).
      destruct (collision_ret (board s) (shape (nextPiece s)) 3 0 Hwf)
        as (g & Hg & _).
      rewrite (tick_lock random s nb g Hc Hm Hg) in Hrun.
      injection Hrun as <-. eapply Hboth; eauto.
    + rewrite (tick_fall random s Hc) in Hrun. injection Hrun as <-.
      exact Hsame.
  - destruct (gameOver s) eqn:Hover.
    { unfold hardDrop in Hrun. rewrite Hover in Hrun. injection Hrun as <-.
      exact Hsame. }
    destruct (ghostY fuel s) as [dropY| |] eqn:Hy;
      try (unfold hardDrop in Hrun; rewrite Hover, Hy in Hrun; discriminate).
    destruct (mergePiece_ret (board s) (shape (currentPiece s)) (x (pos s))
                dropY (color (currentPiece s)) None Hwf) as (nb & Hm & _).
    destruct (collision_ret (board s) (shape (nextPiece s)) 3 0 Hwf)
      as (g & Hg & _).
    rewrite (hardDrop_lock random fuel s dropY nb g Hover Hy Hm Hg) in Hrun.
    injection Hrun as <-.
    destruct (lock_shapes random s nb) as (nm & bag & k & E1 & E2).
    cbv zeta in E1, E2 |- *.
    apply (Hboth dropY nb g); [exact Hm|].
    destruct g; [reflexivity|]. cbv zeta. rewrite E1, E2. reflexivity.
Qed.

Lemma lock_scores_at_most_400_witness :
  validRandom sampleRandom /\
  exists s' n,
    gameLoop sampleRandom (initialState sampleRandom) = Ret s' /\
    score s' = score (initialState sampleRandom) + n * 100.
Proof.
  split; [exact sampleRandom_range|].
  assert (Hrun : exists s', gameLoop sampleRandom (initialState sampleRandom)
                            = Ret s').
  { eexists. vm_compute. reflexivity. }
  destruct Hrun as [s' Hs'].
  destruct (lock_scores_at_most_400 sampleRandom (initialState sampleRandom)
              s' 0 sampleRandom_range (reach_init sampleRandom)
              (or_introl Hs')) as (n & _ & _ & Hn).
  exists s', n. split; assumption.
Defined.

(** ** Scripted games *)

Lemma fire_step random e s s' :
  fire random e s = Ret s' -> step random s s'.
Proof.
  destruct e; cbn [fire]; intros H; try (injection H as <-).
  - eapply step_move; eauto.
  - eapply step_rotate; eauto.
  - apply step_hold.
  - eapply step_hardDrop; eauto.
  - eapply step_gameLoop; eauto.
  - apply step_timeout.
  - apply step_second.
  - apply step_restart.
Qed.

Lemma play_reachable random script : forall s s',
  reachable random s -> play random script s = Ret s' -> reachable random s'.
Proof.
  induction script as [|e rest IH]; intros s s' Hreach Hplay.
  - injection Hplay as <-. exact Hreach.
  - cbn [play] in Hplay.
    destruct (fire random e s) as [t| |] eqn:Hfire; try discriminate.
    apply (IH t s'); [|exact Hplay].
    eapply reach_step; [exact Hreach|]. eapply fire_step; eauto.
Qed.

Lemma stacked_reachable : reachable sampleRandom stacked.
Proof.
  apply (play_reachable sampleRandom (replicate 10 (EHardDrop 40))
           (initialState sampleRandom)); [apply reach_init|].
  vm_compute. reflexivity.
Qed.

(** The product in the shuffle is rounded as a double: for this value of
    [Math.random()], just below a third, the exact product with 3 is below
    1, the rounded one is 1. *)
Example randomIndex_rounds :
  randomIndex (fun _ => 6004799503160661 # 18014398509481984) 0 2 = 1%nat /\
  Qfloor ((6004799503160661 # 18014398509481984) * 3) = 0.
Proof. split; vm_compute; reflexivity. Qed.


